(** * smart-url-crawler: the crawl pipeline of [crawler.py] over the schema of
    [db_manager.py], as a shallow embedding.

    Layout:
    - [hashlib]: SHA-256 (FIPS 180-4) with [hexdigest], the fingerprint of a page;
    - the tables of [db_manager.py] as records, the store and the session
      (unit of work: staged writes, flush, commit, rollback);
    - the rendering collaborator as a script of outcomes per URL;
    - [worker]: claim, classify, status-only fetch, full fetch with link
      discovery, the error handler;
    - [Pool]: several workers interleaved over one store, one store access
      per step. *)

From Stdlib Require Import ZArith Ascii String.
From stdpp Require Import gmap strings list.

Local Open Scope Z_scope.

(** ** Exceptions

    A Python call either returns or raises; [Raise e] carries [str(e)]. *)

Inductive result (A : Type) : Type :=
| Ok (a : A)
| Raise (e : string).
Arguments Ok {A} a.
Arguments Raise {A} e.

(** ** hashlib.sha256 *)

Module hashlib.

Definition w32 (x : Z) : Z := x mod 2 ^ 32.
Definition add32 (x y : Z) : Z := w32 (x + y).
Definition rotr (n x : Z) : Z := Z.lor (Z.shiftr x n) (w32 (Z.shiftl x (32 - n))).

Definition ch (x y z : Z) : Z := Z.lxor (Z.land x y) (Z.land (w32 (Z.lnot x)) z).
Definition maj (x y z : Z) : Z :=
  Z.lxor (Z.lxor (Z.land x y) (Z.land x z)) (Z.land y z).
Definition bsig0 (x : Z) : Z := Z.lxor (Z.lxor (rotr 2 x) (rotr 13 x)) (rotr 22 x).
Definition bsig1 (x : Z) : Z := Z.lxor (Z.lxor (rotr 6 x) (rotr 11 x)) (rotr 25 x).
Definition ssig0 (x : Z) : Z := Z.lxor (Z.lxor (rotr 7 x) (rotr 18 x)) (Z.shiftr x 3).
Definition ssig1 (x : Z) : Z := Z.lxor (Z.lxor (rotr 17 x) (rotr 19 x)) (Z.shiftr x 10).

(** Round constants: the first 32 bits of the fractional parts of the cube
    roots of the first 64 primes. *)
Definition round_constants : list Z :=
  [ 1116352408; 1899447441; 3049323471; 3921009573;
    961987163; 1508970993; 2453635748; 2870763221;
    3624381080; 310598401; 607225278; 1426881987;
    1925078388; 2162078206; 2614888103; 3248222580;
    3835390401; 4022224774; 264347078; 604807628;
    770255983; 1249150122; 1555081692; 1996064986;
    2554220882; 2821834349; 2952996808; 3210313671;
    3336571891; 3584528711; 113926993; 338241895;
    666307205; 773529912; 1294757372; 1396182291;
    1695183700; 1986661051; 2177026350; 2456956037;
    2730485921; 2820302411; 3259730800; 3345764771;
    3516065817; 3600352804; 4094571909; 275423344;
    430227734; 506948616; 659060556; 883997877;
    958139571; 1322822218; 1537002063; 1747873779;
    1955562222; 2024104815; 2227730452; 2361852424;
    2428436474; 2756734187; 3204031479; 3329325298 ].

(** The eight working registers. *)
Record regs : Type := Regs {
  ra : Z; rb : Z; rc : Z; rd : Z; re : Z; rf : Z; rg : Z; rh : Z }.

(** Initial hash value: fractional parts of the square roots of the first
    eight primes. *)
Definition initial_hash : regs :=
  Regs 1779033703 3144134277 1013904242 2773480762
       1359893119 2600822924 528734635 1541459225.

(** Padding: a 1 bit, zeros up to 56 mod 64 bytes, the bit length on 8
    bytes, big endian. *)
Fixpoint be_bytes (n : nat) (x : Z) : list Z :=
  match n with
  | O => []
  | S k => (x / 256 ^ Z.of_nat k) mod 256 :: be_bytes k x
  end.

Definition pad (msg : list Z) : list Z :=
  let len := Z.of_nat (length msg) in
  let zeros := Z.to_nat ((55 - len) mod 64) in
  msg ++ 128 :: repeat 0 zeros ++ be_bytes 8 (8 * len).

Fixpoint be_words (n : nat) (bs : list Z) : list Z :=
  match n, bs with
  | S k, b0 :: b1 :: b2 :: b3 :: rest =>
      (((b0 * 256 + b1) * 256 + b2) * 256 + b3) :: be_words k rest
  | _, _ => []
  end.

(** Message schedule, most recent word first. *)
Fixpoint schedule (n : nat) (rev_w : list Z) : list Z :=
  match n with
  | O => rev_w
  | S k =>
      let at_ i := nth i rev_w 0 in
      let w := add32 (add32 (ssig1 (at_ 1%nat)) (at_ 6%nat))
                     (add32 (ssig0 (at_ 14%nat)) (at_ 15%nat)) in
      schedule k (w :: rev_w)
  end.

Definition round (r : regs) (kw : Z * Z) : regs :=
  let t1 := add32 (add32 (add32 (rh r) (bsig1 (re r)))
                         (add32 (ch (re r) (rf r) (rg r)) (fst kw))) (snd kw) in
  let t2 := add32 (bsig0 (ra r)) (maj (ra r) (rb r) (rc r)) in
  Regs (add32 t1 t2) (ra r) (rb r) (rc r) (add32 (rd r) t1) (re r) (rf r) (rg r).

Definition compress (h : regs) (block : list Z) : regs :=
  let w := rev (schedule 48 (rev (be_words 16 block))) in
  let r := fold_left round (zip round_constants w) h in
  Regs (add32 (ra h) (ra r)) (add32 (rb h) (rb r)) (add32 (rc h) (rc r))
       (add32 (rd h) (rd r)) (add32 (re h) (re r)) (add32 (rf h) (rf r))
       (add32 (rg h) (rg r)) (add32 (rh h) (rh r)).

Fixpoint blocks (n : nat) (h : regs) (bs : list Z) : regs :=
  match n with
  | O => h
  | S k => blocks k (compress h (take 64 bs)) (drop 64 bs)
  end.

Definition sha256 (msg : list Z) : regs :=
  let p := pad msg in
  blocks (length p / 64)%nat initial_hash p.

Definition hex_alphabet : list ascii :=
  list_ascii_of_string "0123456789abcdef".

Definition hex_digit (x : Z) : ascii :=
  nth (Z.to_nat (x mod 16)) hex_alphabet "0"%char.

Definition hex8 (x : Z) (rest : string) : string :=
  String (hex_digit (x / 2 ^ 28)) (String (hex_digit (x / 2 ^ 24))
 (String (hex_digit (x / 2 ^ 20)) (String (hex_digit (x / 2 ^ 16))
 (String (hex_digit (x / 2 ^ 12)) (String (hex_digit (x / 2 ^ 8))
 (String (hex_digit (x / 2 ^ 4)) (String (hex_digit x) rest))))))).

Definition hexdigest (r : regs) : string :=
  hex8 (ra r) (hex8 (rb r) (hex8 (rc r) (hex8 (rd r)
 (hex8 (re r) (hex8 (rf r) (hex8 (rg r) (hex8 (rh r) EmptyString))))))).

(** [str.encode()]: a string is held as its UTF-8 bytes. *)
Definition encode (s : string) : list Z :=
  map (fun a => Z.of_N (N_of_ascii a)) (list_ascii_of_string s).

Definition sha256_hexdigest (s : string) : string :=
  hexdigest (sha256 (encode s)).

End hashlib.

(** ** Tables ([db_manager.py]) *)

(** [sa.Enum('pending','in_progress','done','error')] *)
Inductive url_status : Type := pending | in_progress | done | error.

(** The [category] column; the crawler only ever stores these two values. *)
Inductive url_category : Type := internal | external.

(** [sa.Enum('desktop','mobile','bot')] *)
Inductive crawl_mode : Type := desktop | mobile | bot.

#[global] Instance url_status_eq_dec : EqDecision url_status.
Proof. solve_decision. Defined.
#[global] Instance url_category_eq_dec : EqDecision url_category.
Proof. solve_decision. Defined.
#[global] Instance crawl_mode_eq_dec : EqDecision crawl_mode.
Proof. solve_decision. Defined.

Module URL.
Record t : Type := mk {
  id : Z;
  url : string;
  category : url_category;
  status : url_status;
  last_attempt : option Z }.

Definition with_category (c : url_category) (r : t) : t :=
  mk (id r) (url r) c (status r) (last_attempt r).
Definition with_status (s : url_status) (r : t) : t :=
  mk (id r) (url r) (category r) s (last_attempt r).
Definition with_last_attempt (a : option Z) (r : t) : t :=
  mk (id r) (url r) (category r) (status r) a.
End URL.

Module Snapshot.
Record t : Type := mk {
  id : Z;
  url_id : Z;
  run_id : Z;
  mode : crawl_mode;
  status_code : option Z;
  content_hash : option string;
  content : option string;
  error_message : option string;
  ttfb_ms : option Z;
  dom_content_loaded_ms : option Z;
  load_event_end_ms : option Z;
  timestamp : Z }.

Definition with_id (i : Z) (s : t) : t :=
  mk i (url_id s) (run_id s) (mode s) (status_code s) (content_hash s)
     (content s) (error_message s) (ttfb_ms s) (dom_content_loaded_ms s)
     (load_event_end_ms s) (timestamp s).
End Snapshot.

Module Link.
Record t : Type := mk {
  id : Z;
  source_id : Z;
  target_id : Z;
  snapshot_id : Z }.
End Link.

(** The committed rows of the three tables the crawler writes, each with its
    AUTO_INCREMENT counter. *)
Record store : Type := Store {
  urls : list URL.t;
  snapshots : list Snapshot.t;
  links : list Link.t;
  next_url_id : Z;
  next_snapshot_id : Z;
  next_link_id : Z }.

(** ** The session: a unit of work over the store *)

(** A write staged in the open transaction: [session.add(...)] of a new row,
    or an attribute assignment on a loaded [URL] object.  A snapshot that was
    flushed already has its id; any other new row gets its id at the commit. *)
Inductive write : Type :=
| AddURL (u : string) (c : url_category) (st : url_status)
| SetCategory (i : Z) (c : url_category)
| SetStatus (i : Z) (st : url_status)
| SetLastAttempt (i : Z) (a : option Z)
| AddSnapshot (flushed : bool) (s : Snapshot.t)
| AddLink (src tgt snap : Z).

Definition update_url (i : Z) (f : URL.t → URL.t) (rows : list URL.t) : list URL.t :=
  map (λ r, if bool_decide (URL.id r = i) then f r else r) rows.

Definition set_urls (rows : list URL.t) (σ : store) : store :=
  Store rows (snapshots σ) (links σ)
        (next_url_id σ) (next_snapshot_id σ) (next_link_id σ).

(** What the unique index [uq_urls_url] answers to a duplicate insert. *)
Definition integrity_error (u : string) : string :=
  "IntegrityError: Duplicate entry '" +:+ u +:+ "' for key 'uq_urls_url'".

(** [uq_urls_url] is declared [unique=True] on column [url]: inserting a URL
    string that a committed row already holds is refused.  (The index is
    built with [mysql_length=191]; URLs are compared here as whole strings.) *)
Definition apply_write (w : write) (σ : store) : result store :=
  match w with
  | AddURL u c st =>
      if bool_decide (u ∈ map URL.url (urls σ)) then Raise (integrity_error u)
      else Ok (Store (urls σ ++ [URL.mk (next_url_id σ) u c st None])
                     (snapshots σ) (links σ)
                     (next_url_id σ + 1) (next_snapshot_id σ) (next_link_id σ))
  | SetCategory i c => Ok (set_urls (update_url i (URL.with_category c) (urls σ)) σ)
  | SetStatus i st => Ok (set_urls (update_url i (URL.with_status st) (urls σ)) σ)
  | SetLastAttempt i a =>
      Ok (set_urls (update_url i (URL.with_last_attempt a) (urls σ)) σ)
  | AddSnapshot true s =>
      Ok (Store (urls σ) (snapshots σ ++ [s]) (links σ)
                (next_url_id σ) (next_snapshot_id σ) (next_link_id σ))
  | AddSnapshot false s =>
      Ok (Store (urls σ) (snapshots σ ++ [Snapshot.with_id (next_snapshot_id σ) s])
                (links σ)
                (next_url_id σ) (next_snapshot_id σ + 1) (next_link_id σ))
  | AddLink src tgt snap =>
      Ok (Store (urls σ) (snapshots σ)
                (links σ ++ [Link.mk (next_link_id σ) src tgt snap])
                (next_url_id σ) (next_snapshot_id σ) (next_link_id σ + 1))
  end.

Fixpoint apply_writes (ws : list write) (σ : store) : result store :=
  match ws with
  | [] => Ok σ
  | w :: rest =>
      match apply_write w σ with
      | Ok σ' => apply_writes rest σ'
      | Raise e => Raise e
      end
  end.

(** ** The rendering collaborator *)

(** Calls made on the browser context and on the page, in order. *)
Inductive event : Type :=
| EvRequestGet (u : string) (timeout : Z)
| EvNewPage
| EvGoto (u : string) (timeout : Z)
| EvWaitForLoadState (what : string) (timeout : Z)
| EvWaitForTimeout (ms : Z)
| EvEvaluate
| EvEvalOnSelectorAll
| EvContent
| EvPageClose.

(** A bounded wait: the state is reached, the wait times out ([PWTimeout]),
    or it fails otherwise. *)
Inductive wait_outcome : Type :=
| Reached
| PWTimeout
| WaitFailed (e : string).

(** What one URL does when rendered: the navigation response ([None]: the
    navigation succeeds without a response), the two load states, the parsed
    [window.performance.timing], the [href] of each anchor, and the
    serialized document. *)
Record page_script : Type := PageScript {
  goto_response : result (option Z);
  on_load : wait_outcome;
  on_networkidle : wait_outcome;
  timing : result (gmap string Z);
  anchors : result (list string);
  html : result string }.

Record web : Type := Web {
  status_of : string → result Z;
  page_of : string → page_script }.

(** ** The Python runtime *)

Record ParseResult : Type := Parsed { scheme : string; netloc : string }.

(** [urllib.parse.urlparse] (the two components the crawler reads) and the
    iteration order of [set(...)], which the language leaves open: each
    element once, in some order. *)
Class Python : Type := {
  urlparse : string → ParseResult;
  set_iter : list string → list string;
  set_iter_NoDup : ∀ l, NoDup (set_iter l);
  set_iter_elem : ∀ l x, x ∈ set_iter l ↔ x ∈ l }.

(** ** State and effects of one worker *)

Record state : Type := State {
  db : store;
  staged : list write;
  trace : list event;
  clock : Z }.

Definition M (A : Type) : Type := state → result A * state.

#[global] Instance M_ret : MRet M := λ A a s, (Ok a, s).
#[global] Instance M_bind : MBind M := λ A B f m s,
  match m s with
  | (Ok a, s') => f a s'
  | (Raise e, s') => (Raise e, s')
  end.

Definition raise {A : Type} (e : string) : M A := λ s, (Raise e, s).

(** [try: m except Exception as e: h e] *)
Definition try_except {A : Type} (m : M A) (h : string → M A) : M A := λ s,
  match m s with
  | (Raise e, s') => h e s'
  | r => r
  end.

(** [try: m finally: f] *)
Definition try_finally {A : Type} (m : M A) (f : M unit) : M A := λ s,
  let '(r, s') := m s in
  match f s' with
  | (Ok _, s'') => (r, s'')
  | (Raise e, s'') => (Raise e, s'')
  end.

Definition emit (e : event) : M unit := λ s,
  (Ok (), State (db s) (staged s) (trace s ++ [e]) (clock s)).

(** [datetime.now(timezone.utc)]: reads the clock, which then moves on. *)
Definition now : M Z := λ s,
  (Ok (clock s), State (db s) (staged s) (trace s) (clock s + 1)).

Definition of_result {A : Type} (r : result A) : M A := λ s, (r, s).

(** *** Session operations *)

Definition stage (w : write) : M unit := λ s,
  (Ok (), State (db s) (staged s ++ [w]) (trace s) (clock s)).

(** [session.add(snap); await session.flush()]: the row is sent inside the
    open transaction and receives its id; the counter is not transactional. *)
Definition add_and_flush (snap : Snapshot.t) : M Z := λ s,
  let σ := db s in
  let i := next_snapshot_id σ in
  (Ok i,
   State (Store (urls σ) (snapshots σ) (links σ)
                (next_url_id σ) (i + 1) (next_link_id σ))
         (staged s ++ [AddSnapshot true (Snapshot.with_id i snap)])
         (trace s) (clock s)).

(** [await session.commit()]: all staged writes, or none and the error. *)
Definition commit : M unit := λ s,
  match apply_writes (staged s) (db s) with
  | Ok σ' => (Ok (), State σ' [] (trace s) (clock s))
  | Raise e => (Raise e, s)
  end.

(** [await session.rollback()] *)
Definition rollback : M unit := λ s,
  (Ok (), State (db s) [] (trace s) (clock s)).

(** [await session.scalar(sa.select(URL).filter_by(url=href))] *)
Definition lookup_url (href : string) (rows : list URL.t) : option URL.t :=
  List.find (λ r, bool_decide (URL.url r = href)) rows.

Definition scalar_url (href : string) : M (option URL.t) := λ s,
  (Ok (lookup_url href (urls (db s))), s).

(** [select(URL).where(status=='pending').order_by(id)
     .with_for_update(skip_locked=True).limit(1)]: the pending row of lowest
    id among those no other transaction has locked. *)
Definition claimable (locked : list Z) (r : URL.t) : bool :=
  bool_decide (URL.status r = pending) && bool_decide (URL.id r ∉ locked).

Definition lower (r : URL.t) (acc : option URL.t) : option URL.t :=
  match acc with
  | None => Some r
  | Some m => if bool_decide (URL.id r ≤ URL.id m) then Some r else Some m
  end.

Definition select_pending (locked : list Z) (rows : list URL.t) : option URL.t :=
  foldr lower None (List.filter (claimable locked) rows).

(** The id the counter of [urls] gave last: what [new_url.id] reads after
    the insert. *)
Definition last_url_id : M Z := λ s, (Ok (next_url_id (db s) - 1), s).

Definition select_for_update (locked : list Z) : M (option URL.t) := λ s,
  (Ok (select_pending locked (urls (db s))), s).

(** ** The crawler ([crawler.py], [crawl] and its [worker]) *)

(** What the page gave before link discovery starts (lines 113-125). *)
Record rendered : Type := Rendered {
  r_status_code : option Z;
  r_ttfb : Z;
  r_domc : Z;
  r_loade : Z;
  r_hrefs : list string }.

(** [perf.get(key, default)] *)
Definition perf_get (perf : gmap string Z) (key : string) (default_ : Z) : Z :=
  default default_ (perf !! key).

(** ** Several workers over one store

    Where a worker stands between two accesses to the shared store.  Every
    other statement of [worker] touches only what the worker owns. *)
Inductive pc : Type :=
| AtLoop
    (* line 66: about to select *)
| Locked (url_obj : URL.t)
    (* lines 68-83: the row is selected FOR UPDATE, its claim not yet committed *)
| Claimed (url_obj : URL.t)
    (* line 86: the claim is committed *)
| Discovering (url_obj : URL.t) (r : rendered) (todo : list string)
    (new_links : list (Z * Z))
    (* line 127: at the head of the loop over the links still to visit *)
| Inserting (url_obj : URL.t) (r : rendered) (href : string) (todo : list string)
    (new_links : list (Z * Z))
    (* line 132: the lookup found no row, the insert is not yet committed *)
| Returned
    (* line 77 *)
| Crashed (e : string).
    (* an exception left [worker] *)

(** The store and the log shared by all workers, where each worker stands,
    and the rows handed out by the select so far, with the worker that got
    each. *)
Record pool : Type := Pool {
  shared : state;
  workers : list pc;
  claims : list (nat * Z) }.

(** The row a worker is working on. *)
Definition held (p : pc) : option URL.t :=
  match p with
  | Locked u | Claimed u | Discovering u _ _ _ | Inserting u _ _ _ _ => Some u
  | AtLoop | Returned | Crashed _ => None
  end.

(** Rows that the open transaction of some worker has locked. *)
Definition locked_rows (ws : list pc) : list Z :=
  flat_map (λ p, match p with Locked u => [URL.id u] | _ => [] end) ws.

Section Crawler.
Context `{!Python} (W : web).
Context (start_url : string) (mode : crawl_mode) (run_id : Z).

(** Line 49. *)
Definition base_host : string := netloc (urlparse start_url).

(** Lines 80-81 and 129-133:
    ['internal' if parsed.netloc==base_host else 'external']. *)
Definition classify (u base : string) : url_category :=
  if decide (netloc (urlparse u) = base) then internal else external.

(** Lines 52-58: seed or reset the start URL. *)
Definition seed : M unit :=
  exists_ ← scalar_url start_url;
  match exists_ with
  | Some r =>
      stage (SetStatus (URL.id r) pending);;
      stage (SetLastAttempt (URL.id r) None)
  | None => stage (AddURL start_url internal pending)
  end;;
  commit.

(** Lines 80-84: classify the selected row, mark it, commit. *)
Definition commit_claim (url_obj : URL.t) : M URL.t :=
  let cat := classify (URL.url url_obj) base_host in
  stage (SetCategory (URL.id url_obj) cat);;
  stage (SetStatus (URL.id url_obj) in_progress);;
  t ← now;
  stage (SetLastAttempt (URL.id url_obj) (Some t));;
  commit;;
  mret (URL.mk (URL.id url_obj) (URL.url url_obj) cat in_progress (Some t)).

(** *** External: status only (lines 87-108) *)

Definition request_get (u : string) (timeout : Z) : M Z :=
  emit (EvRequestGet u timeout);; of_result (status_of W u).

Definition fetch_status (url_obj : URL.t) : M unit :=
  '(status, err) ← try_except
      (st ← request_get (URL.url url_obj) 30000; mret (Some st, None))
      (λ e, mret (None, Some e));
  t ← now;
  stage (AddSnapshot false
           (Snapshot.mk 0 (URL.id url_obj) run_id mode status None None err
                        None None None t));;
  stage (SetStatus (URL.id url_obj) done);;
  commit.

(** *** Internal: full page, metrics, link graph (lines 110-181) *)

(** [await context.new_page()] and [await page.close()]: calls on the
    worker's own browser context; they do not depend on the URL and are
    taken to succeed. *)
Definition new_page : M unit := emit EvNewPage.
Definition page_close : M unit := emit EvPageClose.

Definition page_goto (u : string) (timeout : Z) : M (option Z) :=
  emit (EvGoto u timeout);; of_result (goto_response (page_of W u)).

(** [try: await page.wait_for_load_state(what, timeout=timeout)
     except PWTimeout: pass] *)
Definition wait_ignoring_timeout (what : string) (timeout : Z)
    (o : wait_outcome) : M unit :=
  emit (EvWaitForLoadState what timeout);;
  match o with
  | Reached | PWTimeout => mret ()
  | WaitFailed e => raise e
  end.

(** Lines 34-39. *)
Definition wait_for_full_load (p : page_script) (timeout : Z) : M unit :=
  wait_ignoring_timeout "load" timeout (on_load p);;
  wait_ignoring_timeout "networkidle" timeout (on_networkidle p);;
  emit (EvWaitForTimeout 250).

(** Lines 113-125. *)
Definition render (url_obj : URL.t) : M rendered :=
  let p := page_of W (URL.url url_obj) in
  resp ← page_goto (URL.url url_obj) 30000;
  let status_code := resp in
  wait_for_full_load p 15000;;
  emit EvEvaluate;;
  perf ← of_result (timing p);
  let nav := perf_get perf "navigationStart" 0 in
  let ttfb := perf_get perf "responseStart" 0 - nav in
  let domc := perf_get perf "domContentLoadedEventEnd" 0 - nav in
  let loade := perf_get perf "loadEventEnd" 0 - nav in
  emit EvEvalOnSelectorAll;;
  hrefs ← of_result (anchors p);
  mret (Rendered status_code ttfb domc loade hrefs).

(** [p.scheme in ('http','https')] *)
Definition is_http (p : ParseResult) : bool :=
  bool_decide (scheme p ∈ ["http"; "https"]).

(** Lines 133-136: [session.add(new_url); await session.commit();
    tgt_id = new_url.id]. *)
Definition add_url_and_commit (href : string) (cat : url_category) : M Z :=
  stage (AddURL href cat pending);;
  commit;;
  last_url_id.

(** Lines 128-139: the body of the loop over [set(hrefs)]. *)
Definition visit_href (url_obj : URL.t) (new_links : list (Z * Z))
    (href : string) : M (list (Z * Z)) :=
  if decide (href = URL.url url_obj) then mret new_links
  else
    let p := urlparse href in
    if is_http p then
      target ← scalar_url href;
      tgt_id ← match target with
               | None => add_url_and_commit href (classify href base_host)
               | Some t => mret (URL.id t)
               end;
      mret (new_links ++ [(URL.id url_obj, tgt_id)])
    else mret new_links.

Fixpoint for_each {A B : Type} (f : B → A → M B) (l : list A) (acc : B) : M B :=
  match l with
  | [] => mret acc
  | x :: rest => acc' ← f acc x; for_each f rest acc'
  end.

(** Lines 126-139. *)
Definition discover (url_obj : URL.t) (hrefs : list string) : M (list (Z * Z)) :=
  for_each (visit_href url_obj) (set_iter hrefs) [].

(** Lines 143-164: the snapshot, its edges and the status in one commit. *)
Definition record_snapshot (url_obj : URL.t) (r : rendered)
    (new_links : list (Z * Z)) : M unit :=
  emit EvContent;;
  content ← of_result (html (page_of W (URL.url url_obj)));
  let digest := hashlib.sha256_hexdigest content in
  t ← now;
  snap_id ← add_and_flush
    (Snapshot.mk 0 (URL.id url_obj) run_id mode (r_status_code r)
                 (Some digest) (Some content) None
                 (Some (r_ttfb r)) (Some (r_domc r)) (Some (r_loade r)) t);
  for_each (λ _ '(src, tgt), stage (AddLink src tgt snap_id)) new_links ();;
  stage (SetStatus (URL.id url_obj) done);;
  commit.

(** Lines 166-178: the handler. *)
Definition record_error (url_obj : URL.t) (e : string) : M unit :=
  rollback;;
  t ← now;
  stage (AddSnapshot false
           (Snapshot.mk 0 (URL.id url_obj) run_id mode None None None (Some e)
                        None None None t));;
  stage (SetStatus (URL.id url_obj) error);;
  commit.

(** Lines 112-164: the guarded block. *)
Definition try_body (url_obj : URL.t) : M unit :=
  r ← render url_obj;
  new_links ← discover url_obj (r_hrefs r);
  record_snapshot url_obj r new_links.

(** Lines 111-181. *)
Definition fetch_page (url_obj : URL.t) : M unit :=
  new_page;;
  try_finally (try_except (try_body url_obj) (record_error url_obj)) page_close.

(** Lines 86-181: what the worker does with a claimed row. *)
Definition process (url_obj : URL.t) : M unit :=
  if decide (URL.category url_obj = external) then fetch_status url_obj
  else fetch_page url_obj.

(** Lines 64-181: the worker loop; [fuel] bounds the number of rows one
    call may claim.  [true]: the worker found nothing to claim and returned. *)
Fixpoint worker (fuel : nat) : M bool :=
  match fuel with
  | O => mret false
  | S n =>
      row ← select_for_update [];
      match row with
      | None => mret true
      | Some url_obj =>
          claimed ← commit_claim url_obj;
          process claimed;;
          worker n
      end
  end.

(** *** The workers of [asyncio.gather], one store access per step *)

(** Outside the guarded block an exception ends the worker. *)
Definition unguarded {A : Type} (m : M A) (k : A → pc) (s : state) : pc * state :=
  match m s with
  | (Ok a, s') => (k a, s')
  | (Raise e, s') => (Crashed e, s')
  end.

(** Lines 166-181 once an exception [e] reached the handler: the handler,
    then [finally]. *)
Definition handle (url_obj : URL.t) (e : string) : M unit :=
  try_finally (record_error url_obj e) page_close.

(** Runs [m] inside the guarded block: on an exception the handler runs and
    the worker is back at the head of its loop. *)
Definition guarded {A : Type} (url_obj : URL.t) (m : M A) (k : A → pc)
    (s : state) : pc * state :=
  match m s with
  | (Ok a, s') => (k a, s')
  | (Raise e, s') => unguarded (handle url_obj e) (λ _, AtLoop) s'
  end.

Definition step_worker (locked : list Z) (p : pc) : state → pc * state :=
  match p with
  | AtLoop =>
      unguarded (select_for_update locked)
        (λ row, match row with Some url_obj => Locked url_obj | None => Returned end)
  | Locked url_obj =>
      unguarded (commit_claim url_obj) Claimed
  | Claimed url_obj =>
      if decide (URL.category url_obj = external)
      then unguarded (fetch_status url_obj) (λ _, AtLoop)
      else λ s,
        match new_page s with
        | (Ok _, s') =>
            guarded url_obj (render url_obj)
              (λ r, Discovering url_obj r (set_iter (r_hrefs r)) []) s'
        | (Raise e, s') => (Crashed e, s')
        end
  | Discovering url_obj r [] new_links =>
      unguarded
        (try_finally
           (try_except (record_snapshot url_obj r new_links)
                       (record_error url_obj))
           page_close)
        (λ _, AtLoop)
  | Discovering url_obj r (href :: todo) new_links =>
      if decide (href = URL.url url_obj)
      then λ s, (Discovering url_obj r todo new_links, s)
      else if is_http (urlparse href)
      then guarded url_obj (scalar_url href)
        (λ target, match target with
                   | Some t =>
                       Discovering url_obj r todo
                         (new_links ++ [(URL.id url_obj, URL.id t)])
                   | None => Inserting url_obj r href todo new_links
                   end)
      else λ s, (Discovering url_obj r todo new_links, s)
  | Inserting url_obj r href todo new_links =>
      guarded url_obj (add_url_and_commit href (classify href base_host))
        (λ tgt_id,
           Discovering url_obj r todo (new_links ++ [(URL.id url_obj, tgt_id)]))
  | Returned => λ s, (Returned, s)
  | Crashed e => λ s, (Crashed e, s)
  end.

(** Worker [i] takes its next step. *)
Definition step (g : pool) (i : nat) : pool :=
  match workers g !! i with
  | None => g
  | Some p =>
      let '(p', s') := step_worker (locked_rows (workers g)) p (shared g) in
      Pool s' (<[i := p']> (workers g))
           (match p, p' with
            | AtLoop, Locked url_obj => claims g ++ [(i, URL.id url_obj)]
            | _, _ => claims g
            end)
  end.

(** A schedule names the worker that moves at each step. *)
Definition run_schedule (sched : list nat) (g : pool) : pool :=
  foldl step g sched.

(** Line 183: [concurrency] workers, each at the head of its loop. *)
Definition start_pool (concurrency : nat) (σ : store) : pool :=
  Pool (State σ [] [] 0) (replicate concurrency AtLoop) [].

End Crawler.

(** ** A runtime for the examples

    [py_urlparse] follows [urllib.parse.urlsplit] for the scheme and the
    network location of an ASCII URL without blanks or brackets; [set(...)]
    iterates in order of first occurrence. *)

Definition is_alpha (c : ascii) : bool :=
  let n := N_of_ascii c in
  ((65 <=? n) && (n <=? 90) || (97 <=? n) && (n <=? 122))%N.

Definition is_scheme_char (c : ascii) : bool :=
  let n := N_of_ascii c in
  (is_alpha c || (48 <=? n) && (n <=? 57) || (n =? 43) || (n =? 45) || (n =? 46))%N.

Definition ascii_lower (c : ascii) : ascii :=
  let n := N_of_ascii c in
  if ((65 <=? n) && (n <=? 90))%N then ascii_of_N (n + 32) else c.

Fixpoint break_at (stop : ascii → bool) (s : string) : string * option string :=
  match s with
  | EmptyString => (EmptyString, None)
  | String c rest =>
      if stop c then (EmptyString, Some rest)
      else let '(a, b) := break_at stop rest in (String c a, b)
  end.

Fixpoint string_forallb (f : ascii → bool) (s : string) : bool :=
  match s with
  | EmptyString => true
  | String c rest => f c && string_forallb f rest
  end.

Fixpoint string_map (f : ascii → ascii) (s : string) : string :=
  match s with
  | EmptyString => EmptyString
  | String c rest => String (f c) (string_map f rest)
  end.

Definition py_urlparse (u : string) : ParseResult :=
  let '(sch, rest) :=
    match break_at (λ c, bool_decide (c = ":"%char)) u with
    | (String c0 pre, Some post) =>
        if is_alpha c0 && string_forallb is_scheme_char pre
        then (string_map ascii_lower (String c0 pre), post)
        else (EmptyString, u)
    | _ => (EmptyString, u)
    end in
  match rest with
  | String "/" (String "/" after) =>
      Parsed sch (fst (break_at (λ c, bool_decide (c ∈ ["/"; "?"; "#"]%char)) after))
  | _ => Parsed sch EmptyString
  end.

#[global] Instance py : Python := {|
  urlparse := py_urlparse;
  set_iter := remove_dups;
  set_iter_NoDup := NoDup_remove_dups;
  set_iter_elem := λ l x, elem_of_remove_dups l x |}.

(** * Notions used in the statements *)

Definition is_hex (c : ascii) : bool := bool_decide (c ∈ hashlib.hex_alphabet).

Definition set_db (σ : store) (s : state) : state :=
  State σ (staged s) (trace s) (clock s).

Definition add_trace (tr : list event) (s : state) : state :=
  State (db s) (staged s) (trace s ++ tr) (clock s).

(** Rows appended to [urls], the counter moved past them. *)
Definition add_rows (rows : list URL.t) (σ : store) : store :=
  Store (urls σ ++ rows) (snapshots σ) (links σ)
        (next_url_id σ + Z.of_nat (length rows))
        (next_snapshot_id σ) (next_link_id σ).

(** The [links] rows of one snapshot, numbered from [first]. *)
Fixpoint link_rows (first snap : Z) (edges : list (Z * Z)) : list Link.t :=
  match edges with
  | [] => []
  | (src, tgt) :: rest => Link.mk first src tgt snap :: link_rows (first + 1) snap rest
  end.

Definition add_link (snap : Z) (e : Z * Z) : write := AddLink e.1 e.2 snap.

(** [status, err] of lines 89-95. *)
Definition status_fields (r : result Z) : option Z * option string :=
  match r with
  | Ok st => (Some st, None)
  | Raise e => (None, Some e)
  end.

(** The row of lines 96-103. *)
Definition status_snapshot (mode : crawl_mode) (run_id : Z) (u : URL.t)
    (r : result Z) (s : state) : Snapshot.t :=
  Snapshot.mk (next_snapshot_id (db s)) (URL.id u) run_id mode
    (status_fields r).1 None None (status_fields r).2 None None None (clock s).

(** The row of lines 145-156. *)
Definition page_snapshot (mode : crawl_mode) (run_id : Z) (u : URL.t)
    (r : rendered) (c : string) (s : state) : Snapshot.t :=
  Snapshot.mk (next_snapshot_id (db s)) (URL.id u) run_id mode (r_status_code r)
    (Some (hashlib.sha256_hexdigest c)) (Some c) None
    (Some (r_ttfb r)) (Some (r_domc r)) (Some (r_loade r)) (clock s).

(** The row of lines 168-175. *)
Definition error_snapshot (mode : crawl_mode) (run_id : Z) (u : URL.t)
    (e : string) (s : state) : Snapshot.t :=
  Snapshot.mk (next_snapshot_id (db s)) (URL.id u) run_id mode
    None None None (Some e) None None None (clock s).

(** The three rows a worker writes to [snapshots]. *)
Inductive snapshot_row (mode : crawl_mode) (run_id : Z) : Snapshot.t → Prop :=
| row_status u r s : snapshot_row mode run_id (status_snapshot mode run_id u r s)
| row_page u r c s : snapshot_row mode run_id (page_snapshot mode run_id u r c s)
| row_error u e s : snapshot_row mode run_id (error_snapshot mode run_id u e s).

(** A finished attempt: the row of [u] takes status [st], snapshot [snap]
    and the edges [ls] are added, the clock was read once. *)
Definition finish (u : URL.t) (st : url_status) (snap : Snapshot.t)
    (ls : list Link.t) (s : state) : state :=
  let σ := db s in
  State (Store (update_url (URL.id u) (URL.with_status st) (urls σ))
               (snapshots σ ++ [snap]) (links σ ++ ls)
               (next_url_id σ) (next_snapshot_id σ + 1)
               (next_link_id σ + Z.of_nat (length ls)))
        [] (trace s) (clock s + 1).

(** The value of [render]: the first failure in program order, else what the
    page gave. *)
Definition rendering (p : page_script) : result rendered :=
  match goto_response p with
  | Raise e => Raise e
  | Ok resp =>
    match on_load p with
    | WaitFailed e => Raise e
    | _ =>
      match on_networkidle p with
      | WaitFailed e => Raise e
      | _ =>
        match timing p with
        | Raise e => Raise e
        | Ok perf =>
          match anchors p with
          | Raise e => Raise e
          | Ok hrefs =>
              let nav := perf_get perf "navigationStart" 0 in
              Ok (Rendered resp
                    (perf_get perf "responseStart" 0 - nav)
                    (perf_get perf "domContentLoadedEventEnd" 0 - nav)
                    (perf_get perf "loadEventEnd" 0 - nav)
                    hrefs)
          end
        end
      end
    end
  end.

Definition page_event (e : event) : Prop := e ≠ EvNewPage ∧ e ≠ EvPageClose.

(** What one link of the page became: an edge from the current row to the
    row that holds the link in the store. *)
Definition edge_of (u : URL.t) (rows : list URL.t) (h : string) (e : Z * Z) : Prop :=
  ∃ t, lookup_url h rows = Some t ∧ e = (URL.id u, URL.id t).

Definition fmap_result {A B : Type} (f : A → B) (r : result A) : result B :=
  match r with
  | Ok a => Ok (f a)
  | Raise e => Raise e
  end.

(** The failure of an attempt on a page, if any: that of [render], else that
    of [page.content()]. *)
Definition attempt_error (p : page_script) : option string :=
  match rendering p with
  | Raise e => Some e
  | Ok _ => match html p with Raise e => Some e | Ok _ => None end
  end.

Section Notions.
Context `{!Python} (W : web).
Context (start_url : string) (mode : crawl_mode) (run_id : Z).

(** The links of a page that the loop of lines 127-139 keeps. *)
Definition keeps (u : URL.t) (h : string) : bool :=
  bool_decide (h ≠ URL.url u) && is_http (urlparse h).

(** The row that line 134 builds. *)
Definition new_row (σ : store) (h : string) : URL.t :=
  URL.mk (next_url_id σ) h (classify h (base_host start_url)) pending None.

(** A row that link discovery added to the store [σ] from the links [hs]. *)
Definition discovered (u : URL.t) (hs : list string) (σ : store) (r : URL.t) : Prop :=
  URL.status r = pending ∧ URL.last_attempt r = None ∧
  URL.category r = classify (URL.url r) (base_host start_url) ∧
  (URL.url r ∈ List.filter (keeps u) hs) ∧
  (URL.url r ∉ map URL.url (urls σ)) ∧
  next_url_id σ ≤ URL.id r.

(** The state a finished attempt on a page leaves: [s1] is the state when
    the guarded block ended. *)
Definition page_attempt (u : URL.t) (edges : list (Z * Z)) (s s1 : state) : state :=
  match rendering (page_of W (URL.url u)) with
  | Raise e => finish u error (error_snapshot mode run_id u e s1) [] s1
  | Ok r =>
      match html (page_of W (URL.url u)) with
      | Raise e => finish u error (error_snapshot mode run_id u e s1) [] s1
      | Ok c =>
          finish u done (page_snapshot mode run_id u r c s1)
            (link_rows (next_link_id (db s)) (next_snapshot_id (db s)) edges) s1
      end
  end.

(** The snapshot rows that [process] writes for the claimed row [u] from the
    state [s]. *)
Inductive written (u : URL.t) (s : state) : Snapshot.t → Prop :=
| written_status :
    URL.category u = external →
    written u s (status_snapshot mode run_id u (status_of W (URL.url u)) s)
| written_page r c :
    URL.category u ≠ external →
    rendering (page_of W (URL.url u)) = Ok r →
    html (page_of W (URL.url u)) = Ok c →
    written u s (page_snapshot mode run_id u r c s)
| written_error e :
    URL.category u ≠ external →
    attempt_error (page_of W (URL.url u)) = Some e →
    written u s (error_snapshot mode run_id u e s).

(** The failure of the attempt on the claimed row [u], if any. *)
Definition failure (u : URL.t) : option string :=
  if decide (URL.category u = external)
  then match status_of W (URL.url u) with Raise e => Some e | Ok _ => None end
  else attempt_error (page_of W (URL.url u)).

(** [n] steps of one worker while no other worker moves. *)
Fixpoint steps (n : nat) (p : pc) (s : state) : pc * state :=
  match n with
  | O => (p, s)
  | S k =>
      let '(p', s') := step_worker W start_url mode run_id [] p s in
      steps k p' s'
  end.

End Notions.

(** Not both a status code and an error message. *)
Definition at_most_one_set (snap : Snapshot.t) : Prop :=
  ¬ (is_Some (Snapshot.status_code snap) ∧ is_Some (Snapshot.error_message snap)).

(** Exactly one of: a status code and no error message; an error message and
    no status code. *)
Definition status_xor_error (snap : Snapshot.t) : Prop :=
  (is_Some (Snapshot.status_code snap) ∧ Snapshot.error_message snap = None) ∨
  (Snapshot.status_code snap = None ∧ is_Some (Snapshot.error_message snap)).

(** The hash of a snapshot is the SHA-256 hex digest of its content, and
    there is a hash only where there is content. *)
Definition fingerprinted (snap : Snapshot.t) : Prop :=
  match Snapshot.content snap with
  | Some c => Snapshot.content_hash snap = Some (hashlib.sha256_hexdigest c)
  | None => Snapshot.content_hash snap = None
  end.

(** The worker is past its claim and not yet back at the loop head. *)
Definition working (p : pc) : Prop :=
  match p with
  | Claimed _ | Discovering _ _ _ _ | Inserting _ _ _ _ _ => True
  | AtLoop | Locked _ | Returned | Crashed _ => False
  end.

Definition halted (p : pc) : Prop :=
  match p with
  | Returned | Crashed _ => True
  | _ => False
  end.

(** What a step of one worker does to the rows of [urls] and to their
    counter, by the place the worker moves from and to. *)
Inductive effect (locked : list Z) (rows : list URL.t) (next : Z) :
    pc → pc → list URL.t → Z → Prop :=
| eff_select u :
    select_pending locked rows = Some u →
    effect locked rows next AtLoop (Locked u) rows next
| eff_return :
    select_pending locked rows = None →
    effect locked rows next AtLoop Returned rows next
| eff_claim u u' f :
    URL.id u' = URL.id u →
    (∀ r, URL.id (f r) = URL.id r ∧ URL.url (f r) = URL.url r ∧
          URL.status (f r) = in_progress) →
    effect locked rows next (Locked u) (Claimed u') (update_url (URL.id u) f rows) next
| eff_finish p u st :
    held p = Some u → working p → st ≠ pending →
    effect locked rows next p AtLoop
      (update_url (URL.id u) (URL.with_status st) rows) next
| eff_local p p' u :
    held p = Some u → held p' = Some u → working p → working p' →
    effect locked rows next p p' rows next
| eff_insert u r h todo edges c :
    h ∉ map URL.url rows →
    effect locked rows next
      (Inserting u r h todo edges)
      (Discovering u r todo (edges ++ [(URL.id u, next)]))
      (rows ++ [URL.mk next h c pending None]) (next + 1)
| eff_halt p :
    halted p →
    effect locked rows next p p rows next.

Definition frontier (g : pool) : list URL.t := urls (db (shared g)).
Definition url_counter (g : pool) : Z := next_url_id (db (shared g)).

(** What holds of the pool after any number of steps; [rows0] are the rows
    the run started from. *)
Record pool_inv (rows0 : list URL.t) (g : pool) : Prop := PoolInv {
  inv_staged : staged (shared g) = [];
  inv_fresh : ∀ r, r ∈ frontier g → URL.id r < url_counter g;
  inv_held_fresh : ∀ i p u,
    workers g !! i = Some p → held p = Some u → URL.id u < url_counter g;
  inv_working : ∀ i p u,
    workers g !! i = Some p → held p = Some u → working p →
    ∀ r, r ∈ frontier g → URL.id r = URL.id u → URL.status r = in_progress;
  inv_distinct : ∀ i j p q u v,
    i ≠ j → workers g !! i = Some p → workers g !! j = Some q →
    held p = Some u → held q = Some v → URL.id u ≠ URL.id v;
  inv_claims_nodup : NoDup (map snd (claims g));
  inv_claims_fresh : ∀ k, k ∈ map snd (claims g) → k < url_counter g;
  inv_claims_status : ∀ k, k ∈ map snd (claims g) →
    k ∈ locked_rows (workers g) ∨
    ∀ r, r ∈ frontier g → URL.id r = k → URL.status r ≠ pending;
  inv_held_claimed : ∀ i p u,
    workers g !! i = Some p → held p = Some u → (i, URL.id u) ∈ claims g;
  inv_covered : ∀ r, r ∈ frontier g →
    URL.status r = pending ∨ URL.id r ∈ map snd (claims g) ∨
    ∃ r0, r0 ∈ rows0 ∧ URL.id r0 = URL.id r ∧ URL.status r0 ≠ pending;
  inv_kept : ∀ r0, r0 ∈ rows0 →
    ∃ r, r ∈ frontier g ∧ URL.id r = URL.id r0 ∧ URL.url r = URL.url r0;
  inv_live : workers g ≠ [] →
    (∃ r, r ∈ frontier g ∧ URL.status r = pending) →
    ∃ i p, workers g !! i = Some p ∧ p ≠ Returned;
  inv_no_crash : ∀ i p e, workers g !! i = Some p → p ≠ Crashed e;
  inv_unique : NoDup (map URL.url rows0) → NoDup (map URL.url (frontier g)) }.

(** The new pool [g'] after worker [i] moved from [p] to [p']. *)
Definition moved (g g' : pool) (i : nat) (p' : pc) (rows' : list URL.t)
    (next' : Z) (claims' : list (nat * Z)) : Prop :=
  staged (shared g') = [] ∧ frontier g' = rows' ∧ url_counter g' = next' ∧
  workers g' = <[i:=p']> (workers g) ∧ claims g' = claims'.

(** ** A crawl run ([crawler.py], [crawl]) *)

Module CrawlRun.
Record t : Type := mk {
  id : Z;
  mode : crawl_mode;
  start_time : Z;
  end_time : option Z }.

Definition with_end_time (e : option Z) (r : t) : t :=
  mk (id r) (mode r) (start_time r) e.
End CrawlRun.

(** Lines 28-32. *)
Definition USER_AGENTS (mode : crawl_mode) : string :=
  match mode with
  | desktop => "Mozilla/5.0 (Windows NT 10.0; Win64; x64)"
  | mobile => "Mozilla/5.0 (iPhone; CPU iPhone OS 13_5 like Mac OS X)"
  | bot => "Googlebot/2.1 (+http://www.google.com/bot.html)"
  end.

(** Calls on Playwright outside the workers. *)
Inductive browser_call : Type :=
| Launch (headless : bool)
| NewContext (user_agent : string)
| BrowserClose.

(** The table [crawl_runs] with its counter, the browser, and the store,
    clock and page log that the workers share. *)
Record world : Type := World {
  crawl_runs : list CrawlRun.t;
  next_run_id : Z;
  browser : list browser_call;
  base : state }.

(** How a call of [crawl] stands when the schedule it was given is used up:
    it returned, it is still waiting for its workers, or an exception left
    it. *)
Inductive crawl_outcome : Type :=
| Finished
| Running
| Failed (e : string).

(** [async with Session() as session]: a session of its own, nothing staged. *)
Definition open_session (s : state) : state :=
  State (db s) [] (trace s) (clock s).

Definition set_base (s : state) (w : world) : world :=
  World (crawl_runs w) (next_run_id w) (browser w) s.

Definition call_browser (c : browser_call) (w : world) : world :=
  World (crawl_runs w) (next_run_id w) (browser w ++ [c]) (base w).

(** Lines 47 and 195: the message reads the clock. *)
Definition announce (w : world) : world :=
  set_base (now (base w)).2 w.

Definition is_returned (p : pc) : bool :=
  match p with Returned => true | _ => false end.

(** The exception of a worker that an exception left, if there is one. *)
Definition crashed (ws : list pc) : option string :=
  head (omap (λ p, match p with Crashed e => Some e | _ => None end) ws).

Section Crawl.
Context `{!Python} (W : web).
Context (start_url : string) (mode : crawl_mode).

(** Lines 43-46: the run row, stamped and committed; its id is read back. *)
Definition create_run (w : world) : Z * world :=
  let s := open_session (base w) in
  let run := CrawlRun.mk (next_run_id w) mode (clock s) None in
  (CrawlRun.id run,
   World (crawl_runs w ++ [run]) (next_run_id w + 1) (browser w) (now s).2).

(** Lines 188-194: [UPDATE crawl_runs SET end_time = now WHERE id = run_id]. *)
Definition finish_run (run_id : Z) (w : world) : world :=
  let s := open_session (base w) in
  World (map (λ r, if bool_decide (CrawlRun.id r = run_id)
                   then CrawlRun.with_end_time (Some (clock s)) r else r)
             (crawl_runs w))
        (next_run_id w) (browser w) (now s).2.

(** Lines 183-184: [asyncio.gather] over the worker tasks.  The workers move
    as the schedule says; the wait ends when every worker has returned, or
    with the exception of the first worker that an exception leaves.  [None]:
    the schedule is used up and some worker has not returned. *)
Fixpoint gather (run_id : Z) (sched : list nat) (g : pool)
    : option (result unit) * pool :=
  match crashed (workers g) with
  | Some e => (Some (Raise e), g)
  | None =>
      if forallb is_returned (workers g) then (Some (Ok ()), g)
      else
        match sched with
        | [] => (None, g)
        | i :: rest => gather run_id rest (step W start_url mode run_id g i)
        end
  end.

(** Lines 41-195.  [range(concurrency)] is empty when [concurrency ≤ 0]. *)
Definition crawl (concurrency : Z) (sched : list nat) (w : world)
    : crawl_outcome * world :=
  let '(run_id, w) := create_run w in
  let w := announce w in
  match seed start_url (open_session (base w)) with
  | (Raise e, s) => (Failed e, set_base s w)
  | (Ok _, s) =>
      let w := call_browser (Launch true) w in
      let w := call_browser (NewContext (USER_AGENTS mode)) w in
      let tasks := replicate (Z.to_nat concurrency) AtLoop in
      let '(r, g) := gather run_id sched (Pool (open_session s) tasks []) in
      let w := set_base (shared g) w in
      match r with
      | None => (Running, w)
      | Some (Raise e) => (Failed e, w)
      | Some (Ok _) =>
          let w := call_browser BrowserClose w in
          let w := finish_run run_id w in
          (Finished, announce w)
      end
  end.

End Crawl.

(** The primary key of [crawl_runs]. *)
Definition runs_ok (w : world) : Prop :=
  NoDup (map CrawlRun.id (crawl_runs w)) ∧
  ∀ k, k ∈ map CrawlRun.id (crawl_runs w) → k < next_run_id w.

(** [snapshots.run_id] is a foreign key to [crawl_runs]. *)
Definition snapshot_runs_ok (w : world) : Prop :=
  ∀ x, x ∈ snapshots (db (base w)) →
       Snapshot.run_id x ∈ map CrawlRun.id (crawl_runs w).

(** ** Configuration ([get_database_url], [ensure_database_exists])

    The process environment after [load_dotenv()]: [os.getenv(k)] is
    [env !! k].  Values are taken to be ASCII text. *)
Definition environ : Type := gmap string string.

(** How a call ends: it returns, [sys.exit(code)] after a message on stderr,
    or an exception leaves it. *)
Inductive ending (A : Type) : Type :=
| Returns (a : A)
| Exits (code : Z) (stderr : string)
| Raises (e : string).
Arguments Returns {A} a.
Arguments Exits {A} code stderr.
Arguments Raises {A} e.

(** Truth value of an [Optional[str]]: [None] and [''] are false. *)
Definition truthy (o : option string) : bool :=
  match o with
  | Some (String _ _) => true
  | _ => false
  end.

(** [all([...])] *)
Definition all_ (l : list (option string)) : bool := forallb truthy l.

(** [f"{x}"] *)
Definition fmt (o : option string) : string := default "None" o.

(** [str.isspace] on an ASCII character. *)
Definition isspace (c : ascii) : bool :=
  let n := N_of_ascii c in
  ((9 <=? n) && (n <=? 13) || (28 <=? n) && (n <=? 32))%N.

(** [s.lstrip(chars)] and [s.rstrip(chars)], the characters given by a test. *)
Fixpoint lstrip (f : ascii → bool) (s : string) : string :=
  match s with
  | String c rest => if f c then lstrip f rest else s
  | EmptyString => EmptyString
  end.

Fixpoint rstrip (f : ascii → bool) (s : string) : string :=
  match s with
  | String c rest =>
      match rstrip f rest with
      | EmptyString => if f c then EmptyString else String c EmptyString
      | r => String c r
      end
  | EmptyString => EmptyString
  end.

(** [s.strip()] *)
Definition strip (s : string) : string := lstrip isspace (rstrip isspace s).

Definition is_slash (c : ascii) : bool := bool_decide (c = "/"%char).

(** [s.startswith(p)] *)
Definition startswith (s p : string) : bool := String.prefix p s.

Fixpoint skip (n : nat) (s : string) : string :=
  match n, s with
  | S k, String _ rest => skip k rest
  | _, _ => s
  end.

(** [s.split(sep, 1)] for a non-empty [sep]: cut at the first occurrence. *)
Fixpoint cut (sep s : string) : option (string * string) :=
  if String.prefix sep s
  then Some (EmptyString, skip (String.length sep) s)
  else
    match s with
    | String c rest =>
        match cut sep rest with
        | Some (a, b) => Some (String c a, b)
        | None => None
        end
    | EmptyString => None
    end.

Definition split1 (sep s : string) : list string :=
  match cut sep s with
  | Some (a, b) => [a; b]
  | None => [s]
  end.

(** [db_manager.py], lines 104-106 and again 130-132:
    [host = os.getenv('DB_HOST','').strip().rstrip('/')], then the scheme of
    an [http://] or [https://] value is cut off. *)
Definition db_host (env : environ) : ending string :=
  let host := rstrip is_slash (strip (default EmptyString (env !! "DB_HOST"))) in
  if startswith host "http://" || startswith host "https://"
  then match split1 "://" host !! 1%nat with
       | Some h => Returns h
       | None => Raises "IndexError: list index out of range"
       end
  else Returns host.

(** [os.getenv('DB_PORT') or '3306'] *)
Definition db_port (env : environ) : string :=
  let port := env !! "DB_PORT" in
  if truthy port then fmt port else "3306".

Module crawler.

(** [crawler.py], lines 197-206. *)
Definition get_database_url (env : environ) : ending string :=
  let url := env !! "DATABASE_URL" in
  if truthy url then Returns (fmt url)
  else
    let user := env !! "DB_USER" in
    let pwd := env !! "DB_PASSWORD" in
    let host := env !! "DB_HOST" in
    let port := env !! "DB_PORT" in
    let db := env !! "DB_NAME" in
    if negb (all_ [user; pwd; host; port; db])
    then Exits 1 "Error: set DB_* or DATABASE_URL"
    else Returns ("mysql+asyncmy://" +:+ fmt user +:+ ":" +:+ fmt pwd +:+ "@"
                  +:+ fmt host +:+ ":" +:+ fmt port +:+ "/" +:+ fmt db).

End crawler.

Module db_manager.

Definition usage : string :=
  "Error: set DATABASE_URL or DB_USER, DB_PASSWORD, DB_HOST, DB_PORT, DB_NAME".

(** [db_manager.py], lines 98-112. *)
Definition get_database_url (env : environ) : ending string :=
  let url := env !! "DATABASE_URL" in
  if truthy url then Returns (fmt url)
  else
    let user := env !! "DB_USER" in
    let pwd := env !! "DB_PASSWORD" in
    match db_host env with
    | Returns host =>
        let port := db_port env in
        let db := env !! "DB_NAME" in
        if negb (all_ [user; pwd; Some host; db])
        then Exits 1 usage
        else Returns ("mysql+asyncmy://" +:+ fmt user +:+ ":" +:+ fmt pwd +:+ "@"
                      +:+ host +:+ ":" +:+ port +:+ "/" +:+ fmt db)
    | Exits c m => Exits c m
    | Raises e => Raises e
    end.

(** What the manager asks of the database server. *)
Inductive admin_call : Type :=
| CreateDatabase (sync_url statement : string)
| CreateAll (db_url : string)
| DropAll (db_url : string).

(** Lines 124-148; [server] is what the server answers to a call. *)
Definition ensure_database_exists (server : admin_call → result unit)
    (env : environ) : ending unit * list admin_call :=
  let raw_user := env !! "DB_USER" in
  let raw_pwd := env !! "DB_PASSWORD" in
  match db_host env with
  | Returns raw_host =>
      let raw_port := db_port env in
      let raw_db := env !! "DB_NAME" in
      if negb (all_ [raw_user; raw_pwd; Some raw_host; raw_db])
      then (Exits 1 usage, [])
      else
        let sync_url :=
          "mysql+mysqlconnector://" +:+ fmt raw_user +:+ ":" +:+ fmt raw_pwd +:+ "@"
          +:+ raw_host +:+ ":" +:+ raw_port +:+ "/" in
        let call :=
          CreateDatabase sync_url
            ("CREATE DATABASE IF NOT EXISTS `" +:+ fmt raw_db +:+ "` "
             +:+ "CHARACTER SET utf8mb4 COLLATE utf8mb4_unicode_ci") in
        match server call with
        | Ok _ => (Returns (), [call])
        | Raise e => (Raises e, [call])
        end
  | Exits c m => (Exits c m, [])
  | Raises e => (Raises e, [])
  end.

(** The two commands of the parser (lines 151-155). *)
Inductive command : Type := init | drop.

(** Lines 114-122: [init_db] and [drop_db]. *)
Definition schema_call (cmd : command) (db_url : string) : admin_call :=
  match cmd with
  | init => CreateAll db_url
  | drop => DropAll db_url
  end.

(** Lines 157-166. *)
Definition main (server : admin_call → result unit) (cmd : command)
    (env : environ) : ending unit * list admin_call :=
  let '(r, log) :=
    match cmd with
    | init => ensure_database_exists server env
    | drop => (Returns (), [])
    end in
  match r with
  | Returns _ =>
      match get_database_url env with
      | Returns db_url =>
          let call := schema_call cmd db_url in
          match server call with
          | Ok _ => (Returns (), log ++ [call])
          | Raise e => (Raises e, log ++ [call])
          end
      | Exits c m => (Exits c m, log)
      | Raises e => (Raises e, log)
      end
  | Exits c m => (Exits c m, log)
  | Raises e => (Raises e, log)
  end.

End db_manager.

(** A host value that lines 104-106 leave as it is. *)
Definition plain_host (h : string) : Prop :=
  rstrip is_slash (strip h) = h ∧
  startswith h "http://" = false ∧ startswith h "https://" = false.

Fixpoint string_last (s : string) : option ascii :=
  match s with
  | EmptyString => None
  | String c EmptyString => Some c
  | String _ rest => string_last rest
  end.

Fixpoint slashes (n : nat) : string :=
  match n with
  | O => EmptyString
  | S k => String "/" (slashes k)
  end.

(** * Further notions used in the statements *)

(** What line 55 does to a row: pending again, never attempted. *)
Definition reset_row (r : URL.t) : URL.t :=
  URL.mk (URL.id r) (URL.url r) (URL.category r) pending None.

(** Two outcomes of a bounded wait that [wait_for_full_load] cannot tell
    apart: a timeout is as good as the state reached. *)
Definition same_wait (o o' : wait_outcome) : Prop :=
  match o, o' with
  | WaitFailed e, WaitFailed e' => e = e'
  | WaitFailed _, _ | _, WaitFailed _ => False
  | _, _ => True
  end.

(** Two webs that differ at most in which waits time out. *)
Definition same_but_timeouts (W W' : web) : Prop :=
  ∀ u,
    status_of W u = status_of W' u ∧
    goto_response (page_of W u) = goto_response (page_of W' u) ∧
    same_wait (on_load (page_of W u)) (on_load (page_of W' u)) ∧
    same_wait (on_networkidle (page_of W u)) (on_networkidle (page_of W' u)) ∧
    timing (page_of W u) = timing (page_of W' u) ∧
    anchors (page_of W u) = anchors (page_of W' u) ∧
    html (page_of W u) = html (page_of W' u).

(** The store after a finished attempt on the row [u]. *)
Definition finished (u : URL.t) (st : url_status) (snap : Snapshot.t)
    (ls : list Link.t) (σ : store) : store :=
  Store (update_url (URL.id u) (URL.with_status st) (urls σ))
        (snapshots σ ++ [snap]) (links σ ++ ls)
        (next_url_id σ) (next_snapshot_id σ + 1)
        (next_link_id σ + Z.of_nat (length ls)).

Section Delta.
Context `{!Python} (W : web).
Context (start_url : string) (mode : crawl_mode) (run_id : Z).

(** What a step of one worker does to the whole store, by the place the
    worker moves from and to. *)
Inductive delta (locked : list Z) (σ : store) : pc → pc → store → Prop :=
| d_select u :
    select_pending locked (urls σ) = Some u →
    delta locked σ AtLoop (Locked u) σ
| d_return :
    select_pending locked (urls σ) = None →
    delta locked σ AtLoop Returned σ
| d_claim u t :
    let cat := classify (URL.url u) (base_host start_url) in
    delta locked σ (Locked u)
      (Claimed (URL.mk (URL.id u) (URL.url u) cat in_progress (Some t)))
      (set_urls
         (update_url (URL.id u)
            (λ r, URL.mk (URL.id r) (URL.url r) cat in_progress (Some t))
            (urls σ)) σ)
| d_render u r :
    URL.category u ≠ external →
    rendering (page_of W (URL.url u)) = Ok r →
    delta locked σ (Claimed u) (Discovering u r (set_iter (r_hrefs r)) []) σ
| d_skip u r h todo edges :
    keeps u h = false →
    delta locked σ (Discovering u r (h :: todo) edges)
      (Discovering u r todo edges) σ
| d_found u r h todo edges t :
    keeps u h = true →
    lookup_url h (urls σ) = Some t →
    delta locked σ (Discovering u r (h :: todo) edges)
      (Discovering u r todo (edges ++ [(URL.id u, URL.id t)])) σ
| d_missing u r h todo edges :
    keeps u h = true →
    lookup_url h (urls σ) = None →
    delta locked σ (Discovering u r (h :: todo) edges)
      (Inserting u r h todo edges) σ
| d_insert u r h todo edges :
    h ∉ map URL.url (urls σ) →
    delta locked σ (Inserting u r h todo edges)
      (Discovering u r todo (edges ++ [(URL.id u, next_url_id σ)]))
      (add_rows [new_row start_url σ h] σ)
| d_status u snap :
    URL.category u = external →
    snapshot_row mode run_id snap →
    Snapshot.id snap = next_snapshot_id σ →
    Snapshot.url_id snap = URL.id u →
    delta locked σ (Claimed u) AtLoop (finished u done snap [] σ)
| d_page u r edges snap :
    snapshot_row mode run_id snap →
    Snapshot.id snap = next_snapshot_id σ →
    Snapshot.url_id snap = URL.id u →
    is_Some (Snapshot.content snap) ∧ Snapshot.error_message snap = None →
    delta locked σ (Discovering u r [] edges) AtLoop
      (finished u done snap
         (link_rows (next_link_id σ) (next_snapshot_id σ) edges) σ)
| d_error p u snap :
    held p = Some u → working p →
    snapshot_row mode run_id snap →
    Snapshot.id snap = next_snapshot_id σ →
    Snapshot.url_id snap = URL.id u →
    is_Some (Snapshot.error_message snap) →
    delta locked σ p AtLoop (finished u error snap [] σ)
| d_halt p :
    halted p →
    delta locked σ p p σ.

End Delta.

(** The edges a worker has collected for the page it is on. *)
Definition edges_of (p : pc) : list (Z * Z) :=
  match p with
  | Discovering _ _ _ new_links | Inserting _ _ _ _ new_links => new_links
  | _ => []
  end.

(** The keys of the schema of [db_manager.py]: each [id] column is a primary
    key fed by its counter, [snapshots.url_id] and the three columns of
    [links] are foreign keys. *)
Record keys_ok (σ : store) : Prop := KeysOk {
  url_pk : NoDup (map URL.id (urls σ));
  url_fresh : ∀ k, k ∈ map URL.id (urls σ) → k < next_url_id σ;
  snapshot_pk : NoDup (map Snapshot.id (snapshots σ));
  snapshot_fresh : ∀ k, k ∈ map Snapshot.id (snapshots σ) → k < next_snapshot_id σ;
  link_pk : NoDup (map Link.id (links σ));
  link_fresh : ∀ k, k ∈ map Link.id (links σ) → k < next_link_id σ;
  snapshot_url_fk : ∀ x, x ∈ snapshots σ →
    Snapshot.url_id x ∈ map URL.id (urls σ);
  link_source_fk : ∀ l, l ∈ links σ → Link.source_id l ∈ map URL.id (urls σ);
  link_target_fk : ∀ l, l ∈ links σ → Link.target_id l ∈ map URL.id (urls σ);
  link_snapshot_fk : ∀ l, l ∈ links σ →
    Link.snapshot_id l ∈ map Snapshot.id (snapshots σ) }.

(** The link graph as the crawler builds it: an edge leaves the page its
    snapshot is of, hangs off a snapshot that holds a page, and joins two
    different rows. *)
Record graph_ok (σ : store) : Prop := GraphOk {
  link_of_page : ∀ l, l ∈ links σ →
    ∃ x, x ∈ snapshots σ ∧ Snapshot.id x = Link.snapshot_id l ∧
         Snapshot.url_id x = Link.source_id l ∧
         is_Some (Snapshot.content x) ∧ Snapshot.error_message x = None;
  link_no_loop : ∀ l, l ∈ links σ → Link.source_id l ≠ Link.target_id l }.

(** The row a worker holds is a row of the store, and the edges it has
    collected leave that row for other rows of the store. *)
Definition pc_ok (σ : store) (p : pc) : Prop :=
  ∀ u, held p = Some u →
    (∃ r, r ∈ urls σ ∧ URL.id r = URL.id u ∧ URL.url r = URL.url u) ∧
    ∀ e, e ∈ edges_of p →
      e.1 = URL.id u ∧ e.2 ∈ map URL.id (urls σ) ∧ e.2 ≠ URL.id u.

Record pool_ok (g : pool) : Prop := PoolOk {
  ok_staged : staged (shared g) = [];
  ok_keys : keys_ok (db (shared g));
  ok_pcs : ∀ i p, workers g !! i = Some p → pc_ok (db (shared g)) p }.

(** What a row is known by: its id and its URL. *)
Definition row_key (r : URL.t) : Z * string := (URL.id r, URL.url r).

(** [σ'] holds everything [σ] holds, in the same order: no row of [urls] was
    deleted, moved or renamed, [snapshots] and [links] only grew at the end,
    and no counter went back. *)
Record extends (σ σ' : store) : Prop := Extends {
  ext_urls : map row_key (urls σ) `prefix_of` map row_key (urls σ');
  ext_snapshots : snapshots σ `prefix_of` snapshots σ';
  ext_links : links σ `prefix_of` links σ';
  ext_next_url : next_url_id σ ≤ next_url_id σ';
  ext_next_snapshot : next_snapshot_id σ ≤ next_snapshot_id σ';
  ext_next_link : next_link_id σ ≤ next_link_id σ' }.

(** The snapshots of [σ'] that [σ] does not hold belong to the run. *)
Definition tagged (mode : crawl_mode) (run_id : Z) (σ σ' : store) : Prop :=
  ∃ new, snapshots σ' = snapshots σ ++ new ∧
         Forall (λ x, Snapshot.run_id x = run_id ∧ Snapshot.mode x = mode) new.

(** No worker holds the row of id [k]. *)
Definition unheld (k : Z) (g : pool) : Prop :=
  ∀ i p u, workers g !! i = Some p → held p = Some u → URL.id u ≠ k.

(** A row that a [Locked] worker holds is [pending] in the store. *)
Definition locked_pending (g : pool) : Prop :=
  ∀ i u r, workers g !! i = Some (Locked u) →
           r ∈ frontier g → URL.id r = URL.id u → URL.status r = pending.

(** The links a worker has still to visit on the page it is on. *)
Definition todo_of (p : pc) : list string :=
  match p with
  | Discovering _ _ todo _ => todo
  | Inserting _ _ href todo _ => href :: todo
  | _ => []
  end.

(** A web whose pages link only to the URLs of [known]. *)
Definition closed_web (W : web) (known : list string) : Prop :=
  ∀ u hs, anchors (page_of W u) = Ok hs → ∀ h, h ∈ hs → h ∈ known.

Definition is_pending (r : URL.t) : bool := bool_decide (URL.status r = pending).

(** The rows still to claim, and the known URLs the store has no row for. *)
Definition pending_count (rows : list URL.t) : Z :=
  Z.of_nat (length (List.filter is_pending rows)).

Definition unseen (known : list string) (rows : list URL.t) : Z :=
  Z.of_nat (length (List.filter (λ h, bool_decide (h ∉ map URL.url rows)) known)).

Definition backlog (known : list string) (σ : store) : Z :=
  pending_count (urls σ) + unseen known (urls σ).

(** The steps a worker can take before it is back at its loop, when a page
    has at most [bound] links. *)
Definition weight (bound : Z) (p : pc) : Z :=
  match p with
  | AtLoop => 2
  | Locked _ => 1
  | Claimed _ => 2 * bound + 5
  | Discovering _ _ todo _ => 2 * Z.of_nat (length todo) + 3
  | Inserting _ _ _ todo _ => 2 * Z.of_nat (length todo) + 4
  | Returned | Crashed _ => 0
  end.

Definition weights (bound : Z) (ws : list pc) : Z :=
  foldr (λ p acc, weight bound p + acc) 0 ws.

(** A bound on the steps the pool can still take. *)
Definition potential (known : list string) (g : pool) : Z :=
  let bound := Z.of_nat (length known) in
  (2 * bound + 5) * backlog known (db (shared g)) + weights bound (workers g).

Definition pc_known (known : list string) (p : pc) : Prop :=
  NoDup (todo_of p) ∧ ∀ h, h ∈ todo_of p → h ∈ known.

(** What holds of the pool under any schedule, beyond [pool_inv]. *)
Record pool_sound (rows0 : list URL.t) (g : pool) : Prop := PoolSound {
  sound_inv : pool_inv rows0 g;
  sound_ok : pool_ok g;
  sound_locked : locked_pending g }.

Definition pool_known (known : list string) (g : pool) : Prop :=
  ∀ i p, workers g !! i = Some p → pc_known known p.

(** A schedule made of rounds in each of which every one of [n] workers
    moves at least once. *)
Definition fair_rounds (n : nat) (rounds : list (list nat)) : Prop :=
  Forall (λ round, ∀ i, (i < n)%nat → i ∈ round) rounds.

(** ** Concrete webs and stores *)

Definition home : string := "http://a.test/".

Definition empty_store : store := Store [] [] [] 1 1 1.

(** The seed page: four anchors, one of them twice, one to itself, one that
    is no http link; [loadEventEnd] has not fired. *)
Definition home_page : page_script :=
  PageScript (Ok (Some 200)) Reached PWTimeout
    (Ok (list_to_map [("navigationStart", 1000); ("responseStart", 1040);
                      ("domContentLoadedEventEnd", 1300); ("loadEventEnd", 0)]))
    (Ok ["http://a.test/b"; "http://other.test/"; "mailto:x@a.test";
         "http://a.test/"; "http://a.test/b"])
    (Ok "<html></html>").

Definition demo_web : web :=
  Web (λ u, if bool_decide (u = "http://down.test/")
            then Raise "connect ECONNREFUSED" else Ok 404)
      (λ _, home_page).

(** The seed, claimed. *)
Definition home_row : URL.t := URL.mk 1 home internal in_progress (Some 0).
Definition at_home : state := State (Store [home_row] [] [] 2 1 1) [] [] 1.

(** An external row, claimed. *)
Definition other_row : URL.t :=
  URL.mk 2 "http://down.test/" external in_progress (Some 5).
Definition at_other : state :=
  State (Store [URL.mk 1 home internal done (Some 0); other_row] [] [] 3 1 1) [] [] 6.

(** A page whose navigation succeeds without a response. *)
Definition blank_web : web :=
  Web (λ _, Ok 200)
      (λ _, PageScript (Ok None) Reached Reached (Ok ∅) (Ok [])
                       (Ok "<html><head></head><body></body></html>")).

(** A page that is lost after its links were read. *)
Definition torn_web : web :=
  Web (λ _, Ok 200)
      (λ _, PageScript (Ok (Some 200)) Reached Reached (Ok ∅)
                       (Ok ["http://a.test/b"]) (Raise "Target page crashed")).

(** Two pages that link to the same new URL. *)
Definition race_web : web :=
  Web (λ _, Ok 200)
      (λ _, PageScript (Ok (Some 200)) Reached Reached (Ok ∅)
                       (Ok ["http://a.test/x"]) (Ok "<html></html>")).

Definition two_pages : store :=
  Store [URL.mk 1 home internal pending None;
         URL.mk 2 "http://a.test/b" internal pending None] [] [] 3 1 1.

Definition two_externals : store :=
  Store [URL.mk 1 "http://x.test/" external pending None;
         URL.mk 2 "http://y.test/" external pending None] [] [] 3 1 1.

Definition alternate : list nat := [0; 1; 0; 1; 0; 1; 0; 1; 0; 1]%nat.

(** The seed page with the other wait timing out. *)
Definition patient_web : web :=
  Web (status_of demo_web)
      (λ _, PageScript (goto_response home_page) PWTimeout Reached
                       (timing home_page) (anchors home_page) (html home_page)).

(** Every link of [demo_web]. *)
Definition known_links : list string :=
  ["http://a.test/b"; "http://other.test/"; "mailto:x@a.test"; "http://a.test/"].

(** No run yet, an empty store. *)
Definition fresh_world : world := World [] 1 [] (State empty_store [] [] 0).

Definition turns (n : nat) : list nat := replicate n 0%nat.

Definition full_env : environ :=
  list_to_map [("DB_USER", "crawler"); ("DB_PASSWORD", "secret");
               ("DB_HOST", "db.example.com"); ("DB_PORT", "3307");
               ("DB_NAME", "crawl")].

Definition no_port_env : environ :=
  list_to_map [("DB_USER", "crawler"); ("DB_PASSWORD", "secret");
               ("DB_HOST", "db.example.com"); ("DB_NAME", "crawl")].

Definition messy_env : environ :=
  list_to_map [("DB_USER", "crawler"); ("DB_PASSWORD", "secret");
               ("DB_HOST", "  https://db.example.com// "); ("DB_NAME", "crawl")].

Definition url_only_env : environ :=
  list_to_map [("DATABASE_URL", "mysql+asyncmy://u:p@h:3306/d")].

Definition quiet_server (c : db_manager.admin_call) : result unit := Ok ().

Definition down_server (c : db_manager.admin_call) : result unit :=
  Raise "Can't connect to MySQL server".

(** * Properties *)

Ltac run :=
  unfold mbind, M_bind, mret, M_ret, try_except, try_finally, emit, now, stage,
    of_result, raise, commit, rollback, scalar_url, last_url_id in *;
  simpl in *.

Ltac close_render :=
  eexists; split;
  [ rewrite <- ?app_assoc; reflexivity
  | repeat constructor; done ].

(** ** The runtime of the examples and the digest on known inputs *)

Example urlparse_http :
  py_urlparse "http://a.test/b?x=1" = Parsed "http" "a.test".
Proof. reflexivity. Qed.

Example urlparse_port :
  py_urlparse "HTTPS://a.test:8080" = Parsed "https" "a.test:8080".
Proof. reflexivity. Qed.

Example urlparse_mailto :
  py_urlparse "mailto:me@a.test" = Parsed "mailto" EmptyString.
Proof. reflexivity. Qed.

Example urlparse_blank :
  py_urlparse "about:blank" = Parsed "about" EmptyString.
Proof. reflexivity. Qed.

Example sha256_empty :
  hashlib.sha256_hexdigest EmptyString =
  "e3b0c44298fc1c149afbf4c8996fb92427ae41e4649b934ca495991b7852b855".
Proof. vm_compute. reflexivity. Qed.

Example sha256_abc :
  hashlib.sha256_hexdigest "abc" =
  "ba7816bf8f01cfea414140de5dae2223b00361a396177a9cb410ff61f20015ad".
Proof. vm_compute. reflexivity. Qed.

Example sha256_two_blocks :
  hashlib.sha256_hexdigest
    "aaaaaaaaaaaaaaaaaaaaaaaaaaaaaaaaaaaaaaaaaaaaaaaaaaaaaaaaaaaaaaaaaaaaaa" =
  "6bd5e5034855a11241f0dee8fc72850ffd9955b28347a86428b5fa19119f6ad0".
Proof. vm_compute. reflexivity. Qed.

(** ** The fingerprint *)

Lemma hex_digit_is_hex (x : Z) : is_hex (hashlib.hex_digit x) = true.
Proof.
  unfold hashlib.hex_digit.
  assert (Hlt : (Z.to_nat (x mod 16) < 16)%nat).
  { pose proof (Z.mod_pos_bound x 16). lia. }
  generalize dependent (Z.to_nat (x mod 16)). intros n Hlt.
  do 16 (destruct n as [|n]; [reflexivity|]). lia.
Qed.

Lemma hexdigest_length (r : hashlib.regs) :
  String.length (hashlib.hexdigest r) = 64%nat.
Proof. reflexivity. Qed.

Lemma hexdigest_hex (r : hashlib.regs) :
  string_forallb is_hex (hashlib.hexdigest r) = true.
Proof.
  unfold hashlib.hexdigest, hashlib.hex8. cbn [string_forallb].
  rewrite !hex_digit_is_hex. reflexivity.
Qed.

(** ** The classifier *)


(** ** The store and the session *)

Lemma add_rows_nil σ : add_rows [] σ = σ.
Proof.
  destruct σ. unfold add_rows. simpl. rewrite app_nil_r. f_equal. lia.
Qed.

Lemma add_rows_cons r rows σ :
  add_rows rows (add_rows [r] σ) = add_rows (r :: rows) σ.
Proof.
  unfold add_rows. simpl. rewrite <- app_assoc. simpl. f_equal. lia.
Qed.

Lemma set_db_id s : set_db (db s) s = s.
Proof. by destruct s. Qed.

Lemma lookup_url_None href rows :
  lookup_url href rows = None ↔ href ∉ map URL.url rows.
Proof.
  unfold lookup_url. induction rows as [|r rows IH]; simpl.
  - split; [intros _; apply not_elem_of_nil | done].
  - rewrite not_elem_of_cons. case_bool_decide as Hr; split; try done.
    + intros [? _]. congruence.
    + intros Hf. split; [congruence | by apply IH].
    + intros [_ Hf]. by apply IH.
Qed.

Lemma lookup_url_app_l href rows more t :
  lookup_url href rows = Some t → lookup_url href (rows ++ more) = Some t.
Proof.
  unfold lookup_url. induction rows as [|r rows IH]; simpl; [done|].
  case_bool_decide; auto.
Qed.

Lemma lookup_url_app_new href rows r :
  lookup_url href rows = None → URL.url r = href →
  lookup_url href (rows ++ [r]) = Some r.
Proof.
  unfold lookup_url. induction rows as [|x rows IH]; simpl.
  - intros _ ->. by rewrite bool_decide_eq_true_2.
  - case_bool_decide; [done | auto].
Qed.

Lemma lookup_url_Some href rows t :
  lookup_url href rows = Some t → t ∈ rows ∧ URL.url t = href.
Proof.
  unfold lookup_url. induction rows as [|x rows IH]; simpl; [done|].
  case_bool_decide.
  - intros [= ->]. split; [left | done].
  - intros Hf. destruct (IH Hf). split; [by right | done].
Qed.

Lemma for_each_cons {A B : Type} (f : B → A → M B) x l acc s :
  for_each f (x :: l) acc s =
  match f acc x s with
  | (Ok acc', s') => for_each f l acc' s'
  | (Raise e, s') => (Raise e, s')
  end.
Proof. reflexivity. Qed.

Lemma stage_links (snap : Z) (edges : list (Z * Z)) (s : state) :
  for_each (λ _ '(src, tgt), stage (AddLink src tgt snap)) edges () s =
  (Ok (), State (db s) (staged s ++ map (add_link snap) edges) (trace s) (clock s)).
Proof.
  revert s. induction edges as [|[src tgt] edges IH]; intros s.
  - simpl. rewrite app_nil_r. by destruct s.
  - rewrite for_each_cons. unfold stage at 1. rewrite IH. simpl.
    by rewrite <- app_assoc.
Qed.

Lemma apply_writes_links (snap : Z) (edges : list (Z * Z)) (rest : list write) σ :
  apply_writes (map (add_link snap) edges ++ rest) σ =
  apply_writes rest
    (Store (urls σ) (snapshots σ) (links σ ++ link_rows (next_link_id σ) snap edges)
           (next_url_id σ) (next_snapshot_id σ)
           (next_link_id σ + Z.of_nat (length edges))).
Proof.
  revert σ. induction edges as [|[src tgt] edges IH]; intros σ.
  - simpl. rewrite app_nil_r, Z.add_0_r. by destruct σ.
  - simpl. rewrite IH. simpl. rewrite <- app_assoc. simpl.
    do 2 f_equal. lia.
Qed.

(** ** The steps of the pipeline *)

Lemma rendering_Ok (p : page_script) (r : rendered) :
  rendering p = Ok r →
  ∃ perf,
    goto_response p = Ok (r_status_code r) ∧
    timing p = Ok perf ∧
    anchors p = Ok (r_hrefs r) ∧
    r_ttfb r = perf_get perf "responseStart" 0 - perf_get perf "navigationStart" 0 ∧
    r_domc r = perf_get perf "domContentLoadedEventEnd" 0
               - perf_get perf "navigationStart" 0 ∧
    r_loade r = perf_get perf "loadEventEnd" 0 - perf_get perf "navigationStart" 0.
Proof.
  unfold rendering. destruct p as [g l n t a h]. simpl.
  destruct g as [resp|]; [|done].
  destruct l; try done; destruct n; try done;
    destruct t as [perf|]; try done; destruct a as [hrefs|]; try done;
    intros [= <-]; exists perf; done.
Qed.

Section CrawlerFacts.
Context `{!Python} (W : web).
Context (start_url : string) (mode : crawl_mode) (run_id : Z).

Lemma fetch_status_spec (u : URL.t) (s : state) :
  staged s = [] →
  fetch_status W mode run_id u s =
  (Ok (),
   finish u done (status_snapshot mode run_id u (status_of W (URL.url u)) s) []
     (add_trace [EvRequestGet (URL.url u) 30000] s)).
Proof.
  intros Hst. unfold fetch_status, request_get, finish, status_snapshot. run.
  destruct (status_of W (URL.url u)); simpl; rewrite Hst; simpl;
    rewrite app_nil_r, Z.add_0_r; reflexivity.
Qed.

Lemma commit_claim_spec (u : URL.t) (s : state) :
  staged s = [] →
  let cat := classify (URL.url u) (base_host start_url) in
  let claimed := URL.mk (URL.id u) (URL.url u) cat in_progress (Some (clock s)) in
  commit_claim start_url u s =
  (Ok claimed,
   State (set_urls
            (update_url (URL.id u) (URL.with_last_attempt (Some (clock s)))
               (update_url (URL.id u) (URL.with_status in_progress)
                  (update_url (URL.id u) (URL.with_category cat) (urls (db s)))))
            (db s))
         [] (trace s) (clock s + 1)).
Proof.
  intros Hst. unfold commit_claim. run. rewrite Hst. reflexivity.
Qed.

Lemma render_spec (u : URL.t) (s : state) :
  ∃ tr, render W u s = (rendering (page_of W (URL.url u)), add_trace tr s) ∧
        Forall page_event tr.
Proof.
  unfold render, rendering, page_goto, wait_for_full_load, wait_ignoring_timeout,
    add_trace, page_event.
  destruct (page_of W (URL.url u)) as [g l n t a h]. run.
  destruct g as [resp|e]; simpl; [|close_render].
  destruct l as [| |e]; simpl; try close_render;
  (destruct n as [| |e]; simpl; try close_render;
   (destruct t as [perf|e]; simpl; [|close_render];
    (destruct a as [hrefs|e]; simpl; close_render))).
Qed.

Lemma add_url_and_commit_fresh h c s :
  staged s = [] → h ∉ map URL.url (urls (db s)) →
  add_url_and_commit h c s =
  (Ok (next_url_id (db s)),
   set_db (add_rows [URL.mk (next_url_id (db s)) h c pending None] (db s)) s).
Proof.
  intros Hst Hnew. unfold add_url_and_commit. run. rewrite Hst. simpl.
  rewrite bool_decide_eq_false_2 by done. simpl.
  unfold set_db, add_rows. simpl. rewrite Hst. f_equal. f_equal. lia.
Qed.

Lemma add_url_and_commit_dup h c s :
  staged s = [] → h ∈ map URL.url (urls (db s)) →
  add_url_and_commit h c s =
  (Raise (integrity_error h),
   State (db s) [AddURL h c pending] (trace s) (clock s)).
Proof.
  intros Hst Hdup. unfold add_url_and_commit. run. rewrite Hst. simpl.
  rewrite bool_decide_eq_true_2 by done. reflexivity.
Qed.

Lemma record_error_spec (u : URL.t) (e : string) (s : state) :
  record_error mode run_id u e s =
  (Ok (), finish u error (error_snapshot mode run_id u e s) [] s).
Proof.
  unfold record_error, finish, error_snapshot. run.
  rewrite app_nil_r, Z.add_0_r. reflexivity.
Qed.

Lemma record_snapshot_spec (u : URL.t) (r : rendered) (edges : list (Z * Z))
    (s : state) :
  staged s = [] →
  record_snapshot W mode run_id u r edges s =
  match html (page_of W (URL.url u)) with
  | Ok c =>
      (Ok (),
       finish u done (page_snapshot mode run_id u r c s)
         (link_rows (next_link_id (db s)) (next_snapshot_id (db s)) edges)
         (add_trace [EvContent] s))
  | Raise e => (Raise e, add_trace [EvContent] s)
  end.
Proof.
  intros Hst. unfold record_snapshot.
  unfold mbind, M_bind, emit, of_result. simpl.
  destruct (html (page_of W (URL.url u))) as [c|e]; [|reflexivity].
  unfold now, add_and_flush. simpl. rewrite stage_links. simpl.
  unfold stage, commit. simpl. rewrite Hst. simpl.
  rewrite apply_writes_links. simpl.
  unfold finish, page_snapshot, add_trace. simpl.
  assert (Hlen : ∀ z k, length (link_rows z k edges) = length edges).
  { clear. induction edges as [|[src tgt] edges IH]; intros z k; simpl; [done|].
    by rewrite IH. }
  rewrite Hlen. reflexivity.
Qed.

Lemma edge_of_app u rows more h e :
  edge_of u rows h e → edge_of u (rows ++ more) h e.
Proof. intros (t & Ht & ->). exists t. eauto using lookup_url_app_l. Qed.

Lemma visit_href_spec (u : URL.t) (acc : list (Z * Z)) (h : string) (s : state) :
  staged s = [] →
  visit_href start_url u acc h s =
  if keeps u h then
    match lookup_url h (urls (db s)) with
    | Some t => (Ok (acc ++ [(URL.id u, URL.id t)]), s)
    | None => (Ok (acc ++ [(URL.id u, next_url_id (db s))]),
               set_db (add_rows [new_row start_url (db s) h] (db s)) s)
    end
  else (Ok acc, s).
Proof.
  intros Hst. unfold visit_href, keeps.
  destruct (decide (h = URL.url u)) as [Heq|Hne].
  { rewrite bool_decide_eq_false_2 by naive_solver. reflexivity. }
  rewrite bool_decide_eq_true_2 by done. simpl.
  destruct (is_http (urlparse h)); [|reflexivity].
  unfold mbind at 1, M_bind at 1, scalar_url.
  destruct (lookup_url h (urls (db s))) as [t|] eqn:Hlk; [reflexivity|].
  apply lookup_url_None in Hlk.
  unfold mbind, M_bind.
  rewrite (add_url_and_commit_fresh _ _ _ Hst Hlk). reflexivity.
Qed.

Lemma discovered_cons u h hs σ r :
  discovered start_url u hs σ r → discovered start_url u (h :: hs) σ r.
Proof.
  intros (?&?&?&Hin&?&?). repeat split; auto.
  simpl. destruct (keeps u h); [by right | done].
Qed.

Lemma for_each_visit_spec (u : URL.t) (hs : list string) :
  ∀ (acc : list (Z * Z)) (s : state), staged s = [] →
  ∃ rows nl,
    for_each (visit_href start_url u) hs acc s
    = (Ok (acc ++ nl), set_db (add_rows rows (db s)) s) ∧
    Forall2 (edge_of u (urls (db s) ++ rows)) (List.filter (keeps u) hs) nl ∧
    Forall (discovered start_url u hs (db s)) rows.
Proof.
  induction hs as [|h hs IH]; intros acc s Hst.
  - exists [], []. simpl. rewrite add_rows_nil, set_db_id, app_nil_r.
    split; [done|]. split; constructor.
  - rewrite for_each_cons, visit_href_spec by done. simpl.
    destruct (keeps u h) eqn:Hk.
    + destruct (lookup_url h (urls (db s))) as [t|] eqn:Hlk.
      * destruct (IH (acc ++ [(URL.id u, URL.id t)]) s Hst)
          as (rows & nl & Hrun & Hedges & Hrows).
        exists rows, ((URL.id u, URL.id t) :: nl).
        rewrite Hrun, <- app_assoc. split; [done|]. split.
        -- constructor; [|done]. exists t. eauto using lookup_url_app_l.
        -- eapply Forall_impl; [exact Hrows|]. intros r. apply discovered_cons.
      * set (r0 := new_row start_url (db s) h).
        set (s1 := set_db (add_rows [r0] (db s)) s).
        destruct (IH (acc ++ [(URL.id u, next_url_id (db s))]) s1 Hst)
          as (rows & nl & Hrun & Hedges & Hrows).
        exists (r0 :: rows), ((URL.id u, URL.id r0) :: nl).
        rewrite Hrun, <- app_assoc. split; [|split].
        -- unfold s1, set_db. simpl. by rewrite add_rows_cons.
        -- simpl in Hedges. rewrite <- app_assoc in Hedges. simpl in Hedges.
           constructor; [|done]. exists r0. split; [|done].
           change (urls (db s) ++ r0 :: rows) with (urls (db s) ++ [r0] ++ rows).
           rewrite app_assoc. apply lookup_url_app_l.
           by apply lookup_url_app_new.
        -- apply lookup_url_None in Hlk. constructor.
           ++ repeat split; simpl; auto; [|lia].
              rewrite Hk. by left.
           ++ eapply Forall_impl; [exact Hrows|]. intros r (?&?&?&Hin&Hnew&Hid).
              simpl in Hnew, Hid. rewrite map_app, not_elem_of_app in Hnew.
              repeat split; auto; [|tauto|lia]. simpl. rewrite Hk. by right.
    + destruct (IH acc s Hst) as (rows & nl & Hrun & Hedges & Hrows).
      exists rows, nl. rewrite Hrun. split; [done|]. split; [done|].
      eapply Forall_impl; [exact Hrows|]. intros r. apply discovered_cons.
Qed.

Lemma discover_spec (u : URL.t) (hrefs : list string) (s : state) :
  staged s = [] →
  ∃ rows edges,
    discover start_url u hrefs s = (Ok edges, set_db (add_rows rows (db s)) s) ∧
    Forall2 (edge_of u (urls (db s) ++ rows))
      (List.filter (keeps u) (set_iter hrefs)) edges ∧
    Forall (discovered start_url u (set_iter hrefs) (db s)) rows.
Proof.
  intros Hst. unfold discover.
  destruct (for_each_visit_spec u (set_iter hrefs) [] s Hst)
    as (rows & edges & Hrun & ? & ?).
  exists rows, edges. by rewrite Hrun.
Qed.

Lemma fetch_page_spec (u : URL.t) (s : state) :
  staged s = [] →
  ∃ tr rows edges,
    Forall page_event tr ∧
    fetch_page W start_url mode run_id u s =
    (Ok (),
     add_trace [EvPageClose]
       (page_attempt W mode run_id u edges s
          (add_trace (EvNewPage :: tr) (set_db (add_rows rows (db s)) s)))) ∧
    match rendering (page_of W (URL.url u)) with
    | Raise _ => rows = [] ∧ edges = []
    | Ok r =>
        Forall2 (edge_of u (urls (db s) ++ rows))
          (List.filter (keeps u) (set_iter (r_hrefs r))) edges ∧
        Forall (discovered start_url u (set_iter (r_hrefs r)) (db s)) rows
    end.
Proof.
  intros Hst. unfold fetch_page, try_body, page_attempt, new_page, page_close.
  destruct (render_spec u (add_trace [EvNewPage] s)) as (tr & Hrender & Htr).
  unfold try_finally, try_except, mbind, M_bind, emit. simpl.
  change (State (db s) (staged s) (trace s ++ [EvNewPage]) (clock s))
    with (add_trace [EvNewPage] s).
  rewrite Hrender.
  destruct (rendering (page_of W (URL.url u))) as [r|e].
  - set (s1 := add_trace tr (add_trace [EvNewPage] s)).
    destruct (discover_spec u (r_hrefs r) s1 Hst) as (rows & edges & Hd & He & Hr).
    rewrite Hd.
    rewrite record_snapshot_spec by done.
    destruct (html (page_of W (URL.url u))) as [c|e].
    + exists (tr ++ [EvContent]), rows, edges. split; [|split; [|done]].
      * apply Forall_app. split; [done|]. repeat constructor; done.
      * unfold add_trace, set_db, finish, page_snapshot, s1. simpl.
        rewrite <- !app_assoc. simpl. rewrite <- !app_assoc. reflexivity.
    + exists (tr ++ [EvContent]), rows, edges. split; [|split; [|done]].
      * apply Forall_app. split; [done|]. repeat constructor; done.
      * rewrite record_error_spec.
        unfold add_trace, set_db, finish, error_snapshot, s1. simpl.
        rewrite <- !app_assoc. simpl. rewrite <- !app_assoc. reflexivity.
  - exists tr, [], []. split; [done|]. split; [|done].
    rewrite record_error_spec, add_rows_nil.
    unfold add_trace, set_db, finish, error_snapshot. simpl.
    rewrite <- !app_assoc, app_nil_r. simpl. rewrite ?Z.add_0_r. reflexivity.
Qed.

Lemma process_spec (u : URL.t) (s : state) :
  staged s = [] →
  ∃ s' snap st rows ls tr,
    process W start_url mode run_id u s = (Ok (), s') ∧
    staged s' = [] ∧
    written W mode run_id u s snap ∧
    snapshots (db s') = snapshots (db s) ++ [snap] ∧
    next_snapshot_id (db s') = next_snapshot_id (db s) + 1 ∧
    links (db s') = links (db s) ++ ls ∧
    urls (db s') = update_url (URL.id u) (URL.with_status st) (urls (db s) ++ rows) ∧
    next_url_id (db s') = next_url_id (db s) + Z.of_nat (length rows) ∧
    (st = done ∨ st = error) ∧
    Forall (λ r, URL.status r = pending ∧ next_url_id (db s) ≤ URL.id r ∧
                 URL.url r ∉ map URL.url (urls (db s))) rows ∧
    trace s' = trace s ++ tr ∧
    clock s' = clock s + 1.
Proof.
  intros Hst. unfold process.
  destruct (decide (URL.category u = external)) as [Hext|Hint].
  - rewrite fetch_status_spec by done.
    eexists _, _, done, [], [], [EvRequestGet (URL.url u) 30000].
    split; [reflexivity|]. simpl. rewrite !app_nil_r, Z.add_0_r.
    repeat split; auto using written_status.
  - destruct (fetch_page_spec u s Hst) as (tr & rows & edges & Htr & Hrun & Hcase).
    rewrite Hrun. unfold page_attempt in *.
    assert (Hrows : ∀ hs, Forall (discovered start_url u hs (db s)) rows →
      Forall (λ r, URL.status r = pending ∧ next_url_id (db s) ≤ URL.id r ∧
                   (URL.url r ∉ map URL.url (urls (db s)))) rows).
    { intros hs Hall. eapply Forall_impl; [exact Hall|].
      intros r (?&?&?&?&?&?). done. }
    destruct (rendering (page_of W (URL.url u))) as [r|e] eqn:Hrender.
    + destruct Hcase as [Hedges Hdisc].
      destruct (html (page_of W (URL.url u))) as [c|e] eqn:Hhtml.
      * eexists _, _, done, rows, _, ((EvNewPage :: tr) ++ [EvPageClose]).
        split; [reflexivity|]. simpl. rewrite <- !app_assoc.
        repeat split; eauto.
        apply (written_page W mode run_id u s r c); done.
      * eexists _, _, error, rows, [], ((EvNewPage :: tr) ++ [EvPageClose]).
        split; [reflexivity|]. simpl. rewrite <- !app_assoc, !app_nil_r.
        repeat split; eauto.
        apply (written_error W mode run_id u s e); [done|].
        unfold attempt_error. by rewrite Hrender, Hhtml.
    + destruct Hcase as [-> ->].
      eexists _, _, error, [], [], ((EvNewPage :: tr) ++ [EvPageClose]).
      split; [reflexivity|]. simpl. rewrite <- !app_assoc, !app_nil_r, ?Z.add_0_r.
      repeat split; eauto.
      apply (written_error W mode run_id u s e); [done|].
      unfold attempt_error. by rewrite Hrender.
Qed.

Lemma elem_of_update_url (i : Z) (f : URL.t → URL.t) (rows : list URL.t) (r' : URL.t) :
  r' ∈ update_url i f rows ↔
  ∃ r, r ∈ rows ∧ r' = if bool_decide (URL.id r = i) then f r else r.
Proof.
  unfold update_url. rewrite list_elem_of_fmap. split.
  - intros (r & -> & Hin). by exists r.
  - intros (r & Hin & ->). by exists r.
Qed.

Lemma update_url_status (i : Z) (st : url_status) (rows : list URL.t) (r : URL.t) :
  r ∈ update_url i (URL.with_status st) rows → URL.id r = i → URL.status r = st.
Proof.
  rewrite elem_of_update_url. intros (r0 & _ & ->) Hid.
  case_bool_decide; [done | contradiction].
Qed.

Lemma update_url_other (i : Z) (f : URL.t → URL.t) (rows : list URL.t) (r : URL.t) :
  r ∈ rows → URL.id r ≠ i → r ∈ update_url i f rows.
Proof.
  intros Hin Hne. apply elem_of_update_url. exists r. split; [done|].
  by rewrite bool_decide_eq_false_2.
Qed.

(** ** The claims on one attempt *)

(** C6: for a row classified external the pipeline issues one status request
    with a timeout of 30000 ms and nothing else (no page is opened), writes
    exactly one snapshot, with a status code on success and the error text on
    failure, never both, and an empty content hash, and the row becomes
    [done] whether or not the request failed. *)
Theorem external_status_only (u : URL.t) (s : state) :
  staged s = [] → URL.category u = external →
  ∃ s' snap,
    process W start_url mode run_id u s = (Ok (), s') ∧
    trace s' = trace s ++ [EvRequestGet (URL.url u) 30000] ∧
    snapshots (db s') = snapshots (db s) ++ [snap] ∧
    links (db s') = links (db s) ∧
    Snapshot.content_hash snap = None ∧
    (Snapshot.status_code snap, Snapshot.error_message snap)
      = status_fields (status_of W (URL.url u)) ∧
    status_xor_error snap ∧
    urls (db s') = update_url (URL.id u) (URL.with_status done) (urls (db s)) ∧
    (∀ r, r ∈ urls (db s') → URL.id r = URL.id u → URL.status r = done).
Proof.
  intros Hst Hext. unfold process.
  rewrite decide_True by done. rewrite fetch_status_spec by done.
  eexists _, (status_snapshot mode run_id u (status_of W (URL.url u)) s).
  split; [reflexivity|]. simpl. rewrite app_nil_r.
  unfold status_xor_error. simpl.
  destruct (status_of W (URL.url u)); simpl; split_and!;
    first [ done | by left; eauto | by right; eauto
          | intros r; apply update_url_status ].
Qed.




Lemma claimed_row_isolated (fuel : nat) (s : state) (row : URL.t) :
  staged s = [] →
  select_pending [] (urls (db s)) = Some row →
  ∃ u s1 s2 snap,
    commit_claim start_url row s = (Ok u, s1) ∧
    URL.id u = URL.id row ∧
    process W start_url mode run_id u s1 = (Ok (), s2) ∧
    staged s2 = [] ∧
    worker W start_url mode run_id (S fuel) s = worker W start_url mode run_id fuel s2 ∧
    snapshots (db s2) = snapshots (db s1) ++ [snap] ∧
    (∀ e, failure W u = Some e → Snapshot.error_message snap = Some e) ∧
    (∀ r, r ∈ urls (db s1) → URL.id r ≠ URL.id row → r ∈ urls (db s2)) ∧
    links (db s1) `prefix_of` links (db s2).
Proof.
  intros Hst Hsel.
  pose proof (commit_claim_spec row s Hst) as Hclaim. simpl in Hclaim.
  eexists _, _.
  destruct (process_spec
              (URL.mk (URL.id row) (URL.url row)
                 (classify (URL.url row) (base_host start_url)) in_progress
                 (Some (clock s)))
              (State (set_urls
                 (update_url (URL.id row) (URL.with_last_attempt (Some (clock s)))
                    (update_url (URL.id row) (URL.with_status in_progress)
                       (update_url (URL.id row)
                          (URL.with_category
                             (classify (URL.url row) (base_host start_url)))
                          (urls (db s)))))
                 (db s)) [] (trace s) (clock s + 1)) eq_refl)
    as (s2 & snap & st & rows & ls & tr & Hrun & Hst2 & Hw & Hsnap & _ & Hlinks
        & Hurls & _).
  exists s2, snap. split; [exact Hclaim|]. split; [done|]. split; [exact Hrun|].
  split; [done|]. split; [|split; [done|split; [|split]]].
  - simpl. unfold mbind at 1, M_bind at 1, select_for_update. rewrite Hsel.
    unfold mbind at 1, M_bind at 1. rewrite Hclaim.
    unfold mbind at 1, M_bind at 1. rewrite Hrun. reflexivity.
  - intros e. unfold failure. simpl.
    destruct Hw as [Hext | r c Hint Hr Hc | e' Hint He]; simpl in *.
    + rewrite decide_True by done.
      destruct (status_of W (URL.url row)); [done | simpl; congruence].
    + rewrite decide_False by done. unfold attempt_error. rewrite Hr, Hc. done.
    + rewrite decide_False by done. congruence.
  - intros r Hin Hne. rewrite Hurls. apply update_url_other; [|done].
    apply elem_of_app. by left.
  - rewrite Hlinks. by apply prefix_app_r.
Qed.

End CrawlerFacts.

(** ** The pool: what one step does to the frontier *)

Lemma update_url_compose (i : Z) (f g : URL.t → URL.t) (rows : list URL.t) :
  (∀ r, URL.id (g r) = URL.id r) →
  update_url i f (update_url i g rows) = update_url i (f ∘ g) rows.
Proof.
  intros Hg. unfold update_url. rewrite map_map. apply map_ext. intros r.
  destruct (decide (URL.id r = i)) as [Hr|Hr].
  - rewrite (bool_decide_eq_true_2 _ Hr).
    rewrite bool_decide_eq_true_2; [done | by rewrite Hg].
  - rewrite (bool_decide_eq_false_2 _ Hr). by rewrite bool_decide_eq_false_2.
Qed.

Section PoolFacts.
Context `{!Python} (W : web).
Context (start_url : string) (mode : crawl_mode) (run_id : Z).

Lemma handle_spec (u : URL.t) (e : string) (s : state) :
  handle mode run_id u e s =
  (Ok (),
   add_trace [EvPageClose] (finish u error (error_snapshot mode run_id u e s) [] s)).
Proof.
  unfold handle, try_finally. rewrite record_error_spec. reflexivity.
Qed.

Lemma step_worker_effect (locked : list Z) (p p' : pc) (s s' : state) :
  staged s = [] →
  step_worker W start_url mode run_id locked p s = (p', s') →
  staged s' = [] ∧
  effect locked (urls (db s)) (next_url_id (db s)) p p'
         (urls (db s')) (next_url_id (db s')).
Proof.
  intros Hst Hstep. destruct p as [|u|u|u r todo edges|u r h todo edges| |e];
    simpl in Hstep.
  - unfold unguarded, select_for_update in Hstep.
    destruct (select_pending locked (urls (db s))) as [u|] eqn:Hsel;
      injection Hstep as <- <-; split; auto; by constructor.
  - unfold unguarded in Hstep. rewrite commit_claim_spec in Hstep by done.
    injection Hstep as <- <-. split; [done|]. simpl.
    rewrite !update_url_compose by (intros []; done).
    apply eff_claim; [done|]. by intros [].
  - destruct (decide (URL.category u = external)).
    + unfold unguarded in Hstep. rewrite fetch_status_spec in Hstep by done.
      injection Hstep as <- <-. split; [done|]. simpl.
      by apply (eff_finish _ _ _ (Claimed u) u done).
    + simpl in Hstep. unfold guarded, unguarded in Hstep.
      destruct (render_spec W u (add_trace [EvNewPage] s)) as (tr & Hrender & _).
      change (State (db s) (staged s) (trace s ++ [EvNewPage]) (clock s))
        with (add_trace [EvNewPage] s) in Hstep.
      rewrite Hrender in Hstep.
      destruct (rendering (page_of W (URL.url u))) as [r|e].
      * injection Hstep as <- <-. split; [done|]. simpl.
        by apply (eff_local _ _ _ _ _ u).
      * rewrite handle_spec in Hstep. injection Hstep as <- <-. split; [done|].
        simpl. by apply (eff_finish _ _ _ (Claimed u) u error).
  - destruct todo as [|h todo].
    + unfold unguarded, try_finally, try_except in Hstep.
      rewrite record_snapshot_spec in Hstep by done.
      destruct (html (page_of W (URL.url u))) as [c|e].
      * unfold page_close, emit in Hstep. injection Hstep as <- <-.
        split; [done|]. simpl.
        by apply (eff_finish _ _ _ (Discovering u r [] edges) u done).
      * rewrite record_error_spec in Hstep.
        unfold page_close, emit in Hstep. injection Hstep as <- <-.
        split; [done|]. simpl.
        by apply (eff_finish _ _ _ (Discovering u r [] edges) u error).
    + destruct (decide (h = URL.url u)).
      { injection Hstep as <- <-. split; [done|]. by apply (eff_local _ _ _ _ _ u). }
      destruct (is_http (urlparse h)).
      * unfold guarded, scalar_url in Hstep.
        destruct (lookup_url h (urls (db s))); injection Hstep as <- <-;
          (split; [done|]); by apply (eff_local _ _ _ _ _ u).
      * injection Hstep as <- <-. split; [done|]. by apply (eff_local _ _ _ _ _ u).
  - unfold guarded, unguarded in Hstep.
    destruct (decide (h ∈ map URL.url (urls (db s)))) as [Hdup|Hnew].
    + rewrite add_url_and_commit_dup in Hstep by done.
      rewrite handle_spec in Hstep. injection Hstep as <- <-. split; [done|].
      simpl. by apply (eff_finish _ _ _ (Inserting u r h todo edges) u error).
    + rewrite add_url_and_commit_fresh in Hstep by done.
      injection Hstep as <- <-. split; [done|]. simpl.
      by apply eff_insert.
  - injection Hstep as <- <-. split; [done|]. by apply eff_halt.
  - injection Hstep as <- <-. split; [done|]. by apply eff_halt.
Qed.

Lemma step_worker_snapshots (locked : list Z) (p p' : pc) (s s' : state) :
  staged s = [] →
  step_worker W start_url mode run_id locked p s = (p', s') →
  snapshots (db s') = snapshots (db s) ∨
  ∃ snap, snapshot_row mode run_id snap ∧
          snapshots (db s') = snapshots (db s) ++ [snap].
Proof.
  intros Hst Hstep. destruct p as [|u|u|u r todo edges|u r h todo edges| |e];
    simpl in Hstep.
  - unfold unguarded, select_for_update in Hstep.
    destruct (select_pending locked (urls (db s))); injection Hstep as <- <-;
      by left.
  - unfold unguarded in Hstep. rewrite commit_claim_spec in Hstep by done.
    injection Hstep as <- <-. by left.
  - destruct (decide (URL.category u = external)).
    + unfold unguarded in Hstep. rewrite fetch_status_spec in Hstep by done.
      injection Hstep as <- <-. right. eexists. split; [|reflexivity].
      apply row_status.
    + simpl in Hstep. unfold guarded, unguarded in Hstep.
      destruct (render_spec W u (add_trace [EvNewPage] s)) as (tr & Hrender & _).
      change (State (db s) (staged s) (trace s ++ [EvNewPage]) (clock s))
        with (add_trace [EvNewPage] s) in Hstep.
      rewrite Hrender in Hstep.
      destruct (rendering (page_of W (URL.url u))) as [r|e].
      * injection Hstep as <- <-. by left.
      * rewrite handle_spec in Hstep. injection Hstep as <- <-.
        right. eexists. split; [|reflexivity]. apply row_error.
  - destruct todo as [|h todo].
    + unfold unguarded, try_finally, try_except in Hstep.
      rewrite record_snapshot_spec in Hstep by done.
      destruct (html (page_of W (URL.url u))) as [c|e].
      * unfold page_close, emit in Hstep. injection Hstep as <- <-.
        right. eexists. split; [|reflexivity]. apply row_page.
      * rewrite record_error_spec in Hstep.
        unfold page_close, emit in Hstep. injection Hstep as <- <-.
        right. eexists. split; [|reflexivity]. apply row_error.
    + destruct (decide (h = URL.url u)); [injection Hstep as <- <-; by left|].
      destruct (is_http (urlparse h)); [|injection Hstep as <- <-; by left].
      unfold guarded, scalar_url in Hstep.
      destruct (lookup_url h (urls (db s))); injection Hstep as <- <-; by left.
  - unfold guarded, unguarded in Hstep.
    destruct (decide (h ∈ map URL.url (urls (db s)))) as [Hdup|Hnew].
    + rewrite add_url_and_commit_dup in Hstep by done.
      rewrite handle_spec in Hstep. injection Hstep as <- <-.
      right. eexists. split; [|reflexivity]. apply row_error.
    + rewrite add_url_and_commit_fresh in Hstep by done.
      injection Hstep as <- <-. by left.
  - injection Hstep as <- <-. by left.
  - injection Hstep as <- <-. by left.
Qed.

End PoolFacts.

(** ** The select *)

Lemma foldr_lower_Some (l : list URL.t) (u : URL.t) :
  foldr lower None l = Some u →
  u ∈ l ∧ ∀ r, r ∈ l → URL.id u ≤ URL.id r.
Proof.
  revert u. induction l as [|x l IH]; intros u; simpl; [done|].
  destruct (foldr lower None l) as [m|] eqn:Hm; simpl.
  - destruct (IH m eq_refl) as [Hin Hmin].
    case_bool_decide as Hle; intros [= <-].
    + split; [by left|]. intros r [->|Hr]%elem_of_cons; [lia|].
      specialize (Hmin r Hr). lia.
    + split; [by right|]. intros r [->|Hr]%elem_of_cons; [lia | by apply Hmin].
  - intros [= <-]. split; [by left|].
    intros r [->|Hr]%elem_of_cons; [lia|].
    destruct l; [by apply elem_of_nil in Hr|]. simpl in Hm.
    unfold lower in Hm. destruct (foldr _ _ _); [case_bool_decide|]; done.
Qed.

Lemma foldr_lower_None (l : list URL.t) :
  foldr lower None l = None → l = [].
Proof.
  destruct l as [|x l]; [done|]. simpl. unfold lower.
  destruct (foldr _ _ _); [case_bool_decide|]; done.
Qed.

Lemma elem_of_claimable (locked : list Z) (rows : list URL.t) (r : URL.t) :
  r ∈ List.filter (claimable locked) rows ↔
  r ∈ rows ∧ URL.status r = pending ∧ (URL.id r ∉ locked).
Proof.
  rewrite list_elem_of_In, List.filter_In, <- list_elem_of_In.
  unfold claimable. rewrite andb_true_iff, !bool_decide_eq_true. done.
Qed.

Lemma select_pending_Some (locked : list Z) (rows : list URL.t) (u : URL.t) :
  select_pending locked rows = Some u →
  u ∈ rows ∧ URL.status u = pending ∧ (URL.id u ∉ locked) ∧
  ∀ r, r ∈ rows → URL.status r = pending → (URL.id r ∉ locked) →
       URL.id u ≤ URL.id r.
Proof.
  unfold select_pending. intros [Hin Hmin]%foldr_lower_Some.
  apply elem_of_claimable in Hin as (? & ? & ?). repeat split; auto.
  intros r ? ? ?. apply Hmin, elem_of_claimable. done.
Qed.

Lemma select_pending_None (locked : list Z) (rows : list URL.t) :
  select_pending locked rows = None →
  ∀ r, r ∈ rows → URL.status r = pending → URL.id r ∈ locked.
Proof.
  unfold select_pending. intros Hnil%foldr_lower_None r Hr Hp.
  destruct (decide (URL.id r ∈ locked)) as [|Hn]; [done|].
  assert (Hin : r ∈ List.filter (claimable locked) rows)
    by by apply elem_of_claimable.
  rewrite Hnil in Hin. by apply elem_of_nil in Hin.
Qed.

Lemma elem_of_locked_rows (ws : list pc) (k : Z) :
  k ∈ locked_rows ws ↔ ∃ j v, ws !! j = Some (Locked v) ∧ URL.id v = k.
Proof.
  unfold locked_rows. rewrite list_elem_of_In, in_flat_map. split.
  - intros (p & Hp & Hk). apply list_elem_of_In, list_elem_of_lookup in Hp as [j Hj].
    destruct p; simpl in Hk; try done. destruct Hk as [<-|[]]. eauto.
  - intros (j & v & Hj & <-). exists (Locked v). split; [|by left].
    apply list_elem_of_In, list_elem_of_lookup. eauto.
Qed.

Lemma lookup_insert_cases (ws : list pc) (i j : nat) (p' q : pc) :
  <[i:=p']> ws !! j = Some q →
  (j = i ∧ q = p') ∨ (j ≠ i ∧ ws !! j = Some q).
Proof.
  intros Hq. destruct (decide (j = i)) as [->|Hne].
  - left. split; [done|].
    assert (i < length ws)%nat.
    { apply lookup_lt_Some in Hq. by rewrite length_insert in Hq. }
    rewrite list_lookup_insert_eq in Hq by done. congruence.
  - right. split; [done|]. by rewrite list_lookup_insert_ne in Hq.
Qed.

Lemma update_url_inv (i : Z) (f : URL.t → URL.t) (rows : list URL.t) (r' : URL.t) :
  r' ∈ update_url i f rows →
  (r' ∈ rows ∧ URL.id r' ≠ i) ∨ (∃ r, r ∈ rows ∧ URL.id r = i ∧ r' = f r).
Proof.
  rewrite elem_of_update_url. intros (r & Hin & ->).
  case_bool_decide; [right | left]; eauto.
Qed.

Lemma update_url_fwd (i : Z) (f : URL.t → URL.t) (rows : list URL.t) (r : URL.t) :
  r ∈ rows →
  (if bool_decide (URL.id r = i) then f r else r) ∈ update_url i f rows.
Proof. intros Hin. apply elem_of_update_url. eauto. Qed.

Lemma update_url_urls (i : Z) (f : URL.t → URL.t) (rows : list URL.t) :
  (∀ r, URL.url (f r) = URL.url r) →
  map URL.url (update_url i f rows) = map URL.url rows.
Proof.
  intros Hf. unfold update_url. rewrite map_map. apply map_ext. intros r.
  case_bool_decide; [apply Hf | done].
Qed.

(** ** The pool: what holds after any schedule *)

Section PoolInv.
Context `{!Python} (W : web).
Context (start_url : string) (mode : crawl_mode) (run_id : Z).

Lemma start_pool_inv (n : nat) (σ : store) :
  (∀ r, r ∈ urls σ → URL.id r < next_url_id σ) →
  pool_inv (urls σ) (start_pool n σ).
Proof.
  intros Hfresh.
  assert (Hidle : ∀ i p, replicate n AtLoop !! i = Some p → p = AtLoop).
  { intros i p [-> _]%lookup_replicate. done. }
  constructor; simpl; unfold frontier, url_counter; simpl; auto.
  - intros i p u Hp. by rewrite (Hidle _ _ Hp).
  - intros i p u Hp. by rewrite (Hidle _ _ Hp).
  - intros i j p q u v _ Hp. by rewrite (Hidle _ _ Hp).
  - constructor.
  - intros k Hk. by apply elem_of_nil in Hk.
  - intros k Hk. by apply elem_of_nil in Hk.
  - intros i p u Hp. by rewrite (Hidle _ _ Hp).
  - intros r Hr. destruct (decide (URL.status r = pending)); [by left|].
    right. right. eauto.
  - intros r0 Hr0. eauto.
  - intros Hne _. destruct n as [|n]; [done|].
    exists 0%nat, AtLoop. done.
  - intros i p e Hp. by rewrite (Hidle _ _ Hp).
Qed.

Lemma step_unfold (g : pool) (i : nat) (p : pc) :
  workers g !! i = Some p →
  staged (shared g) = [] →
  ∃ p' s',
    step W start_url mode run_id g i =
      Pool s' (<[i:=p']> (workers g))
           (match p, p' with
            | AtLoop, Locked u => claims g ++ [(i, URL.id u)]
            | _, _ => claims g
            end) ∧
    staged s' = [] ∧
    effect (locked_rows (workers g)) (frontier g) (url_counter g) p p'
           (urls (db s')) (next_url_id (db s')).
Proof.
  intros Hp Hst. unfold step. rewrite Hp.
  destruct (step_worker W start_url mode run_id (locked_rows (workers g)) p (shared g))
    as [p' s'] eqn:Hstep.
  destruct (step_worker_effect W start_url mode run_id _ _ _ _ _ Hst Hstep).
  exists p', s'. done.
Qed.

Lemma locked_rows_insert_other (ws : list pc) (i : nat) (p p' : pc) (k : Z) :
  ws !! i = Some p → (∀ u, p ≠ Locked u) →
  k ∈ locked_rows ws → k ∈ locked_rows (<[i:=p']> ws).
Proof.
  intros Hp Hnl. rewrite !elem_of_locked_rows. intros (j & v & Hj & Hk).
  exists j, v. split; [|done].
  destruct (decide (j = i)) as [->|Hne]; [congruence|].
  by rewrite list_lookup_insert_ne.
Qed.

Ltac at_worker H :=
  apply lookup_insert_cases in H as [[-> ->] | [? H]].

Lemma inv_local rows0 g g' i p p' u :
  pool_inv rows0 g → workers g !! i = Some p →
  held p = Some u → held p' = Some u → working p → working p' →
  moved g g' i p' (frontier g) (url_counter g) (claims g) →
  pool_inv rows0 g'.
Proof.
  intros [] Hp Hh Hh' Hw Hw' (Hst & Hrows & Hnext & Hws & Hcl).
  constructor; rewrite ?Hrows, ?Hnext, ?Hws, ?Hcl; auto.
  - intros j q v Hq Hv. at_worker Hq; [|eauto].
    rewrite Hh' in Hv. injection Hv as <-. eauto.
  - intros j q v Hq Hv Hwq. at_worker Hq; [|eauto].
    rewrite Hh' in Hv. injection Hv as <-. eauto.
  - intros j k q q' v v' Hne Hq Hq' Hv Hv'.
    at_worker Hq; at_worker Hq'; try done.
    + rewrite Hh' in Hv. injection Hv as <-. eauto.
    + rewrite Hh' in Hv'. injection Hv' as <-. eauto.
    + eauto.
  - intros k Hk. destruct (inv_claims_status0 k Hk) as [Hl|Hr]; [left|by right].
    eapply locked_rows_insert_other; [done| |done].
    intros v ->. done.
  - intros j q v Hq Hv. at_worker Hq; [|eauto].
    rewrite Hh' in Hv. injection Hv as <-. eauto.
  - intros _ _. exists i, p'. split.
    + apply list_lookup_insert_eq. by eapply lookup_lt_Some.
    + intros ->. done.
  - intros j q e Hq. at_worker Hq; [|eauto]. intros ->. done.
Qed.

Lemma inv_halt rows0 g g' i p :
  pool_inv rows0 g → workers g !! i = Some p →
  moved g g' i p (frontier g) (url_counter g) (claims g) →
  pool_inv rows0 g'.
Proof.
  intros [] Hp (Hst & Hrows & Hnext & Hws & Hcl).
  rewrite list_insert_id in Hws by done.
  constructor; rewrite ?Hrows, ?Hnext, ?Hws, ?Hcl; auto.
Qed.

Lemma inv_select rows0 g g' i u :
  pool_inv rows0 g → workers g !! i = Some AtLoop →
  select_pending (locked_rows (workers g)) (frontier g) = Some u →
  moved g g' i (Locked u) (frontier g) (url_counter g)
        (claims g ++ [(i, URL.id u)]) →
  pool_inv rows0 g'.
Proof.
  intros [] Hp (Hin & Hpend & Hfree & _)%select_pending_Some
    (Hst & Hrows & Hnext & Hws & Hcl).
  assert (Hnew : URL.id u ∉ map snd (claims g)).
  { intros Hk. destruct (inv_claims_status0 _ Hk) as [?|Hr]; [done|].
    by apply (Hr u). }
  constructor; rewrite ?Hrows, ?Hnext, ?Hws, ?Hcl; auto.
  - intros j q v Hq Hv. at_worker Hq; [|eauto].
    injection Hv as <-. eauto.
  - intros j q v Hq Hv Hwq. at_worker Hq; [done|eauto].
  - intros j k q q' v v' Hne Hq Hq' Hv Hv'.
    assert (Hother : ∀ m x y, workers g !! m = Some x → held x = Some y →
                              URL.id u ≠ URL.id y).
    { intros m x y Hx Hy Heq. destruct x; simpl in Hy; try done;
        injection Hy as ->.
      - apply Hfree, elem_of_locked_rows. eauto.
      - specialize (inv_working0 m _ y Hx eq_refl I u Hin Heq). congruence.
      - specialize (inv_working0 m _ y Hx eq_refl I u Hin Heq). congruence.
      - specialize (inv_working0 m _ y Hx eq_refl I u Hin Heq). congruence. }
    at_worker Hq; at_worker Hq'; try done.
    + injection Hv as <-. by eapply Hother.
    + injection Hv' as <-. intros Heq. symmetry in Heq. revert Heq.
      by eapply Hother.
    + eauto.
  - rewrite map_app. simpl. apply NoDup_app. split; [done|]. split.
    + intros k Hk [->|[]%elem_of_nil]%elem_of_cons. done.
    + apply NoDup_singleton.
  - intros k. rewrite map_app, elem_of_app. simpl.
    intros [Hk|[->|[]%elem_of_nil]%elem_of_cons]; eauto.
  - intros k. rewrite map_app, elem_of_app. simpl.
    intros [Hk|[->|[]%elem_of_nil]%elem_of_cons].
    + destruct (inv_claims_status0 k Hk) as [Hl|Hr]; [left|by right].
      eapply locked_rows_insert_other; [done| |done]. done.
    + left. apply elem_of_locked_rows. exists i, u. split; [|done].
      apply list_lookup_insert_eq. by eapply lookup_lt_Some.
  - intros j q v Hq Hv. apply elem_of_app. at_worker Hq.
    + injection Hv as <-. right. by left.
    + left. eauto.
  - intros r Hr. destruct (inv_covered0 r Hr) as [?|[?|?]]; auto.
    right. left. rewrite map_app, elem_of_app. by left.
  - intros _ _. exists i, (Locked u). split; [|done].
    apply list_lookup_insert_eq. by eapply lookup_lt_Some.
  - intros j q e Hq. at_worker Hq; [done|eauto].
Qed.

Lemma inv_return rows0 g g' i :
  pool_inv rows0 g → workers g !! i = Some AtLoop →
  select_pending (locked_rows (workers g)) (frontier g) = None →
  moved g g' i Returned (frontier g) (url_counter g) (claims g) →
  pool_inv rows0 g'.
Proof.
  intros [] Hp Hnone (Hst & Hrows & Hnext & Hws & Hcl).
  constructor; rewrite ?Hrows, ?Hnext, ?Hws, ?Hcl; auto.
  - intros j q v Hq Hv. at_worker Hq; [done|eauto].
  - intros j q v Hq Hv Hwq. at_worker Hq; [done|eauto].
  - intros j k q q' v v' Hne Hq Hq' Hv Hv'.
    at_worker Hq; at_worker Hq'; try done. eauto.
  - intros k Hk. destruct (inv_claims_status0 k Hk) as [Hl|Hr]; [left|by right].
    eapply locked_rows_insert_other; [done| |done]. done.
  - intros j q v Hq Hv. at_worker Hq; [done|eauto].
  - intros _ (r & Hr & Hpend).
    pose proof (select_pending_None _ _ Hnone r Hr Hpend) as Hl.
    apply elem_of_locked_rows in Hl as (j & v & Hj & _).
    exists j, (Locked v). split; [|done].
    rewrite list_lookup_insert_ne; [done|]. intros ->. congruence.
  - intros j q e Hq. at_worker Hq; [done|eauto].
Qed.

Lemma inv_update rows0 g g' i p p' u f :
  pool_inv rows0 g → workers g !! i = Some p → held p = Some u →
  (∀ r, URL.id (f r) = URL.id r ∧ URL.url (f r) = URL.url r ∧
        URL.status (f r) ≠ pending) →
  (∀ v, held p' = Some v →
        URL.id v = URL.id u ∧ ∀ r, URL.status (f r) = in_progress) →
  (∀ v, p' ≠ Locked v) → p' ≠ Returned → (∀ e, p' ≠ Crashed e) →
  moved g g' i p' (update_url (URL.id u) f (frontier g)) (url_counter g) (claims g) →
  pool_inv rows0 g'.
Proof.
  intros [] Hp Hh Hf Hh' Hnl Hnr Hnc (Hst & Hrows & Hnext & Hws & Hcl).
  assert (Hid : ∀ r, URL.id (f r) = URL.id r) by (intros r; apply Hf).
  assert (Hnp : ∀ r, URL.status (f r) ≠ pending) by (intros r; apply Hf).
  constructor; rewrite ?Hrows, ?Hnext, ?Hws, ?Hcl; auto.
  - intros r' [[Hr _]|(r & Hr & _ & ->)]%update_url_inv; [eauto|].
    rewrite Hid. eauto.
  - intros j q v Hq Hv. at_worker Hq; [|eauto].
    destruct (Hh' v Hv) as [-> _]. eauto.
  - intros j q v Hq Hv Hwq r' Hr' Hidr. at_worker Hq.
    + destruct (Hh' v Hv) as [Hvu Hip].
      apply update_url_inv in Hr' as [[_ Hne]|(r & _ & _ & ->)]; [congruence|].
      apply Hip.
    + assert (URL.id u ≠ URL.id v) by eauto.
      apply update_url_inv in Hr' as [[Hr' _]|(r & _ & Hru & ->)]; [eauto|].
      rewrite Hid in Hidr. congruence.
  - intros j k q q' v v' Hne Hq Hq' Hv Hv'.
    at_worker Hq; at_worker Hq'; try done.
    + destruct (Hh' v Hv) as [-> _]. eauto.
    + destruct (Hh' v' Hv') as [-> _]. eauto.
    + eauto.
  - intros k Hk.
    assert (Hright : (∀ r, r ∈ frontier g → URL.id r = k → URL.status r ≠ pending) →
      ∀ r', r' ∈ update_url (URL.id u) f (frontier g) → URL.id r' = k →
            URL.status r' ≠ pending).
    { intros Hold r' [[Hr' _]|(r & _ & _ & ->)]%update_url_inv ?; eauto. }
    destruct (inv_claims_status0 k Hk) as [Hl|Hr]; [|by right; apply Hright].
    apply elem_of_locked_rows in Hl as (j & v & Hj & <-).
    destruct (decide (j = i)) as [->|Hne].
    + right. rewrite Hp in Hj. injection Hj as ->. simpl in Hh.
      injection Hh as ->.
      intros r' [[_ Hne]|(r & _ & _ & ->)]%update_url_inv ?; [done|apply Hnp].
    + left. apply elem_of_locked_rows. exists j, v. split; [|done].
      by rewrite list_lookup_insert_ne.
  - intros j q v Hq Hv. at_worker Hq; [|eauto].
    destruct (Hh' v Hv) as [-> _]. eauto.
  - intros r' [[Hr' _]|(r & _ & Hru & ->)]%update_url_inv; [eauto|].
    right. left. rewrite Hid, Hru. apply list_elem_of_fmap.
    exists (i, URL.id u). split; [done|]. eauto.
  - intros r0 Hr0. destruct (inv_kept0 r0 Hr0) as (r & Hr & Hi & Hu).
    eexists. split; [by apply update_url_fwd|].
    case_bool_decide; [|done]. destruct (Hf r) as (-> & -> & _). done.
  - intros _ _. exists i, p'. split; [|done].
    apply list_lookup_insert_eq. by eapply lookup_lt_Some.
  - intros j q e Hq. at_worker Hq; [done|eauto].
  - intros Hnd. rewrite update_url_urls; [auto|]. intros r. apply Hf.
Qed.

Lemma inv_insert rows0 g g' i u r h todo edges edges' c :
  pool_inv rows0 g → workers g !! i = Some (Inserting u r h todo edges) →
  (h ∉ map URL.url (frontier g)) →
  moved g g' i (Discovering u r todo edges')
        (frontier g ++ [URL.mk (url_counter g) h c pending None])
        (url_counter g + 1) (claims g) →
  pool_inv rows0 g'.
Proof.
  intros [] Hp Hnew (Hst & Hrows & Hnext & Hws & Hcl).
  constructor; rewrite ?Hrows, ?Hnext, ?Hws, ?Hcl; auto.
  - intros r' [Hr' | ->%list_elem_of_singleton]%elem_of_app; simpl; [|lia].
    specialize (inv_fresh0 r' Hr'). lia.
  - intros j q v Hq Hv. at_worker Hq.
    + injection Hv as <-. specialize (inv_held_fresh0 i _ u Hp eq_refl). lia.
    + specialize (inv_held_fresh0 j q v Hq Hv). lia.
  - intros j q v Hq Hv Hwq r' [Hr' | ->%list_elem_of_singleton]%elem_of_app Hidr.
    + at_worker Hq; [|eauto]. injection Hv as <-.
      by apply (inv_working0 i _ u Hp eq_refl I).
    + simpl in Hidr. at_worker Hq.
      * injection Hv as <-. specialize (inv_held_fresh0 i _ u Hp eq_refl). lia.
      * specialize (inv_held_fresh0 j q v Hq Hv). lia.
  - intros j k q q' v v' Hne Hq Hq' Hv Hv'.
    at_worker Hq; at_worker Hq'; try done.
    + injection Hv as <-. by eapply (inv_distinct0 i k).
    + injection Hv' as <-. by eapply (inv_distinct0 j i).
    + eauto.
  - intros k Hk. specialize (inv_claims_fresh0 k Hk). lia.
  - intros k Hk. destruct (inv_claims_status0 k Hk) as [Hl|Hr].
    + left. eapply locked_rows_insert_other; [done| |done]. done.
    + right. intros r' [Hr' | ->%list_elem_of_singleton]%elem_of_app Hidr; [eauto|].
      simpl in Hidr. specialize (inv_claims_fresh0 k Hk). lia.
  - intros j q v Hq Hv. at_worker Hq; [|eauto].
    injection Hv as <-. by apply (inv_held_claimed0 i _ u Hp).
  - intros r' [Hr' | ->%list_elem_of_singleton]%elem_of_app; [eauto|]. by left.
  - intros r0 Hr0. destruct (inv_kept0 r0 Hr0) as (r1 & Hr1 & ?).
    exists r1. split; [|done]. apply elem_of_app. by left.
  - intros _ _. exists i, (Discovering u r todo edges'). split; [|done].
    apply list_lookup_insert_eq. by eapply lookup_lt_Some.
  - intros j q e Hq. at_worker Hq; [done|eauto].
  - intros Hnd. rewrite map_app. simpl. apply NoDup_app. split; [auto|]. split.
    + intros x Hx ->%list_elem_of_singleton. done.
    + apply NoDup_singleton.
Qed.

Lemma step_inv rows0 g i :
  pool_inv rows0 g → pool_inv rows0 (step W start_url mode run_id g i).
Proof.
  intros Hinv. destruct (workers g !! i) as [p|] eqn:Hp;
    [|unfold step; by rewrite Hp].
  destruct (step_unfold g i p Hp (inv_staged _ _ Hinv)) as (p' & s' & -> & Hst & Heff).
  remember (urls (db s')) as rows' eqn:Hrows.
  remember (next_url_id (db s')) as next' eqn:Hnext.
  destruct Heff as [u Hsel | Hsel | u u' f Hid Hf | p u st Hh Hw Hnp
                   | p p' u Hh Hh' Hw Hw' | u r h todo edges c Hnew | p Hhalt].
  - eapply inv_select; eauto. by repeat split.
  - eapply inv_return; eauto. by repeat split.
  - eapply (inv_update _ _ _ i (Locked u) (Claimed u') u f); eauto.
    + intros r0. destruct (Hf r0) as (? & ? & ->). done.
    + intros v [= <-]. split; [done|]. intros r0. apply Hf.
    + by repeat split.
  - eapply (inv_update _ _ _ i p AtLoop u (URL.with_status st)); eauto.
    + intros v [=].
    + repeat split; auto. simpl. by destruct p.
  - eapply (inv_local _ _ _ i p p' u); eauto. repeat split; auto. simpl.
    by destruct p, p'.
  - eapply inv_insert; eauto. by repeat split.
  - eapply inv_halt; eauto. repeat split; auto. simpl. by destruct p.
Qed.

Lemma run_schedule_inv rows0 sched g :
  pool_inv rows0 g → pool_inv rows0 (run_schedule W start_url mode run_id sched g).
Proof.
  revert g. induction sched as [|i sched IH]; intros g Hinv; [done|].
  simpl. apply IH, step_inv, Hinv.
Qed.

Lemma run_schedule_snapshots (Q : Snapshot.t → Prop) rows0 sched g :
  (∀ snap, snapshot_row mode run_id snap → Q snap) →
  pool_inv rows0 g →
  Forall Q (snapshots (db (shared g))) →
  Forall Q (snapshots (db (shared (run_schedule W start_url mode run_id sched g)))).
Proof.
  intros HQ. revert g. induction sched as [|i sched IH]; intros g Hinv Hall; [done|].
  change (run_schedule W start_url mode run_id (i :: sched) g)
    with (run_schedule W start_url mode run_id sched
            (step W start_url mode run_id g i)).
  apply IH; [by apply step_inv|].
  unfold step. destruct (workers g !! i) as [p|]; [|done].
  destruct (step_worker _ _ _ _ _ _ _) as [p' s'] eqn:Hstep. simpl.
  destruct (step_worker_snapshots W start_url mode run_id _ _ _ _ _
              (inv_staged _ _ Hinv) Hstep)
    as [->|(snap & Hrow & ->)]; [done|].
  apply Forall_app. split; [done|]. constructor; [by apply HQ|constructor].
Qed.

End PoolInv.

(** ** The claims on the pool *)

Section PoolClaims.
Context `{!Python} (W : web).
Context (start_url : string) (mode : crawl_mode) (run_id : Z).

Lemma step_inserting (locked : list Z) (u : URL.t) (r : rendered) (h : string)
    (todo : list string) (edges : list (Z * Z)) (s : state) :
  staged s = [] →
  step_worker W start_url mode run_id locked (Inserting u r h todo edges) s =
  if decide (h ∈ map URL.url (urls (db s)))
  then (AtLoop,
        add_trace [EvPageClose]
          (finish u error
             (error_snapshot mode run_id u (integrity_error h) s) [] s))
  else (Discovering u r todo (edges ++ [(URL.id u, next_url_id (db s))]),
        set_db (add_rows [new_row start_url (db s) h] (db s)) s).
Proof.
  intros Hst. simpl. unfold guarded, unguarded.
  destruct (decide (h ∈ map URL.url (urls (db s)))) as [Hdup|Hnew].
  - rewrite add_url_and_commit_dup by done. rewrite handle_spec. reflexivity.
  - rewrite add_url_and_commit_fresh by done. reflexivity.
Qed.

Lemma step_discovering (locked : list Z) (u : URL.t) (r : rendered) (h : string)
    (todo : list string) (edges : list (Z * Z)) (s : state) :
  step_worker W start_url mode run_id locked (Discovering u r (h :: todo) edges) s =
  (if keeps u h then
     match lookup_url h (urls (db s)) with
     | Some t => Discovering u r todo (edges ++ [(URL.id u, URL.id t)])
     | None => Inserting u r h todo edges
     end
   else Discovering u r todo edges, s).
Proof.
  simpl. unfold keeps. destruct (decide (h = URL.url u)) as [Heq|Hne].
  - rewrite bool_decide_eq_false_2 by naive_solver. reflexivity.
  - rewrite bool_decide_eq_true_2 by done. simpl.
    destruct (is_http (urlparse h)); [|reflexivity].
    unfold guarded, scalar_url. by destruct (lookup_url h (urls (db s))).
Qed.

Lemma run_schedule_length (sched : list nat) (g : pool) :
  length (workers (run_schedule W start_url mode run_id sched g))
  = length (workers g).
Proof.
  revert g. induction sched as [|i sched IH]; intros g; [done|].
  change (run_schedule W start_url mode run_id (i :: sched) g)
    with (run_schedule W start_url mode run_id sched
            (step W start_url mode run_id g i)).
  rewrite IH. unfold step.
  destruct (workers g !! i); [|done].
  destruct (step_worker _ _ _ _ _ _ _). simpl. apply length_insert.
Qed.

Lemma steps_app (n m : nat) (p : pc) (s : state) :
  steps W start_url mode run_id (n + m) p s =
  let '(p', s') := steps W start_url mode run_id n p s in
  steps W start_url mode run_id m p' s'.
Proof.
  revert p s. induction n as [|n IH]; intros p s; simpl; [done|].
  destruct (step_worker _ _ _ _ _ _ _) as [p' s']. apply IH.
Qed.

Lemma steps_discovering (u : URL.t) (r : rendered) (todo : list string) :
  ∀ (edges : list (Z * Z)) (s : state),
    staged s = [] →
    ∃ n edges' s',
      for_each (visit_href start_url u) todo edges s = (Ok edges', s') ∧
      staged s' = [] ∧
      steps W start_url mode run_id n (Discovering u r todo edges) s
      = (Discovering u r [] edges', s').
Proof.
  induction todo as [|h todo IH]; intros edges s Hst.
  - exists 0%nat, edges, s. done.
  - rewrite for_each_cons, visit_href_spec by done.
    destruct (keeps u h) eqn:Hk.
    + destruct (lookup_url h (urls (db s))) as [t|] eqn:Hlk.
      * destruct (IH (edges ++ [(URL.id u, URL.id t)]) s Hst)
          as (n & edges' & s' & Hrun & Hst' & Hsteps).
        exists (S n), edges', s'. split; [done|]. split; [done|].
        cbn [steps]. rewrite step_discovering, Hk, Hlk. done.
      * set (s1 := set_db (add_rows [new_row start_url (db s) h] (db s)) s).
        destruct (IH (edges ++ [(URL.id u, next_url_id (db s))]) s1 Hst)
          as (n & edges' & s' & Hrun & Hst' & Hsteps).
        exists (S (S n)), edges', s'. split; [done|]. split; [done|].
        cbn [steps]. rewrite step_discovering, Hk, Hlk.
        rewrite step_inserting by done.
        apply lookup_url_None in Hlk. rewrite decide_False by done. done.
    + destruct (IH edges s Hst) as (n & edges' & s' & Hrun & Hst' & Hsteps).
      exists (S n), edges', s'. split; [done|]. split; [done|].
      cbn [steps]. rewrite step_discovering, Hk. done.
Qed.

(** A worker that moves alone from its claim back to the head of its loop
    has done what [process] does. *)
Lemma solo_attempt (u : URL.t) (s : state) :
  staged s = [] →
  ∃ n s', process W start_url mode run_id u s = (Ok (), s') ∧
          steps W start_url mode run_id n (Claimed u) s = (AtLoop, s').
Proof.
  intros Hst. unfold process.
  destruct (decide (URL.category u = external)) as [Hext|Hint].
  - rewrite fetch_status_spec by done. eexists 1%nat, _. split; [reflexivity|].
    cbn [steps step_worker]. rewrite decide_True by done.
    unfold unguarded. rewrite fetch_status_spec by done. done.
  - unfold fetch_page, try_body, new_page, page_close.
    unfold try_finally, try_except, mbind, M_bind, emit. simpl.
    change (State (db s) (staged s) (trace s ++ [EvNewPage]) (clock s))
      with (add_trace [EvNewPage] s).
    destruct (render W u (add_trace [EvNewPage] s)) as [[r|e] s1] eqn:Hrender.
    + destruct (render_spec W u (add_trace [EvNewPage] s)) as (tr & Hr & _).
      rewrite Hrender in Hr. injection Hr as _ ->.
      set (s1 := add_trace tr (add_trace [EvNewPage] s)) in *.
      destruct (steps_discovering u r (set_iter (r_hrefs r)) [] s1 Hst)
        as (n & edges & s2 & Hrun & Hst2 & Hsteps).
      unfold discover. rewrite Hrun.
      destruct (record_snapshot W mode run_id u r edges s2) as [[[]|e] s3] eqn:Hrec.
      * eexists (1 + (n + 1))%nat, _. split; [reflexivity|].
        rewrite (steps_app 1). cbn [steps step_worker].
        rewrite decide_False by done. unfold guarded.
        change (new_page s) with (Ok (), add_trace [EvNewPage] s).
        cbn iota. rewrite Hrender. rewrite steps_app, Hsteps.
        cbn [steps step_worker]. unfold unguarded, try_finally, try_except.
        rewrite Hrec. done.
      * rewrite record_error_spec.
        eexists (1 + (n + 1))%nat, _. split; [reflexivity|].
        rewrite (steps_app 1). cbn [steps step_worker].
        rewrite decide_False by done. unfold guarded.
        change (new_page s) with (Ok (), add_trace [EvNewPage] s).
        cbn iota. rewrite Hrender. rewrite steps_app, Hsteps.
        cbn [steps step_worker]. unfold unguarded, try_finally, try_except.
        rewrite Hrec, record_error_spec. done.
    + rewrite record_error_spec.
      eexists 1%nat, _. split; [reflexivity|].
      cbn [steps step_worker]. rewrite decide_False by done.
      unfold guarded, unguarded.
      change (new_page s) with (Ok (), add_trace [EvNewPage] s).
      cbn iota. rewrite Hrender, handle_spec. done.
Qed.






End PoolClaims.

(** * Runs on concrete webs *)

Lemma two_externals_fresh :
  ∀ r, r ∈ urls two_externals → URL.id r < next_url_id two_externals.
Proof.
  intros r Hr. simpl in Hr.
  repeat (apply elem_of_cons in Hr as [->|Hr]; [simpl; lia|]).
  by apply elem_of_nil in Hr.
Defined.

Lemma two_pages_fresh :
  ∀ r, r ∈ urls two_pages → URL.id r < next_url_id two_pages.
Proof.
  intros r Hr. simpl in Hr.
  repeat (apply elem_of_cons in Hr as [->|Hr]; [simpl; lia|]).
  by apply elem_of_nil in Hr.
Defined.

Example seed_then_crawl :
  let s := (seed home (State empty_store [] [] 0)).2 in
  let s' := (worker demo_web home desktop 7 1 s).2 in
  map (λ r, (URL.url r, URL.category r, URL.status r)) (urls (db s')) =
    [(home, internal, done); ("http://other.test/", external, pending);
     ("http://a.test/b", internal, pending)] ∧
  map (λ l, (Link.source_id l, Link.target_id l, Link.snapshot_id l)) (links (db s')) =
    [(1, 2, 1); (1, 3, 1)].
Proof. vm_compute. done. Qed.





Lemma external_status_only_witness :
  staged at_other = [] ∧ URL.category other_row = external ∧
  ∃ s' snap,
    process demo_web home desktop 7 other_row at_other = (Ok (), s') ∧
    trace s' = trace at_other ++ [EvRequestGet "http://down.test/" 30000] ∧
    snapshots (db s') = snapshots (db at_other) ++ [snap] ∧
    Snapshot.content_hash snap = None ∧
    status_xor_error snap.
Proof.
  split; [reflexivity|]. split; [reflexivity|].
  destruct (external_status_only demo_web home desktop 7 other_row at_other
              eq_refl eq_refl)
    as (s' & snap & Hrun & Htr & Hsnap & _ & Hhash & _ & Hxor & _).
  exists s', snap. auto.
Defined.


Example link_extraction_run :
  (discover home home_row
     ["http://a.test/b"; "http://other.test/"; "mailto:x@a.test";
      "http://a.test/"; "http://a.test/b"] at_home).1
  = Ok [(1, 2); (1, 3)].
Proof. vm_compute. reflexivity. Qed.








(** * Further properties *)

(** ** Seeding *)

Lemma lookup_url_update (h : string) (i : Z) (f : URL.t → URL.t) (rows : list URL.t) :
  (∀ r, URL.url (f r) = URL.url r) →
  lookup_url h (update_url i f rows) =
  (λ r, if bool_decide (URL.id r = i) then f r else r) <$> lookup_url h rows.
Proof.
  intros Hf. unfold lookup_url, update_url.
  induction rows as [|x rows IH]; simpl; [done|].
  assert (Hx : URL.url (if bool_decide (URL.id x = i) then f x else x) = URL.url x).
  { destruct (bool_decide (URL.id x = i)); [apply Hf | done]. }
  rewrite Hx. destruct (bool_decide (URL.url x = h)); [done | apply IH].
Qed.

Section SeedFacts.
Context `{!Python} (start_url : string).

Lemma seed_spec (s : state) :
  staged s = [] →
  seed start_url s =
  (Ok (),
   match lookup_url start_url (urls (db s)) with
   | Some r => set_db (set_urls (update_url (URL.id r) reset_row (urls (db s))) (db s)) s
   | None =>
       set_db (add_rows [URL.mk (next_url_id (db s)) start_url internal pending None]
                 (db s)) s
   end).
Proof.
  intros Hst. unfold seed, mbind, M_bind, scalar_url.
  destruct (lookup_url start_url (urls (db s))) as [r|] eqn:Hlk.
  - unfold stage, commit. simpl. rewrite Hst. simpl.
    rewrite update_url_compose by (intros []; done).
    unfold set_db, set_urls. simpl. rewrite Hst. reflexivity.
  - apply lookup_url_None in Hlk.
    unfold stage, commit. simpl. rewrite Hst. simpl.
    rewrite bool_decide_eq_false_2 by done.
    unfold set_db, add_rows. simpl. rewrite Hst. reflexivity.
Qed.

(** X1 ([crawl], lines 52-58): seeding a start URL that the frontier already
    holds resets that row: it is [pending] again with no [last_attempt], and
    keeps its id, URL and category.  No row is added, every other row, every
    snapshot, every link and the id counter are as before, nothing is left
    staged, and no exception is raised. *)
Theorem seed_resets_existing (s : state) (r : URL.t) :
  staged s = [] →
  lookup_url start_url (urls (db s)) = Some r →
  ∃ s',
    seed start_url s = (Ok (), s') ∧
    staged s' = [] ∧
    lookup_url start_url (urls (db s')) =
      Some (URL.mk (URL.id r) start_url (URL.category r) pending None) ∧
    length (urls (db s')) = length (urls (db s)) ∧
    (∀ x, x ∈ urls (db s) → URL.id x ≠ URL.id r → x ∈ urls (db s')) ∧
    snapshots (db s') = snapshots (db s) ∧
    links (db s') = links (db s) ∧
    next_url_id (db s') = next_url_id (db s).
Proof.
  intros Hst Hlk. rewrite seed_spec, Hlk by done.
  eexists. split; [reflexivity|]. simpl. split_and!; try done.
  - rewrite lookup_url_update, Hlk by done. simpl.
    rewrite bool_decide_eq_true_2 by done.
    destruct (lookup_url_Some _ _ _ Hlk) as [_ <-]. done.
  - unfold update_url. by rewrite length_map.
  - intros x Hx Hne. by apply update_url_other.
Qed.


Lemma update_url_id_same (i : Z) (f : URL.t → URL.t) (rows : list URL.t) :
  (∀ r, r ∈ rows → URL.id r = i → f r = r) →
  update_url i f rows = rows.
Proof.
  intros Hf. unfold update_url. rewrite <- (map_id rows) at 2.
  apply map_ext_in. intros r Hr%list_elem_of_In.
  case_bool_decide; [by apply Hf | done].
Qed.

End SeedFacts.

(** ** Waits, discovery and the worker loop *)

Lemma wait_ignoring_timeout_same (what : string) (timeout : Z)
    (o o' : wait_outcome) (s : state) :
  same_wait o o' →
  wait_ignoring_timeout what timeout o s = wait_ignoring_timeout what timeout o' s.
Proof.
  unfold wait_ignoring_timeout. destruct o, o'; simpl; try done. by intros ->.
Qed.

Section Timeouts.
Context `{!Python} (W W' : web).
Context (start_url : string) (mode : crawl_mode) (run_id : Z).
Hypothesis Hsame : same_but_timeouts W W'.

Lemma render_same (u : URL.t) (s : state) : render W u s = render W' u s.
Proof.
  destruct (Hsame (URL.url u)) as (_ & Hg & Hl & Hn & Ht & Ha & _).
  unfold render, page_goto, wait_for_full_load, wait_ignoring_timeout.
  destruct (page_of W (URL.url u)) as [g l n t a h],
           (page_of W' (URL.url u)) as [g' l' n' t' a' h'].
  simpl in *. subst g' t' a'.
  unfold mbind, M_bind, mret, M_ret, emit, of_result, raise. simpl.
  destruct g as [resp|e]; simpl; [|done].
  destruct l, l'; simpl in Hl; try done; subst;
    destruct n, n'; simpl in Hn; try done; subst; reflexivity.
Qed.

Lemma step_worker_same (locked : list Z) (p : pc) (s : state) :
  step_worker W start_url mode run_id locked p s
  = step_worker W' start_url mode run_id locked p s.
Proof.
  destruct p as [|u|u|u r todo edges|u r h todo edges| |e]; simpl; try done.
  - destruct (decide (URL.category u = external)).
    + unfold unguarded, fetch_status, request_get.
      destruct (Hsame (URL.url u)) as (-> & _). done.
    + unfold guarded. by rewrite render_same.
  - destruct todo as [|h todo]; [|done].
    unfold record_snapshot. destruct (Hsame (URL.url u)) as (_ & _ & _ & _ & _ & _ & ->).
    done.
Qed.

Lemma process_same (u : URL.t) (s : state) :
  process W start_url mode run_id u s = process W' start_url mode run_id u s.
Proof.
  unfold process, fetch_status, request_get, fetch_page, try_body, record_snapshot.
  destruct (Hsame (URL.url u)) as (-> & _ & _ & _ & _ & _ & ->).
  destruct (decide _); [done|].
  unfold mbind, M_bind. destruct (new_page s) as [[[]|e] s1]; [|done].
  unfold try_finally, try_except. by rewrite render_same.
Qed.


End Timeouts.

Section Sequential.
Context `{!Python} (W : web).
Context (start_url : string) (mode : crawl_mode) (run_id : Z).

(** Links whose rows the store already holds are read, not written. *)
Lemma for_each_visit_known (u : URL.t) (hs : list string) (s : state) :
  staged s = [] →
  ∀ acc edges,
    Forall2 (edge_of u (urls (db s))) (List.filter (keeps u) hs) edges →
    for_each (visit_href start_url u) hs acc s = (Ok (acc ++ edges), s).
Proof.
  intros Hst. induction hs as [|h hs IH]; intros acc edges Hedges.
  - simpl in Hedges. apply Forall2_nil_inv_l in Hedges as ->.
    simpl. by rewrite app_nil_r.
  - rewrite for_each_cons, (visit_href_spec start_url) by done.
    simpl in Hedges. destruct (keeps u h) eqn:Hk.
    + apply Forall2_cons_inv_l in Hedges as (e & edges' & (t & Hlk & ->) & Hrest & ->).
      rewrite Hlk. rewrite (IH _ _ Hrest). by rewrite <- app_assoc.
    + by apply IH.
Qed.


Lemma step_worker_unlocked (locked : list Z) (p : pc) (s : state) :
  p ≠ AtLoop →
  step_worker W start_url mode run_id locked p s
  = step_worker W start_url mode run_id [] p s.
Proof. by destruct p. Qed.


End Sequential.

(** ** The pool: what a step does to the whole store *)

Section DeltaFacts.
Context `{!Python} (W : web).
Context (start_url : string) (mode : crawl_mode) (run_id : Z).

Lemma step_worker_delta (locked : list Z) (p p' : pc) (s s' : state) :
  staged s = [] →
  step_worker W start_url mode run_id locked p s = (p', s') →
  staged s' = [] ∧ clock s ≤ clock s' ∧ trace s `prefix_of` trace s' ∧
  delta W start_url mode run_id locked (db s) p p' (db s').
Proof.
  intros Hst Hstep. destruct p as [|u|u|u r todo edges|u r h todo edges| |e];
    simpl in Hstep.
  - unfold unguarded, select_for_update in Hstep.
    destruct (select_pending locked (urls (db s))) as [u|] eqn:Hsel;
      injection Hstep as <- <-; split_and!; auto; try done; by constructor.
  - unfold unguarded in Hstep.
    rewrite (commit_claim_spec start_url) in Hstep by done.
    injection Hstep as <- <-. split_and!; [done|simpl; lia|done|]. simpl.
    rewrite !update_url_compose by (intros []; done).
    apply (d_claim W start_url mode run_id locked (db s) u (clock s)).
  - destruct (decide (URL.category u = external)).
    + unfold unguarded in Hstep. rewrite fetch_status_spec in Hstep by done.
      injection Hstep as <- <-. split_and!; [done|simpl; lia|simpl; by apply prefix_app_r|].
      apply d_status; try done. apply row_status.
    + simpl in Hstep. unfold guarded, unguarded in Hstep.
      destruct (render_spec W u (add_trace [EvNewPage] s)) as (tr & Hrender & _).
      change (State (db s) (staged s) (trace s ++ [EvNewPage]) (clock s))
        with (add_trace [EvNewPage] s) in Hstep.
      rewrite Hrender in Hstep.
      destruct (rendering (page_of W (URL.url u))) as [r|e] eqn:Hr.
      * injection Hstep as <- <-. split_and!; [done|simpl; lia| |by constructor].
        simpl. rewrite <- app_assoc. by apply prefix_app_r.
      * rewrite handle_spec in Hstep. injection Hstep as <- <-.
        split_and!; [done|simpl; lia| |].
        { simpl. rewrite <- !app_assoc. by apply prefix_app_r. }
        apply (d_error W start_url mode run_id locked _ (Claimed u) u); try done.
        apply row_error.
  - destruct todo as [|h todo].
    + unfold unguarded, try_finally, try_except in Hstep.
      rewrite record_snapshot_spec in Hstep by done.
      destruct (html (page_of W (URL.url u))) as [c|e].
      * unfold page_close, emit in Hstep. injection Hstep as <- <-.
        split_and!; [done|simpl; lia| |].
        { simpl. rewrite <- !app_assoc. by apply prefix_app_r. }
        apply d_page; try done. apply row_page.
      * rewrite record_error_spec in Hstep.
        unfold page_close, emit in Hstep. injection Hstep as <- <-.
        split_and!; [done|simpl; lia| |].
        { simpl. rewrite <- !app_assoc. by apply prefix_app_r. }
        apply (d_error W start_url mode run_id locked _ (Discovering u r [] edges) u);
          try done.
        apply (row_error mode run_id u e (add_trace [EvContent] s)).
    + pose proof (step_discovering W start_url mode run_id locked u r h todo edges s)
        as Hd. simpl in Hd. rewrite Hd in Hstep. clear Hd.
      destruct (keeps u h) eqn:Hk.
      * destruct (lookup_url h (urls (db s))) eqn:Hlk; injection Hstep as <- <-;
          split_and!; try done; by constructor.
      * injection Hstep as <- <-. split_and!; try done. by constructor.
  - pose proof (step_inserting W start_url mode run_id locked u r h todo edges s Hst)
      as Hi. simpl in Hi. rewrite Hi in Hstep. clear Hi.
    destruct (decide (h ∈ map URL.url (urls (db s)))) as [Hdup|Hnew].
    + injection Hstep as <- <-. split_and!; [done|simpl; lia|simpl; by apply prefix_app_r|].
      apply (d_error W start_url mode run_id locked _ (Inserting u r h todo edges) u);
        try done.
      apply row_error.
    + injection Hstep as <- <-. split_and!; try done. by constructor.
  - injection Hstep as <- <-. split_and!; try done. by apply d_halt.
  - injection Hstep as <- <-. split_and!; try done. by apply d_halt.
Qed.

End DeltaFacts.

(** ** The pool: keys and link graph *)

Lemma ids_update_url (i : Z) (f : URL.t → URL.t) (rows : list URL.t) :
  (∀ r, URL.id (f r) = URL.id r) →
  map URL.id (update_url i f rows) = map URL.id rows.
Proof.
  intros Hf. unfold update_url. rewrite map_map. apply map_ext. intros r.
  case_bool_decide; [apply Hf | done].
Qed.

Lemma NoDup_map_inj {A B : Type} (f : A → B) (l : list A) (x y : A) :
  NoDup (map f l) → x ∈ l → y ∈ l → f x = f y → x = y.
Proof.
  induction l as [|a l IH]; simpl; intros Hnd Hx Hy Hxy.
  - by apply elem_of_nil in Hx.
  - apply NoDup_cons in Hnd as [Ha Hnd].
    apply elem_of_cons in Hx as [->|Hx]; apply elem_of_cons in Hy as [->|Hy]; auto.
    + exfalso. apply Ha. rewrite Hxy. apply list_elem_of_fmap. eauto.
    + exfalso. apply Ha. rewrite <- Hxy. apply list_elem_of_fmap. eauto.
Qed.

Lemma elem_of_link_rows (first snap : Z) (edges : list (Z * Z)) (l : Link.t) :
  l ∈ link_rows first snap edges →
  first ≤ Link.id l < first + Z.of_nat (length edges) ∧
  Link.snapshot_id l = snap ∧
  (Link.source_id l, Link.target_id l) ∈ edges.
Proof.
  revert first. induction edges as [|[src tgt] edges IH]; intros first; simpl.
  - intros Hl. by apply elem_of_nil in Hl.
  - intros [->|Hl]%elem_of_cons.
    + simpl. split; [lia|]. split; [done|]. by left.
    + destruct (IH _ Hl) as (? & ? & ?). split; [lia|]. split; [done|]. by right.
Qed.

Lemma NoDup_link_rows (first snap : Z) (edges : list (Z * Z)) :
  NoDup (map Link.id (link_rows first snap edges)).
Proof.
  revert first. induction edges as [|[src tgt] edges IH]; intros first; simpl.
  - constructor.
  - apply NoDup_cons. split; [|apply IH].
    intros (l & Hid & Hl)%list_elem_of_fmap. simpl in Hid.
    apply elem_of_link_rows in Hl as (? & _). lia.
Qed.

Lemma pc_ok_grows (σ σ' : store) (p : pc) :
  (∀ r, r ∈ urls σ → ∃ r', r' ∈ urls σ' ∧ URL.id r' = URL.id r ∧ URL.url r' = URL.url r) →
  pc_ok σ p → pc_ok σ' p.
Proof.
  intros Hgrow Hp u Hu. destruct (Hp u Hu) as [(r & Hr & Hid & Hurl) Hedges].
  split.
  - destruct (Hgrow r Hr) as (r' & ? & ? & ?). exists r'. split_and!; congruence.
  - intros e He. destruct (Hedges e He) as (? & (t & -> & Ht)%list_elem_of_fmap & Hne).
    split_and!; try done.
    destruct (Hgrow t Ht) as (t' & ? & <- & _). apply list_elem_of_fmap. eauto.
Qed.

Lemma update_url_grows (i : Z) (f : URL.t → URL.t) (rows : list URL.t) :
  (∀ r, URL.id (f r) = URL.id r ∧ URL.url (f r) = URL.url r) →
  ∀ r, r ∈ rows →
    ∃ r', r' ∈ update_url i f rows ∧ URL.id r' = URL.id r ∧ URL.url r' = URL.url r.
Proof.
  intros Hf r Hr. eexists. split; [by apply update_url_fwd|].
  case_bool_decide; [apply Hf | done].
Qed.

Section PoolKeys.
Context `{!Python} (W : web).
Context (start_url : string) (mode : crawl_mode) (run_id : Z).

(** A finished attempt keeps the keys and the graph. *)
Lemma finished_ok (σ : store) (p : pc) (u : URL.t) (st : url_status)
    (snap : Snapshot.t) (ls : list Link.t) :
  keys_ok σ → pc_ok σ p → held p = Some u →
  Snapshot.id snap = next_snapshot_id σ →
  Snapshot.url_id snap = URL.id u →
  (ls = [] ∨
   ls = link_rows (next_link_id σ) (next_snapshot_id σ) (edges_of p) ∧
   is_Some (Snapshot.content snap) ∧ Snapshot.error_message snap = None) →
  keys_ok (finished u st snap ls σ) ∧
  (graph_ok σ → graph_ok (finished u st snap ls σ)).
Proof.
  intros [] Hp Hu Hid Hurl Hls.
  destruct (Hp u Hu) as [(r & Hr & Hrid & _) Hedges].
  assert (Hids : map URL.id (update_url (URL.id u) (URL.with_status st) (urls σ))
                 = map URL.id (urls σ)) by (by apply ids_update_url).
  assert (Hl : ∀ l, l ∈ ls →
    next_link_id σ ≤ Link.id l < next_link_id σ + Z.of_nat (length ls) ∧
    Link.snapshot_id l = Snapshot.id snap ∧
    Link.source_id l = URL.id u ∧
    Link.target_id l ∈ map URL.id (urls σ) ∧
    Link.target_id l ≠ URL.id u ∧
    is_Some (Snapshot.content snap) ∧ Snapshot.error_message snap = None).
  { intros l Hl. destruct Hls as [->|(-> & ? & ?)]; [by apply elem_of_nil in Hl|].
    assert (Hlen : ∀ z k es, length (link_rows z k es) = length es).
    { clear. intros z k es. revert z. induction es as [|[a b] es IH]; intros z0;
        simpl; auto. }
    rewrite Hlen.
    apply elem_of_link_rows in Hl as (? & ? & He).
    destruct (Hedges _ He) as (? & ? & ?). simpl in *.
    split_and!; auto; try lia; congruence. }
  assert (Hnd : NoDup (map Link.id ls)).
  { destruct Hls as [->|(-> & _)]; [constructor | apply NoDup_link_rows]. }
  split; [|intros []]; constructor; simpl; rewrite ?Hids; auto.
  - rewrite map_app. apply NoDup_app. split; [done|]. split; [|repeat constructor; set_solver].
    intros k Hk [->|[]%elem_of_nil]%elem_of_cons.
    apply snapshot_fresh0 in Hk. lia.
  - intros k. rewrite map_app. intros [Hk|[->|[]%elem_of_nil]%elem_of_cons]%elem_of_app.
    + apply snapshot_fresh0 in Hk. lia.
    + lia.
  - rewrite map_app. apply NoDup_app. split; [done|]. split; [|done].
    intros k Hk (l & -> & Hin)%list_elem_of_fmap.
    apply link_fresh0 in Hk. apply Hl in Hin. lia.
  - intros k. rewrite map_app. intros [Hk|(l & -> & Hin)%list_elem_of_fmap]%elem_of_app.
    + apply link_fresh0 in Hk. lia.
    + apply Hl in Hin. lia.
  - intros x [Hx|[->|[]%elem_of_nil]%elem_of_cons]%elem_of_app; [auto|].
    rewrite Hurl, <- Hrid. apply list_elem_of_fmap. eauto.
  - intros l [Hin|Hin]%elem_of_app; [auto|].
    apply Hl in Hin as (_ & _ & -> & _). rewrite <- Hrid. apply list_elem_of_fmap. eauto.
  - intros l [Hin|Hin]%elem_of_app; [auto|]. by apply Hl in Hin as (_ & _ & _ & ? & _).
  - intros l. rewrite map_app. intros [Hin|Hin]%elem_of_app.
    + apply elem_of_app. left. auto.
    + apply Hl in Hin as (_ & -> & _). apply elem_of_app. right. by left.
  - intros l [Hin|Hin]%elem_of_app.
    + destruct (link_of_page0 l Hin) as (x & ? & ? & ? & ? & ?).
      exists x. split_and!; auto. apply elem_of_app. by left.
    + apply Hl in Hin as (_ & ? & ? & _ & _ & ? & ?).
      exists snap. split_and!; auto; [|congruence]. apply elem_of_app. right. by left.
  - intros l [Hin|Hin]%elem_of_app; [auto|].
    apply Hl in Hin as (_ & _ & -> & _ & ? & _). congruence.
Qed.

Lemma delta_ok (locked : list Z) (σ σ' : store) (p p' : pc) :
  delta W start_url mode run_id locked σ p p' σ' →
  keys_ok σ → pc_ok σ p →
  keys_ok σ' ∧ (graph_ok σ → graph_ok σ') ∧ pc_ok σ' p' ∧
  (∀ q, pc_ok σ q → pc_ok σ' q).
Proof.
  intros Hd Hk Hp.
  destruct Hd as [u Hsel | Hsel | u t cat | u r Hint Hr | u r h todo edges Hkeep
                 | u r h todo edges t Hkeep Hlk | u r h todo edges Hkeep Hlk
                 | u r h todo edges Hnew | u snap Hext Hrow Hid Hurl
                 | u r edges snap Hrow Hid Hurl Hcontent
                 | p u snap Hheld Hw Hrow Hid Hurl Herr | p Hh].
  - split_and!; auto. intros u' [= <-]. split; [|intros e []%elem_of_nil].
    apply select_pending_Some in Hsel as (? & _). eauto.
  - split_and!; auto.
  - set (f := λ r : URL.t, URL.mk (URL.id r) (URL.url r) cat in_progress (Some t)).
    assert (Hids : map URL.id (update_url (URL.id u) f (urls σ)) = map URL.id (urls σ))
      by (by apply ids_update_url).
    assert (Hgrow : ∀ q, pc_ok σ q → pc_ok (set_urls (update_url (URL.id u) f (urls σ)) σ) q).
    { intros q. apply pc_ok_grows. simpl. by apply update_url_grows. }
    split_and!; auto.
    + destruct Hk. constructor; simpl; rewrite ?Hids; auto.
    + intros []. constructor; simpl; auto.
    + intros u' [= <-]. simpl. split; [|intros e []%elem_of_nil].
      destruct (Hgrow _ Hp u eq_refl) as [? _]. done.
  - split_and!; auto.
  - split_and!; auto.
  - split_and!; auto. intros u' [= <-]. destruct (Hp u eq_refl) as [Hrow Hedges].
    split; [done|]. simpl. intros e [He|[->|[]%elem_of_nil]%elem_of_cons]%elem_of_app;
      [by apply Hedges|]. simpl.
    apply lookup_url_Some in Hlk as [Ht Hturl].
    split_and!; [done|apply list_elem_of_fmap; eauto|].
    destruct Hrow as (r0 & Hr0 & Hr0id & Hr0url). intros Heq.
    assert (t = r0).
    { apply (NoDup_map_inj URL.id (urls σ)); [apply Hk|done|done|congruence]. }
    subst t. unfold keeps in Hkeep. apply andb_true_iff in Hkeep as [Hne _].
    apply bool_decide_eq_true in Hne. congruence.
  - split_and!; auto.
  - assert (Hgrow : ∀ q, pc_ok σ q → pc_ok (add_rows [new_row start_url σ h] σ) q).
    { intros q. apply pc_ok_grows. simpl. intros r0 Hr0. exists r0.
      split; [|done]. apply elem_of_app. by left. }
    destruct (Hp u eq_refl) as [(r0 & Hr0 & Hr0id & Hr0url) Hedges].
    split_and!; auto.
    + destruct Hk. constructor; simpl; auto.
      * rewrite map_app. apply NoDup_app. split; [done|].
        split; [|repeat constructor; set_solver].
        intros k Hk' [->|[]%elem_of_nil]%elem_of_cons. apply url_fresh0 in Hk'.
        simpl in Hk'. lia.
      * intros k. rewrite map_app.
        intros [Hk'|[->|[]%elem_of_nil]%elem_of_cons]%elem_of_app; [|simpl; lia].
        apply url_fresh0 in Hk'. lia.
      * intros x Hx. rewrite map_app. apply elem_of_app. left. auto.
      * intros x Hx. rewrite map_app. apply elem_of_app. left. auto.
      * intros x Hx. rewrite map_app. apply elem_of_app. left. auto.
    + intros []. constructor; simpl; auto.
    + intros u' [= <-]. destruct (Hgrow _ Hp u eq_refl) as [Hrow' Hedges'].
      split; [done|]. simpl.
      intros e [He|[->|[]%elem_of_nil]%elem_of_cons]%elem_of_app; [by apply Hedges'|].
      simpl. split_and!; [done| |].
      * rewrite map_app. apply elem_of_app. right. by left.
      * assert (URL.id r0 < next_url_id σ).
        { apply Hk, list_elem_of_fmap. eauto. }
        lia.
  - destruct (finished_ok σ (Claimed u) u done snap [] Hk Hp eq_refl Hid Hurl)
      as [? ?]; [by left|].
    split_and!; auto; [by intros u' [=]|].
    intros q. apply pc_ok_grows. simpl. apply update_url_grows. by intros [].
  - destruct (finished_ok σ (Discovering u r [] edges) u done snap
                (link_rows (next_link_id σ) (next_snapshot_id σ) edges)
                Hk Hp eq_refl Hid Hurl) as [? ?].
    { right. destruct Hcontent. done. }
    split_and!; auto; [by intros u' [=]|].
    intros q. apply pc_ok_grows. simpl. apply update_url_grows. by intros [].
  - destruct (finished_ok σ p u error snap [] Hk Hp Hheld Hid Hurl) as [? ?];
      [by left|].
    split_and!; auto; [by intros u' [=]|].
    intros q. apply pc_ok_grows. simpl. apply update_url_grows. by intros [].
  - split_and!; auto.
Qed.

Lemma step_ok (g : pool) (i : nat) :
  pool_ok g →
  pool_ok (step W start_url mode run_id g i) ∧
  (graph_ok (db (shared g)) →
   graph_ok (db (shared (step W start_url mode run_id g i)))).
Proof.
  intros [Hst Hk Hpcs]. unfold step.
  destruct (workers g !! i) as [p|] eqn:Hp; [|by split].
  destruct (step_worker W start_url mode run_id (locked_rows (workers g)) p (shared g))
    as [p' s'] eqn:Hstep.
  destruct (step_worker_delta W start_url mode run_id _ _ _ _ _ Hst Hstep)
    as (Hst' & _ & _ & Hd).
  destruct (delta_ok _ _ _ _ _ Hd Hk (Hpcs _ _ Hp)) as (Hk' & Hg' & Hp' & Hothers).
  split; [|done]. constructor; simpl; auto.
  intros j q [[-> ->]|[_ Hq]]%lookup_insert_cases; eauto.
Qed.

Lemma run_schedule_ok (sched : list nat) (g : pool) :
  pool_ok g →
  pool_ok (run_schedule W start_url mode run_id sched g) ∧
  (graph_ok (db (shared g)) →
   graph_ok (db (shared (run_schedule W start_url mode run_id sched g)))).
Proof.
  revert g. induction sched as [|i sched IH]; intros g Hok; [done|].
  destruct (step_ok g i Hok) as [Hok' Hg'].
  destruct (IH _ Hok') as [? ?]. simpl. split; auto.
Qed.

Lemma idle_pool_ok (n : nat) (s : state) :
  staged s = [] → keys_ok (db s) → pool_ok (Pool s (replicate n AtLoop) []).
Proof.
  intros Hst Hk. constructor; simpl; auto.
  intros i p [-> _]%lookup_replicate u [=].
Qed.

(** X7 ([db_manager.py], lines 26-95, with the writes of [worker]): the
    crawler never breaks a key of the schema.  From a store in which the ids
    of [urls], [snapshots] and [links] are unique and below their counters
    and in which [snapshots.url_id], [links.source_id], [links.target_id] and
    [links.snapshot_id] point to existing rows, any number of workers under
    any schedule leave a store of which the same holds. *)
Theorem schema_keys_preserved (n : nat) (σ : store) (sched : list nat) :
  keys_ok σ →
  keys_ok (db (shared (run_schedule W start_url mode run_id sched (start_pool n σ)))).
Proof.
  intros Hk. apply run_schedule_ok. by apply idle_pool_ok.
Qed.


End PoolKeys.

(** ** The pool: history *)

Lemma row_key_update_url (i : Z) (f : URL.t → URL.t) (rows : list URL.t) :
  (∀ r, URL.id (f r) = URL.id r ∧ URL.url (f r) = URL.url r) →
  map row_key (update_url i f rows) = map row_key rows.
Proof.
  intros Hf. unfold update_url. rewrite map_map. apply map_ext. intros r.
  case_bool_decide; [|done]. unfold row_key. by destruct (Hf r) as [-> ->].
Qed.

Lemma extends_refl (σ : store) : extends σ σ.
Proof. constructor; done. Qed.

Lemma extends_trans (σ1 σ2 σ3 : store) :
  extends σ1 σ2 → extends σ2 σ3 → extends σ1 σ3.
Proof. intros [] []. constructor; try (etrans; eassumption); lia. Qed.

Lemma tagged_trans (mode : crawl_mode) (run_id : Z) (σ1 σ2 σ3 : store) :
  tagged mode run_id σ1 σ2 → tagged mode run_id σ2 σ3 → tagged mode run_id σ1 σ3.
Proof.
  intros (n1 & H1 & Hn1) (n2 & H2 & Hn2). exists (n1 ++ n2).
  rewrite H2, H1, <- app_assoc. split; [done|]. by apply Forall_app.
Qed.

Lemma snapshot_row_tag (mode : crawl_mode) (run_id : Z) (x : Snapshot.t) :
  snapshot_row mode run_id x →
  Snapshot.run_id x = run_id ∧ Snapshot.mode x = mode.
Proof. by intros []. Qed.

Section PoolHistory.
Context `{!Python} (W : web).
Context (start_url : string) (mode : crawl_mode) (run_id : Z).

Lemma finished_extends (σ : store) (u : URL.t) (st : url_status)
    (snap : Snapshot.t) (ls : list Link.t) :
  snapshot_row mode run_id snap →
  extends σ (finished u st snap ls σ) ∧ tagged mode run_id σ (finished u st snap ls σ).
Proof.
  intros Hrow. split.
  - constructor; simpl; try lia; try by apply prefix_app_r.
    rewrite row_key_update_url; [done | by intros []].
  - exists [snap]. split; [done|]. constructor; [|done]. by apply snapshot_row_tag.
Qed.

Lemma delta_extends (locked : list Z) (σ σ' : store) (p p' : pc) :
  delta W start_url mode run_id locked σ p p' σ' →
  extends σ σ' ∧ tagged mode run_id σ σ'.
Proof.
  assert (Hsame : tagged mode run_id σ σ).
  { exists []. by rewrite app_nil_r. }
  intros [u Hsel | Hsel | u t cat | u r Hint Hr | u r h todo edges Hkeep
         | u r h todo edges t Hkeep Hlk | u r h todo edges Hkeep Hlk
         | u r h todo edges Hnew | u snap Hext Hrow Hid Hurl
         | u r edges snap Hrow Hid Hurl Hcontent
         | p0 u snap Hheld Hw Hrow Hid Hurl Herr | p0 Hh];
    try (split; [apply extends_refl | exact Hsame]);
    try (by apply finished_extends).
  - split; [|exists []; by rewrite app_nil_r].
    constructor; simpl; try done; try lia.
    rewrite row_key_update_url; [done | by intros []].
  - split; [|exists []; by rewrite app_nil_r].
    constructor; simpl; try done; try lia.
    rewrite map_app. by apply prefix_app_r.
Qed.

Lemma step_extends (g : pool) (i : nat) :
  staged (shared g) = [] →
  let g' := step W start_url mode run_id g i in
  extends (db (shared g)) (db (shared g')) ∧
  tagged mode run_id (db (shared g)) (db (shared g')) ∧
  clock (shared g) ≤ clock (shared g') ∧
  trace (shared g) `prefix_of` trace (shared g') ∧
  staged (shared g') = [].
Proof.
  intros Hst. unfold step.
  destruct (workers g !! i) as [p|] eqn:Hp.
  - destruct (step_worker W start_url mode run_id (locked_rows (workers g)) p (shared g))
      as [p' s'] eqn:Hstep.
    destruct (step_worker_delta W start_url mode run_id _ _ _ _ _ Hst Hstep)
      as (Hst' & Hclock & Htrace & Hd).
    destruct (delta_extends _ _ _ _ _ Hd). simpl. split_and!; auto.
  - simpl. split_and!; auto using extends_refl; try done.
    exists []. by rewrite app_nil_r.
Qed.

Lemma run_schedule_extends (sched : list nat) (g : pool) :
  staged (shared g) = [] →
  let g' := run_schedule W start_url mode run_id sched g in
  extends (db (shared g)) (db (shared g')) ∧
  tagged mode run_id (db (shared g)) (db (shared g')) ∧
  clock (shared g) ≤ clock (shared g') ∧
  trace (shared g) `prefix_of` trace (shared g') ∧
  staged (shared g') = [].
Proof.
  revert g. induction sched as [|i sched IH]; intros g Hst.
  - simpl. split_and!; auto using extends_refl; try done.
    exists []. by rewrite app_nil_r.
  - destruct (step_extends g i Hst) as (He & Ht & Hc & Htr & Hst').
    destruct (IH _ Hst') as (He' & Ht' & Hc' & Htr' & Hst'').
    simpl. split_and!; eauto using extends_trans, tagged_trans.
    + etrans; eassumption.
    + etrans; eassumption.
Qed.


(** A row that is not pending and that no worker holds stays as it is. *)
Lemma step_unheld (g : pool) (i : nat) (r0 : URL.t) :
  pool_ok g →
  r0 ∈ frontier g → URL.status r0 ≠ pending → unheld (URL.id r0) g →
  let g' := step W start_url mode run_id g i in
  r0 ∈ frontier g' ∧ unheld (URL.id r0) g'.
Proof.
  intros [Hst Hk Hpcs] Hr0 Hnp Hun. unfold step.
  destruct (workers g !! i) as [p|] eqn:Hp; [|done].
  destruct (step_worker W start_url mode run_id (locked_rows (workers g)) p (shared g))
    as [p' s'] eqn:Hstep.
  destruct (step_worker_delta W start_url mode run_id _ _ _ _ _ Hst Hstep)
    as (Hst' & _ & _ & Hd).
  unfold frontier in *. simpl.
  assert (Hothers : ∀ u', held p' = Some u' → URL.id u' ≠ URL.id r0 →
            unheld (URL.id r0) (Pool s' (<[i:=p']> (workers g))
              (match p, p' with
               | AtLoop, Locked url_obj => claims g ++ [(i, URL.id url_obj)]
               | _, _ => claims g
               end))).
  { intros u' Hu' Hne j q v [[-> ->]|[_ Hq]]%lookup_insert_cases Hv.
    - congruence.
    - by apply (Hun j q v). }
  assert (Hnone : held p' = None →
            unheld (URL.id r0) (Pool s' (<[i:=p']> (workers g))
              (match p, p' with
               | AtLoop, Locked url_obj => claims g ++ [(i, URL.id url_obj)]
               | _, _ => claims g
               end))).
  { intros Hu' j q v [[-> ->]|[_ Hq]]%lookup_insert_cases Hv.
    - congruence.
    - by apply (Hun j q v). }
  assert (Hheld : ∀ u, held p = Some u → URL.id u ≠ URL.id r0).
  { intros u Hu. by apply (Hun i p u). }
  remember (db (shared g)) as σ eqn:Hσ. remember (db s') as σ' eqn:Hσ'.
  destruct Hd as [u Hsel | Hsel | u t cat | u r Hint Hr | u r h todo edges Hkeep
                 | u r h todo edges t Hkeep Hlk | u r h todo edges Hkeep Hlk
                 | u r h todo edges Hnew | u snap Hext Hrow Hid Hurl
                 | u r edges snap Hrow Hid Hurl Hcontent
                 | p0 u snap Hheld0 Hw Hrow Hid Hurl Herr | p0 Hh]; simpl.
  - split; [done|]. apply (Hothers u eq_refl).
    apply select_pending_Some in Hsel as (Hu & Hpend & _).
    intros Heq. assert (u = r0).
    { apply (NoDup_map_inj URL.id (urls σ)); [apply Hk|done|done|done]. }
    congruence.
  - split; [done|]. by apply Hnone.
  - specialize (Hheld u eq_refl).
    split; [by apply update_url_other | by apply (Hothers _ eq_refl)].
  - split; [done|]. apply (Hothers u eq_refl). by apply Hheld.
  - split; [done|]. apply (Hothers u eq_refl). by apply Hheld.
  - split; [done|]. apply (Hothers u eq_refl). by apply Hheld.
  - split; [done|]. apply (Hothers u eq_refl). by apply Hheld.
  - split; [apply elem_of_app; by left|]. apply (Hothers u eq_refl). by apply Hheld.
  - specialize (Hheld u eq_refl).
    split; [by apply update_url_other | by apply Hnone].
  - specialize (Hheld u eq_refl).
    split; [by apply update_url_other | by apply Hnone].
  - specialize (Hheld u Hheld0).
    split; [by apply update_url_other | by apply Hnone].
  - split; [done|]. apply Hnone. by destruct p0.
Qed.

Lemma run_schedule_unheld (sched : list nat) (g : pool) (r0 : URL.t) :
  pool_ok g →
  r0 ∈ frontier g → URL.status r0 ≠ pending → unheld (URL.id r0) g →
  r0 ∈ frontier (run_schedule W start_url mode run_id sched g).
Proof.
  revert g. induction sched as [|i sched IH]; intros g Hok Hr0 Hnp Hun; [done|].
  destruct (step_unheld g i r0 Hok Hr0 Hnp Hun) as [Hr0' Hun'].
  simpl. apply IH; auto. by apply step_ok.
Qed.

(** X10 ([worker], lines 68-84): only pending rows are crawled.  In a store
    that satisfies the keys of the schema, a row that is not [pending] when
    the workers start ([done], [error], or left [in_progress] by an
    interrupted run) is in the store unchanged after any schedule: it is
    never claimed again and none of its columns is written. *)
Theorem settled_rows_untouched (n : nat) (σ : store) (sched : list nat) (r0 : URL.t) :
  keys_ok σ →
  r0 ∈ urls σ → URL.status r0 ≠ pending →
  r0 ∈ frontier (run_schedule W start_url mode run_id sched (start_pool n σ)).
Proof.
  intros Hk Hr0 Hnp.
  apply run_schedule_unheld; auto.
  - by apply idle_pool_ok.
  - intros i p u [-> _]%lookup_replicate [=].
Qed.

End PoolHistory.

(** ** The pool: final statuses *)

Section PoolProgress.
Context `{!Python} (W : web).
Context (start_url : string) (mode : crawl_mode) (run_id : Z).

Lemma delta_urls (locked : list Z) (σ σ' : store) (p p' : pc) :
  delta W start_url mode run_id locked σ p p' σ' →
  (urls σ' = urls σ ∧ next_url_id σ' = next_url_id σ) ∨
  (∃ u f, held p = Some u ∧
          (∀ r, URL.id (f r) = URL.id r ∧ URL.url (f r) = URL.url r ∧
                URL.status (f r) ≠ pending) ∧
          urls σ' = update_url (URL.id u) f (urls σ) ∧
          next_url_id σ' = next_url_id σ) ∨
  (∃ u r h todo edges,
     p = Inserting u r h todo edges ∧ (h ∉ map URL.url (urls σ)) ∧
     urls σ' = urls σ ++ [new_row start_url σ h] ∧
     next_url_id σ' = next_url_id σ + 1).
Proof.
  intros [u Hsel | Hsel | u t cat | u r Hint Hr | u r h todo edges Hkeep
         | u r h todo edges t Hkeep Hlk | u r h todo edges Hkeep Hlk
         | u r h todo edges Hnew | u snap Hext Hrow Hid Hurl
         | u r edges snap Hrow Hid Hurl Hcontent
         | p0 u snap Hheld Hw Hrow Hid Hurl Herr | p0 Hh]; auto.
  - right. left. eexists u, _. split; [done|]. split; [|done]. by intros [].
  - right. right. eexists u, r, h, todo, edges. done.
  - right. left. exists u, (URL.with_status done). split; [done|].
    split; [|done]. by intros [].
  - right. left. exists u, (URL.with_status done). split; [done|].
    split; [|done]. by intros [].
  - right. left. exists u, (URL.with_status error). split; [done|].
    split; [|done]. by intros [].
Qed.

Lemma step_locked_pending (rows0 : list URL.t) (g : pool) (i : nat) :
  pool_inv rows0 g → pool_ok g → locked_pending g →
  locked_pending (step W start_url mode run_id g i).
Proof.
  intros Hinv [Hst Hk Hpcs] Hlp. unfold step.
  destruct (workers g !! i) as [p|] eqn:Hp; [|done].
  destruct (step_worker W start_url mode run_id (locked_rows (workers g)) p (shared g))
    as [p' s'] eqn:Hstep.
  destruct (step_worker_delta W start_url mode run_id _ _ _ _ _ Hst Hstep)
    as (Hst' & _ & _ & Hd).
  intros j u r Hj Hr Hid. unfold frontier in *. simpl in *.
  apply lookup_insert_cases in Hj as [[-> <-]|[Hne Hj]].
  - inversion Hd as [u0 Hsel | | | | | | | | | | | p0 Hh]; subst; [|by destruct Hh].
    apply select_pending_Some in Hsel as (Hu & Hpend & _).
    assert (r = u); [|by subst].
    apply (NoDup_map_inj URL.id (urls (db (shared g)))); auto. apply Hk.
    congruence.
  - destruct (delta_urls _ _ _ _ _ Hd)
      as [[Hsame _] | [(v & f & Hv & Hf & Hupd & _) | (v & r0 & h & todo & edges & -> & Hnew & Happ & _)]].
    + rewrite Hsame in Hr. by apply (Hlp j u r).
    + rewrite Hupd in Hr.
      assert (Hvu : URL.id v ≠ URL.id u).
      { apply (inv_distinct _ _ Hinv i j p (Locked u) v u); auto. }
      apply update_url_inv in Hr as [[Hr Hne']|(r1 & Hr1 & Hid1 & ->)].
      * by apply (Hlp j u r).
      * destruct (Hf r1) as (Hfid & _). congruence.
    + rewrite Happ in Hr. apply elem_of_app in Hr as [Hr|Hr].
      * by apply (Hlp j u r).
      * apply list_elem_of_singleton in Hr as ->. simpl in Hid.
        destruct (Hpcs j (Locked u) Hj u eq_refl) as [(r1 & Hr1 & Hid1 & _) _].
        assert (URL.id r1 < next_url_id (db (shared g))).
        { apply Hk, list_elem_of_fmap. eauto. }
        lia.
Qed.

Lemma step_sound (rows0 : list URL.t) (g : pool) (i : nat) :
  pool_sound rows0 g → pool_sound rows0 (step W start_url mode run_id g i).
Proof.
  intros [Hinv Hok Hlp]. constructor.
  - by apply step_inv.
  - by apply step_ok.
  - by apply (step_locked_pending rows0).
Qed.

Lemma run_schedule_sound (rows0 : list URL.t) (sched : list nat) (g : pool) :
  pool_sound rows0 g →
  pool_sound rows0 (run_schedule W start_url mode run_id sched g).
Proof.
  revert g. induction sched as [|i sched IH]; intros g Hf; [done|].
  simpl. by apply IH, step_sound.
Qed.

Lemma idle_pool_sound (n : nat) (s : state) :
  staged s = [] → keys_ok (db s) →
  pool_sound (urls (db s)) (Pool s (replicate n AtLoop) []).
Proof.
  intros Hst Hk.
  assert (Hidle : ∀ i p, replicate n AtLoop !! i = Some p → p = AtLoop).
  { intros i p [-> _]%lookup_replicate. done. }
  constructor.
  - constructor; simpl; unfold frontier, url_counter; simpl; auto.
    + intros r Hr. apply Hk, list_elem_of_fmap. eauto.
    + intros i p u Hp. by rewrite (Hidle _ _ Hp).
    + intros i p u Hp. by rewrite (Hidle _ _ Hp).
    + intros i j p q u v _ Hp. by rewrite (Hidle _ _ Hp).
    + constructor.
    + intros k Hk'. by apply elem_of_nil in Hk'.
    + intros k Hk'. by apply elem_of_nil in Hk'.
    + intros i p u Hp. by rewrite (Hidle _ _ Hp).
    + intros r Hr. destruct (decide (URL.status r = pending)); [by left|].
      right. right. eauto.
    + intros r0 Hr0. eauto.
    + intros Hne _. destruct n as [|n]; [done|]. exists 0%nat, AtLoop. done.
    + intros i p e Hp. by rewrite (Hidle _ _ Hp).
  - by apply idle_pool_ok.
  - intros i u r [[=] _]%lookup_replicate.
Qed.

(** X11 ([worker], lines 105, 163, 177): [done] and [error] are final.  In
    a run that starts from a store that satisfies the keys of the schema, a
    row that is [done] or [error] at some point is in the store unchanged
    however the run goes on. *)
Theorem done_and_error_are_final (n : nat) (σ : store) (sched1 sched2 : list nat)
    (r : URL.t) :
  keys_ok σ →
  let g1 := run_schedule W start_url mode run_id sched1 (start_pool n σ) in
  let g2 := run_schedule W start_url mode run_id (sched1 ++ sched2) (start_pool n σ) in
  r ∈ frontier g1 → URL.status r = done ∨ URL.status r = error →
  r ∈ frontier g2.
Proof.
  intros Hk g1 g2 Hr Hfinal.
  assert (Hs : pool_sound (urls σ) g1).
  { apply run_schedule_sound. by apply (idle_pool_sound n (State σ [] [] 0)). }
  assert (Hg2 : g2 = run_schedule W start_url mode run_id sched2 g1).
  { unfold g2, g1, run_schedule. by rewrite foldl_app. }
  rewrite Hg2. destruct Hs as [Hinv Hok Hlp].
  apply run_schedule_unheld; auto.
  - destruct Hfinal as [-> | ->]; done.
  - intros i p u Hp Hu Hid.
    destruct p as [|v|v|v ? ? ?|v ? ? ? ?| |]; simpl in Hu; try done;
      injection Hu as ->.
    + pose proof (Hlp i u r Hp Hr (eq_sym Hid)) as Hpend.
      destruct Hfinal as [Hf | Hf]; congruence.
    + pose proof (inv_working _ _ Hinv i _ u Hp eq_refl I r Hr (eq_sym Hid)) as Hip.
      destruct Hfinal as [Hf | Hf]; congruence.
    + pose proof (inv_working _ _ Hinv i _ u Hp eq_refl I r Hr (eq_sym Hid)) as Hip.
      destruct Hfinal as [Hf | Hf]; congruence.
    + pose proof (inv_working _ _ Hinv i _ u Hp eq_refl I r Hr (eq_sym Hid)) as Hip.
      destruct Hfinal as [Hf | Hf]; congruence.
Qed.

End PoolProgress.

(** ** The pool: termination *)

Lemma pending_count_update (i : Z) (f : URL.t → URL.t) (rows : list URL.t) :
  (∀ r, URL.status (f r) ≠ pending) →
  pending_count (update_url i f rows) ≤ pending_count rows.
Proof.
  intros Hf. unfold pending_count, update_url.
  apply inj_le. induction rows as [|x rows IH]; simpl; [done|].
  case_bool_decide as Hx.
  - assert (is_pending (f x) = false) as ->.
    { apply bool_decide_eq_false. apply Hf. }
    destruct (is_pending x); simpl; lia.
  - destruct (is_pending x); simpl; lia.
Qed.

Lemma pending_count_claim (i : Z) (f : URL.t → URL.t) (rows : list URL.t) (r : URL.t) :
  (∀ r, URL.status (f r) ≠ pending) →
  r ∈ rows → URL.id r = i → URL.status r = pending →
  pending_count (update_url i f rows) + 1 ≤ pending_count rows.
Proof.
  intros Hf Hr Hid Hpend. unfold pending_count.
  induction rows as [|x rows IH]; [by apply elem_of_nil in Hr|].
  pose proof (pending_count_update i f rows Hf) as Hle. unfold pending_count in Hle.
  apply elem_of_cons in Hr as [<-|Hr].
  - simpl. rewrite bool_decide_eq_true_2 by done.
    assert (is_pending (f r) = false) as ->.
    { apply bool_decide_eq_false. apply Hf. }
    assert (is_pending r = true) as ->.
    { by apply bool_decide_eq_true. }
    simpl length. lia.
  - specialize (IH Hr). simpl. case_bool_decide as Hx.
    + assert (is_pending (f x) = false) as ->.
      { apply bool_decide_eq_false. apply Hf. }
      destruct (is_pending x); simpl length; lia.
    + destruct (is_pending x); simpl length; lia.
Qed.

Lemma pending_count_app (rows : list URL.t) (r : URL.t) :
  URL.status r = pending →
  pending_count (rows ++ [r]) = pending_count rows + 1.
Proof.
  intros Hp. unfold pending_count. rewrite List.filter_app, length_app. simpl.
  assert (is_pending r = true) as -> by (by apply bool_decide_eq_true).
  simpl. lia.
Qed.

Lemma unseen_update (known : list string) (i : Z) (f : URL.t → URL.t)
    (rows : list URL.t) :
  (∀ r, URL.url (f r) = URL.url r) →
  unseen known (update_url i f rows) = unseen known rows.
Proof. intros Hf. unfold unseen. by rewrite update_url_urls. Qed.

Lemma unseen_app (known : list string) (rows : list URL.t) (r : URL.t) :
  URL.url r ∈ known → URL.url r ∉ map URL.url rows →
  unseen known (rows ++ [r]) + 1 ≤ unseen known rows.
Proof.
  intros Hin Hnew. unfold unseen.
  set (P := λ h, bool_decide (h ∉ map URL.url rows)).
  set (P' := λ h, bool_decide (h ∉ map URL.url (rows ++ [r]))).
  assert (Himp : ∀ h, P' h = true → P h = true).
  { intros h. unfold P, P'. rewrite !bool_decide_eq_true, map_app.
    intros Hh Hh'. apply Hh, elem_of_app. by left. }
  assert (Hle : ∀ l, (length (List.filter P' l) ≤ length (List.filter P l))%nat).
  { induction l as [|h l IH]; simpl; [done|].
    destruct (P' h) eqn:HP'.
    - rewrite (Himp _ HP'). simpl. lia.
    - destruct (P h); simpl; lia. }
  assert (Hlt : (length (List.filter P' known) < length (List.filter P known))%nat);
    [|lia].
  induction known as [|h known IH]; [by apply elem_of_nil in Hin|].
  apply elem_of_cons in Hin as [<-|Hin]; simpl.
  - assert (P (URL.url r) = true) as -> by (by apply bool_decide_eq_true).
    assert (P' (URL.url r) = false) as ->.
    { apply bool_decide_eq_false. intros Hn. apply Hn. rewrite map_app.
      apply elem_of_app. right. by left. }
    specialize (Hle known). simpl. lia.
  - specialize (IH Hin). destruct (P' h) eqn:HP'.
    + rewrite (Himp _ HP'). simpl. lia.
    + destruct (P h); simpl; lia.
Qed.

Lemma backlog_nonneg (known : list string) (σ : store) : 0 ≤ backlog known σ.
Proof. unfold backlog, pending_count, unseen. lia. Qed.

Lemma weight_nonneg (bound : Z) (p : pc) : 0 ≤ bound → 0 ≤ weight bound p.
Proof. intros ?. destruct p; simpl; lia. Qed.

Lemma weight_halted (bound : Z) (p : pc) :
  0 ≤ bound → weight bound p ≤ 0 → halted p.
Proof. intros ?. destruct p; simpl; try lia; done. Qed.

Lemma weights_nonneg (bound : Z) (ws : list pc) : 0 ≤ bound → 0 ≤ weights bound ws.
Proof.
  intros ?. induction ws as [|p ws IH]; simpl; [done|].
  pose proof (weight_nonneg bound p). lia.
Qed.

Lemma weights_halted (bound : Z) (ws : list pc) :
  0 ≤ bound → weights bound ws ≤ 0 → ∀ i p, ws !! i = Some p → halted p.
Proof.
  intros Hb. induction ws as [|q ws IH]; intros Hw i p Hp.
  - by rewrite lookup_nil in Hp.
  - simpl in Hw. pose proof (weight_nonneg bound q Hb).
    pose proof (weights_nonneg bound ws Hb).
    destruct i as [|i]; simpl in Hp.
    + injection Hp as ->. apply (weight_halted bound); [done | lia].
    + apply (IH ltac:(lia) i p Hp).
Qed.

Lemma weights_insert (bound : Z) (ws : list pc) (i : nat) (p p' : pc) :
  ws !! i = Some p →
  weights bound (<[i:=p']> ws) = weights bound ws - weight bound p + weight bound p'.
Proof.
  revert i. induction ws as [|q ws IH]; intros i Hp.
  - by rewrite lookup_nil in Hp.
  - destruct i as [|i]; simpl in *.
    + injection Hp as ->. lia.
    + rewrite (IH i Hp). lia.
Qed.

Section Termination.
Context `{!Python} (W : web).
Context (start_url : string) (mode : crawl_mode) (run_id : Z).

Lemma finished_backlog (known : list string) (σ : store) (u : URL.t)
    (st : url_status) (snap : Snapshot.t) (ls : list Link.t) :
  st ≠ pending →
  backlog known (finished u st snap ls σ) ≤ backlog known σ.
Proof.
  intros Hst. unfold backlog. simpl.
  rewrite unseen_update by (by intros []).
  pose proof (pending_count_update (URL.id u) (URL.with_status st) (urls σ)) as Hle.
  specialize (Hle ltac:(by intros [])). lia.
Qed.

Lemma delta_progress (known : list string) (locked : list Z) (σ σ' : store)
    (p p' : pc) :
  closed_web W known →
  delta W start_url mode run_id locked σ p p' σ' →
  ¬ halted p →
  pc_known known p →
  (∀ u, p = Locked u →
        ∃ r, r ∈ urls σ ∧ URL.id r = URL.id u ∧ URL.status r = pending) →
  let bound := Z.of_nat (length known) in
  pc_known known p' ∧
  (2 * bound + 5) * backlog known σ' + weight bound p'
  < (2 * bound + 5) * backlog known σ + weight bound p.
Proof.
  intros Hclosed Hd Hlive [Hnd Hin] Hlocked bound.
  assert (Hb : 0 ≤ bound) by (unfold bound; lia).
  pose proof (backlog_nonneg known σ) as Hb0.
  assert (Hidle : pc_known known AtLoop).
  { split; [constructor | by intros h []%elem_of_nil]. }
  destruct Hd as [u Hsel | Hsel | u t cat | u r Hint Hr | u r h todo edges Hkeep
                 | u r h todo edges t Hkeep Hlk | u r h todo edges Hkeep Hlk
                 | u r h todo edges Hnew | u snap Hext Hrow Hid Hurl
                 | u r edges snap Hrow Hid Hurl Hcontent
                 | p0 u snap Hheld Hw Hrow Hid Hurl Herr | p0 Hh];
    simpl in Hnd, Hin.
  - split; [done|]. simpl. lia.
  - split; [done|]. simpl. lia.
  - split; [done|].
    destruct (Hlocked u eq_refl) as (r & Hr & Hrid & Hpend).
    assert (backlog known
              (set_urls (update_url (URL.id u)
                 (λ r0, URL.mk (URL.id r0) (URL.url r0) cat in_progress (Some t))
                 (urls σ)) σ) + 1 ≤ backlog known σ).
    { unfold backlog. simpl. rewrite unseen_update by (by intros []).
      pose proof (pending_count_claim (URL.id u)
        (λ r0, URL.mk (URL.id r0) (URL.url r0) cat in_progress (Some t))
        (urls σ) r ltac:(done) Hr Hrid Hpend). lia. }
    simpl. nia.
  - assert (Hk : pc_known known (Discovering u r (set_iter (r_hrefs r)) [])).
    { split; [apply set_iter_NoDup|]. simpl. intros h0 Hh0.
      apply (proj1 (set_iter_elem _ _)) in Hh0.
      destruct (rendering_Ok _ _ Hr) as (perf & _ & _ & Ha & _).
      exact (Hclosed _ _ Ha h0 Hh0). }
    split; [done|]. destruct Hk as [Hnd' Hin'].
    assert (length (set_iter (r_hrefs r)) ≤ length known)%nat.
    { apply submseteq_length, NoDup_submseteq; done. }
    simpl. lia.
  - apply NoDup_cons in Hnd as [_ Hnd].
    split; [split; [done|]; intros h0 Hh0; apply Hin; by right|].
    simpl length. simpl weight. lia.
  - apply NoDup_cons in Hnd as [_ Hnd].
    split; [split; [done|]; intros h0 Hh0; apply Hin; by right|].
    simpl length. simpl weight. lia.
  - split; [done|]. simpl length. simpl weight. lia.
  - assert (Hh : h ∈ known) by (apply Hin; by left).
    apply NoDup_cons in Hnd as [_ Hnd].
    split; [split; [done|]; intros h0 Hh0; apply Hin; by right|].
    assert (backlog known (add_rows [new_row start_url σ h] σ) ≤ backlog known σ).
    { unfold backlog. simpl.
      rewrite pending_count_app by done.
      pose proof (unseen_app known (urls σ) (new_row start_url σ h) Hh Hnew). lia. }
    simpl weight. nia.
  - split; [done|].
    pose proof (finished_backlog known σ u done snap [] ltac:(done)).
    simpl weight. nia.
  - split; [done|].
    pose proof (finished_backlog known σ u done snap
                  (link_rows (next_link_id σ) (next_snapshot_id σ) edges) ltac:(done)).
    simpl weight. nia.
  - split; [done|].
    pose proof (finished_backlog known σ u error snap [] ltac:(done)).
    destruct p0; simpl in Hw; try done; simpl weight; nia.
  - done.
Qed.

Lemma halted_dec (p : pc) : {halted p} + {¬ halted p}.
Proof. destruct p; simpl; auto. Qed.

Lemma step_halted (g : pool) (i : nat) :
  (∀ p, workers g !! i = Some p → halted p) →
  step W start_url mode run_id g i = g.
Proof.
  intros Hh. unfold step. destruct (workers g !! i) as [p|] eqn:Hp; [|done].
  specialize (Hh p eq_refl). destruct g as [s ws cl]. simpl in *.
  destruct p; simpl in Hh; try done; simpl; by rewrite list_insert_id.
Qed.

Lemma step_progress (known : list string) (rows0 : list URL.t) (g : pool)
    (i : nat) (p : pc) :
  closed_web W known →
  pool_sound rows0 g → pool_known known g →
  workers g !! i = Some p → ¬ halted p →
  potential known (step W start_url mode run_id g i) < potential known g.
Proof.
  intros Hclosed [Hinv Hok Hlp] Hkn Hp Hlive. unfold step. rewrite Hp.
  destruct (step_worker W start_url mode run_id (locked_rows (workers g)) p (shared g))
    as [p' s'] eqn:Hstep.
  destruct (step_worker_delta W start_url mode run_id _ _ _ _ _
              (ok_staged _ Hok) Hstep) as (_ & _ & _ & Hd).
  destruct (delta_progress known _ _ _ _ _ Hclosed Hd Hlive (Hkn i p Hp)) as [_ Hlt].
  { intros u ->.
    destruct (ok_pcs _ Hok i _ Hp u eq_refl) as [(r & Hr & Hid & _) _].
    exists r. split; [done|]. split; [done|]. by apply (Hlp i u r). }
  unfold potential. simpl. rewrite (weights_insert _ _ _ _ _ Hp). lia.
Qed.

Lemma step_known (known : list string) (rows0 : list URL.t) (g : pool) (i : nat) :
  closed_web W known →
  pool_sound rows0 g → pool_known known g →
  pool_known known (step W start_url mode run_id g i).
Proof.
  intros Hclosed [Hinv Hok Hlp] Hkn.
  destruct (workers g !! i) as [p|] eqn:Hp;
    [|rewrite step_halted; [done | by intros p; rewrite Hp]].
  destruct (halted_dec p) as [Hh|Hlive].
  { rewrite step_halted; [done|]. intros q. rewrite Hp. by intros [= <-]. }
  unfold step. rewrite Hp.
  destruct (step_worker W start_url mode run_id (locked_rows (workers g)) p (shared g))
    as [p' s'] eqn:Hstep.
  destruct (step_worker_delta W start_url mode run_id _ _ _ _ _
              (ok_staged _ Hok) Hstep) as (_ & _ & _ & Hd).
  destruct (delta_progress known _ _ _ _ _ Hclosed Hd Hlive (Hkn i p Hp)) as [Hk' _].
  { intros u ->.
    destruct (ok_pcs _ Hok i _ Hp u eq_refl) as [(r & Hr & Hid & _) _].
    exists r. split; [done|]. split; [done|]. by apply (Hlp i u r). }
  simpl. intros j q [[-> ->]|[_ Hq]]%lookup_insert_cases; eauto.
Qed.

(** A schedule never raises the potential, and lowers it if it moves a
    worker that has not halted. *)
Lemma run_schedule_progress (known : list string) (rows0 : list URL.t)
    (sched : list nat) :
  closed_web W known →
  ∀ g, pool_sound rows0 g → pool_known known g →
    let g' := run_schedule W start_url mode run_id sched g in
    pool_sound rows0 g' ∧ pool_known known g' ∧
    potential known g' ≤ potential known g ∧
    ((∃ i p, i ∈ sched ∧ workers g !! i = Some p ∧ ¬ halted p) →
     potential known g' < potential known g).
Proof.
  intros Hclosed. induction sched as [|j sched IH]; intros g Hs Hk.
  - simpl. split_and!; auto; [lia|]. intros (i & p & []%elem_of_nil & _).
  - change (run_schedule W start_url mode run_id (j :: sched) g)
      with (run_schedule W start_url mode run_id sched
              (step W start_url mode run_id g j)).
    destruct (workers g !! j) as [q|] eqn:Hq.
    + destruct (halted_dec q) as [Hh|Hlive].
      * rewrite step_halted by (intros q'; rewrite Hq; by intros [= <-]).
        destruct (IH g Hs Hk) as (Hs' & Hk' & Hle & Hlt).
        split_and!; auto. intros (i & p & Hi & Hp & Hnh). apply Hlt.
        exists i, p. split; [|done].
        apply elem_of_cons in Hi as [->|Hi]; [|done].
        rewrite Hq in Hp. injection Hp as ->. done.
      * pose proof (step_progress known rows0 g j q Hclosed Hs Hk Hq Hlive) as Hstep.
        destruct (IH _ (step_sound W start_url mode run_id rows0 g j Hs)
                    (step_known known rows0 g j Hclosed Hs Hk))
          as (Hs' & Hk' & Hle & _).
        split_and!; auto; lia.
    + rewrite step_halted by (intros q'; by rewrite Hq).
      destruct (IH g Hs Hk) as (Hs' & Hk' & Hle & Hlt).
      split_and!; auto. intros (i & p & Hi & Hp & Hnh). apply Hlt.
      exists i, p. split; [|done].
      apply elem_of_cons in Hi as [->|Hi]; [|done]. congruence.
Qed.

Lemma run_schedule_halted (sched : list nat) (g : pool) :
  (∀ i p, workers g !! i = Some p → halted p) →
  run_schedule W start_url mode run_id sched g = g.
Proof.
  intros Hh. induction sched as [|j sched IH]; [done|].
  change (run_schedule W start_url mode run_id (j :: sched) g)
    with (run_schedule W start_url mode run_id sched
            (step W start_url mode run_id g j)).
  rewrite step_halted; [done|]. intros p. apply Hh.
Qed.

Lemma rounds_progress (known : list string) (rows0 : list URL.t) (n : nat)
    (rounds : list (list nat)) :
  closed_web W known → fair_rounds n rounds →
  ∀ g, pool_sound rows0 g → pool_known known g → length (workers g) = n →
    let g' := run_schedule W start_url mode run_id (concat rounds) g in
    (∀ i p, workers g' !! i = Some p → halted p) ∨
    potential known g' + Z.of_nat (length rounds) ≤ potential known g.
Proof.
  intros Hclosed Hfair. induction Hfair as [|round rounds Hround Hfair IH];
    intros g Hs Hk Hlen.
  - right. simpl. lia.
  - simpl concat. unfold run_schedule. rewrite foldl_app.
    fold (run_schedule W start_url mode run_id round g).
    set (g1 := run_schedule W start_url mode run_id round g).
    fold (run_schedule W start_url mode run_id (concat rounds) g1).
    destruct (run_schedule_progress known rows0 round Hclosed g Hs Hk)
      as (Hs1 & Hk1 & Hle & Hlt). fold g1 in Hs1, Hk1, Hle, Hlt.
    destruct (Forall_Exists_dec halted (λ p, ¬ halted p) halted_dec (workers g))
      as [Hall|Hex].
    + assert (Hh : ∀ i p, workers g !! i = Some p → halted p).
      { intros i p Hp. rewrite Forall_lookup in Hall. eauto. }
      left. unfold g1. rewrite (run_schedule_halted round g Hh).
      rewrite (run_schedule_halted _ g Hh). exact Hh.
    + apply Exists_exists in Hex as (p & Hp & Hlive).
      apply list_elem_of_lookup in Hp as [i Hi].
      assert (Hin : i ∈ round).
      { apply Hround. rewrite <- Hlen. by apply lookup_lt_Some in Hi. }
      specialize (Hlt ltac:(eauto)).
      destruct (IH g1 Hs1 Hk1) as [Hdone|Hpot].
      { unfold g1. by rewrite run_schedule_length. }
      * by left.
      * right. simpl length. lia.
Qed.

Lemma weights_idle (bound : Z) (n : nat) :
  weights bound (replicate n AtLoop) = 2 * Z.of_nat n.
Proof. induction n as [|n IH]; simpl; [done|]. rewrite IH. lia. Qed.

Lemma rounds_rest (known : list string) (rows0 : list URL.t) (n : nat)
    (rounds : list (list nat)) (g : pool) :
  closed_web W known → fair_rounds n rounds →
  pool_sound rows0 g → pool_known known g → length (workers g) = n →
  potential known g ≤ Z.of_nat (length rounds) →
  let g' := run_schedule W start_url mode run_id (concat rounds) g in
  pool_sound rows0 g' ∧
  ∀ i p, workers g' !! i = Some p → p = Returned.
Proof.
  intros Hclosed Hfair Hs0 Hk0 Hlen Hpot g'.
  destruct (run_schedule_progress known rows0 (concat rounds) Hclosed _ Hs0 Hk0)
    as (Hs & _ & _ & _). fold g' in Hs. split; [done|].
  assert (Hhalt : ∀ i p, workers g' !! i = Some p → halted p).
  { destruct (rounds_progress known rows0 n rounds Hclosed Hfair _ Hs0 Hk0 Hlen)
      as [Hdone|Hle]; [exact Hdone|].
    fold g' in Hle. unfold potential in Hle at 1.
    pose proof (backlog_nonneg known (db (shared g'))).
    pose proof (weights_nonneg (Z.of_nat (length known)) (workers g') ltac:(lia)).
    apply (weights_halted (Z.of_nat (length known))); [lia|]. nia. }
  intros i p Hp. specialize (Hhalt i p Hp).
  destruct p; simpl in Hhalt; try done.
  exfalso. by apply (inv_no_crash _ _ (sound_inv _ _ Hs) i _ e Hp).
Qed.


End Termination.

(** ** The crawl run *)

Lemma crashed_None (ws : list pc) :
  (∀ i p e, ws !! i = Some p → p ≠ Crashed e) → crashed ws = None.
Proof.
  unfold crashed. induction ws as [|q ws IH]; intros Hnc; [done|].
  simpl. destruct q; try (apply IH; intros i p e' Hp; apply (Hnc (S i)); exact Hp).
  exfalso. by apply (Hnc 0%nat (Crashed e) e).
Qed.

Lemma forallb_is_returned (ws : list pc) :
  forallb is_returned ws = true ↔ ∀ i p, ws !! i = Some p → p = Returned.
Proof.
  rewrite forallb_forall. split.
  - intros Hall i p Hp. apply list_elem_of_lookup_2, list_elem_of_In, Hall in Hp.
    by destruct p.
  - intros Hall p Hp. apply list_elem_of_In, list_elem_of_lookup in Hp as [i Hi].
    by rewrite (Hall i p Hi).
Qed.

Lemma keys_ok_update (i : Z) (f : URL.t → URL.t) (σ : store) :
  (∀ r, URL.id (f r) = URL.id r) →
  keys_ok σ → keys_ok (set_urls (update_url i f (urls σ)) σ).
Proof.
  intros Hf []. constructor; simpl; rewrite ?ids_update_url; auto.
Qed.

Lemma keys_ok_add (h : string) (c : url_category) (st : url_status)
    (a : option Z) (σ : store) :
  keys_ok σ → keys_ok (add_rows [URL.mk (next_url_id σ) h c st a] σ).
Proof.
  intros [Hpk Hfresh ? ? ? ? Hfk1 Hfk2 Hfk3 ?]. constructor; simpl; auto.
  - rewrite map_app. apply NoDup_app. split; [done|].
    split; [|repeat constructor; set_solver].
    intros k Hk' [->|[]%elem_of_nil]%elem_of_cons. apply Hfresh in Hk'.
    simpl in Hk'. lia.
  - intros k. rewrite map_app.
    intros [Hk'|[->|[]%elem_of_nil]%elem_of_cons]%elem_of_app; [|simpl; lia].
    apply Hfresh in Hk'. lia.
  - intros x Hx. rewrite map_app. apply elem_of_app. left. auto.
  - intros x Hx. rewrite map_app. apply elem_of_app. left. auto.
  - intros x Hx. rewrite map_app. apply elem_of_app. left. auto.
Qed.

Lemma pending_count_reset (i : Z) (f : URL.t → URL.t) (rows : list URL.t) :
  NoDup (map URL.id rows) →
  pending_count (update_url i f rows) ≤ pending_count rows + 1.
Proof.
  unfold pending_count. intros Hnd.
  assert ((length (List.filter is_pending (update_url i f rows))
           ≤ length (List.filter is_pending rows) + 1)%nat); [|lia].
  induction rows as [|x rows IH]; simpl; [lia|].
  apply NoDup_cons in Hnd as [Hx Hnd]. case_bool_decide as Hid.
  - rewrite update_url_id_same.
    + destruct (is_pending (f x)), (is_pending x); simpl; lia.
    + intros r Hr Hri. exfalso. apply Hx. rewrite Hid, <- Hri.
      apply list_elem_of_fmap. eauto.
  - specialize (IH Hnd). destruct (is_pending x); simpl; lia.
Qed.

Lemma unseen_mono (known : list string) (rows rows' : list URL.t) :
  (∀ h, h ∈ map URL.url rows → h ∈ map URL.url rows') →
  unseen known rows' ≤ unseen known rows.
Proof.
  intros Hsub. unfold unseen. apply inj_le.
  induction known as [|h known IH]; simpl; [done|].
  destruct (decide (h ∈ map URL.url rows)) as [Hin|Hout].
  - rewrite (bool_decide_eq_false_2 (h ∉ map URL.url rows)) by auto.
    rewrite (bool_decide_eq_false_2 (h ∉ map URL.url rows')) by auto. done.
  - rewrite (bool_decide_eq_true_2 (h ∉ map URL.url rows)) by done.
    destruct (bool_decide (h ∉ map URL.url rows')); simpl; lia.
Qed.

Section CrawlFacts.
Context `{!Python} (W : web).
Context (start_url : string) (mode : crawl_mode).

Lemma seed_keeps (s : state) :
  staged s = [] → keys_ok (db s) →
  ∃ s', seed start_url s = (Ok (), s') ∧
        staged s' = [] ∧ keys_ok (db s') ∧ extends (db s) (db s') ∧
        snapshots (db s') = snapshots (db s) ∧ links (db s') = links (db s) ∧
        clock s' = clock s ∧ trace s' = trace s ∧
        (∃ r, r ∈ urls (db s') ∧ URL.url r = start_url ∧ URL.status r = pending) ∧
        ∀ known, backlog known (db s') ≤ backlog known (db s) + 1.
Proof.
  intros Hst Hk. rewrite seed_spec by done.
  eexists. split; [reflexivity|].
  destruct (lookup_url start_url (urls (db s))) as [r|] eqn:Hlk; simpl.
  - destruct (lookup_url_Some _ _ _ Hlk) as [Hr Hurl].
    split_and!; auto.
    + by apply keys_ok_update.
    + constructor; simpl; try done; try lia.
      rewrite row_key_update_url; [done | by intros []].
    + exists (reset_row r). split; [|by rewrite <- Hurl].
      replace (reset_row r)
        with (if bool_decide (URL.id r = URL.id r) then reset_row r else r)
        by (by rewrite bool_decide_eq_true_2).
      by apply update_url_fwd.
    + intros known. unfold backlog. simpl.
      rewrite unseen_update by done.
      pose proof (pending_count_reset (URL.id r) reset_row (urls (db s))
                    (url_pk _ Hk)). lia.
  - split_and!; auto.
    + by apply keys_ok_add.
    + constructor; simpl; try done; try lia.
      rewrite map_app. by apply prefix_app_r.
    + eexists. split; [apply elem_of_app; right; by left|]. done.
    + intros known. unfold backlog. simpl.
      rewrite pending_count_app by done.
      assert (unseen known
                (urls (db s) ++
                 [URL.mk (next_url_id (db s)) start_url internal pending None])
              ≤ unseen known (urls (db s))); [|lia].
      apply unseen_mono. intros h Hh. rewrite map_app. apply elem_of_app. by left.
Qed.

Lemma gather_spec (run_id : Z) (rows0 : list URL.t) (sched : list nat) :
  ∀ g, pool_sound rows0 g →
    ∃ done_, sched = done_ ++ drop (length done_) sched ∧
      let g' := run_schedule W start_url mode run_id done_ g in
      (gather W start_url mode run_id sched g = (Some (Ok ()), g') ∧
       ∀ i p, workers g' !! i = Some p → p = Returned) ∨
      (gather W start_url mode run_id sched g = (None, g') ∧ done_ = sched ∧
       ¬ ∀ i p, workers g' !! i = Some p → p = Returned).
Proof.
  induction sched as [|j sched IH]; intros g Hs.
  - exists []. split; [done|]. simpl.
    rewrite crashed_None by apply (inv_no_crash _ _ (sound_inv _ _ Hs)).
    destruct (forallb is_returned (workers g)) eqn:Hall.
    + left. split; [done|]. by apply forallb_is_returned.
    + right. split; [done|]. split; [done|]. intros Hret.
      apply (proj2 (forallb_is_returned _)) in Hret. congruence.
  - simpl gather.
    rewrite crashed_None by apply (inv_no_crash _ _ (sound_inv _ _ Hs)).
    destruct (forallb is_returned (workers g)) eqn:Hall.
    + exists []. split; [done|]. left. split; [done|].
      by apply forallb_is_returned.
    + destruct (IH _ (step_sound W start_url mode run_id rows0 g j Hs))
        as (done_ & Hsplit & Hcase).
      exists (j :: done_). split; [simpl; by rewrite <- Hsplit|].
      destruct Hcase as [[Hg Hret]|(Hg & -> & Hnot)]; [left | right]; auto.
Qed.

Lemma gather_returned (run_id : Z) (rows0 : list URL.t) (sched : list nat) :
  ∀ g, pool_sound rows0 g →
    (∀ i p, workers (run_schedule W start_url mode run_id sched g) !! i = Some p →
            p = Returned) →
    gather W start_url mode run_id sched g
    = (Some (Ok ()), run_schedule W start_url mode run_id sched g).
Proof.
  induction sched as [|j sched IH]; intros g Hs Hret; simpl gather;
    rewrite crashed_None by apply (inv_no_crash _ _ (sound_inv _ _ Hs)).
  - apply (proj2 (forallb_is_returned _)) in Hret. simpl in Hret. by rewrite Hret.
  - destruct (forallb is_returned (workers g)) eqn:Hall.
    + rewrite run_schedule_halted; [done|].
      intros i p Hp. by rewrite (proj1 (forallb_is_returned _) Hall i p Hp).
    + apply IH; [by apply step_sound | exact Hret].
Qed.

(** The store, clock and log when the workers start: the run row is
    written, the message printed, the start URL seeded; and the two ways the
    call can stand when the schedule is used up. *)
Lemma crawl_unfold (concurrency : Z) (sched : list nat) (w : world) :
  keys_ok (db (base w)) →
  let run_id := next_run_id w in
  let t0 := clock (base w) in
  let run := CrawlRun.mk run_id mode t0 None in
  let s0 := State (db (base w)) [] (trace (base w)) (t0 + 2) in
  let tasks := replicate (Z.to_nat concurrency) AtLoop in
  ∃ s1 done_ g w',
    seed start_url s0 = (Ok (), s1) ∧
    pool_sound (urls (db s1)) (Pool s1 tasks []) ∧
    sched = done_ ++ drop (length done_) sched ∧
    g = run_schedule W start_url mode run_id done_ (Pool s1 tasks []) ∧
    next_run_id w' = run_id + 1 ∧
    (((∀ i p, workers g !! i = Some p → p = Returned) ∧
      crawl W start_url mode concurrency sched w = (Finished, w') ∧
      crawl_runs w' =
        map (λ r, if bool_decide (CrawlRun.id r = run_id)
                  then CrawlRun.with_end_time (Some (clock (shared g))) r else r)
            (crawl_runs w ++ [run]) ∧
      browser w' =
        browser w ++ [Launch true; NewContext (USER_AGENTS mode); BrowserClose] ∧
      base w' = State (db (shared g)) [] (trace (shared g)) (clock (shared g) + 2))
     ∨
     (done_ = sched ∧
      (¬ ∀ i p, workers g !! i = Some p → p = Returned) ∧
      crawl W start_url mode concurrency sched w = (Running, w') ∧
      crawl_runs w' = crawl_runs w ++ [run] ∧
      browser w' = browser w ++ [Launch true; NewContext (USER_AGENTS mode)] ∧
      base w' = shared g)).
Proof.
  intros Hk run_id t0 run s0 tasks.
  destruct (seed_keeps s0 eq_refl Hk)
    as (s1 & Hseed & Hst1 & Hk1 & _).
  assert (Hopen : open_session s1 = s1).
  { destruct s1 as [σ st tr c]. simpl in Hst1. by subst st. }
  pose proof (idle_pool_sound (Z.to_nat concurrency) s1 Hst1 Hk1) as Hs.
  fold tasks in Hs.
  destruct (gather_spec run_id (urls (db s1)) sched _ Hs) as (done_ & Hsplit & Hcase).
  set (g := run_schedule W start_url mode run_id done_ (Pool s1 tasks [])) in *.
  set (w1 := World (crawl_runs w ++ [run]) (run_id + 1) (browser w)
                   (State (db (base w)) [] (trace (base w)) (t0 + 1))).
  assert (Hcr : create_run mode w = (run_id, w1)) by reflexivity.
  assert (Hs0 : open_session (base (announce w1)) = s0).
  { unfold s0. lazy [open_session base announce set_base w1 now snd db trace clock].
    f_equal. lia. }
  set (w2 := call_browser (NewContext (USER_AGENTS mode))
               (call_browser (Launch true) (announce w1))).
  assert (Hcrawl : crawl W start_url mode concurrency sched w =
    let '(r, g0) := gather W start_url mode run_id sched (Pool s1 tasks []) in
    match r with
    | None => (Running, set_base (shared g0) w2)
    | Some (Raise e) => (Failed e, set_base (shared g0) w2)
    | Some (Ok _) =>
        (Finished,
         announce (finish_run run_id (call_browser BrowserClose
                                        (set_base (shared g0) w2))))
    end).
  { unfold crawl. rewrite Hcr. cbv beta iota zeta. rewrite Hs0, Hseed.
    cbv beta iota zeta. rewrite Hopen. reflexivity. }
  assert (Hst_g : staged (shared g) = []).
  { apply (run_schedule_sound W start_url mode run_id _ done_ _ Hs). }
  destruct Hcase as [[Hg Hret]|(Hg & -> & Hnot)]; rewrite Hg in Hcrawl.
  - exists s1, done_, g,
      (announce (finish_run run_id (call_browser BrowserClose
                                      (set_base (shared g) w2)))).
    split; [done|]. split; [done|]. split; [done|]. split; [done|].
    split; [reflexivity|]. left.
    split; [done|]. split; [exact Hcrawl|]. split; [reflexivity|].
    split.
    + lazy [announce finish_run call_browser set_base browser w2 w1].
      by rewrite <- !app_assoc.
    + lazy [announce finish_run call_browser set_base base open_session now snd
              db trace clock].
      f_equal. lia.
  - exists s1, sched, g, (set_base (shared g) w2).
    split; [done|]. split; [done|]. split; [done|]. split; [done|].
    split; [reflexivity|]. right.
    split; [done|]. split; [done|]. split; [exact Hcrawl|]. split; [reflexivity|].
    split; [|reflexivity].
    lazy [call_browser set_base browser w2 w1 announce].
    by rewrite <- !app_assoc.
Qed.


Lemma finish_new_run (w : world) (run : CrawlRun.t) (t : Z) :
  runs_ok w → CrawlRun.id run = next_run_id w →
  map (λ r, if bool_decide (CrawlRun.id r = next_run_id w)
            then CrawlRun.with_end_time (Some t) r else r)
      (crawl_runs w ++ [run])
  = crawl_runs w ++ [CrawlRun.with_end_time (Some t) run].
Proof.
  intros [_ Hfresh] Hid. rewrite map_app. simpl.
  rewrite bool_decide_eq_true_2 by done. f_equal.
  rewrite <- (map_id (crawl_runs w)) at 2. apply map_ext_in.
  intros r Hr%list_elem_of_In. rewrite bool_decide_eq_false_2; [done|].
  assert (CrawlRun.id r < next_run_id w); [|lia].
  apply Hfresh, list_elem_of_fmap. eauto.
Qed.




End CrawlFacts.

(** ** Configuration *)

Example strip_blanks : strip "  db.example.com " = "db.example.com".
Proof. reflexivity. Qed.

Example rstrip_slashes : rstrip is_slash "db.example.com//" = "db.example.com".
Proof. reflexivity. Qed.

Example split1_scheme : split1 "://" "https://a://b" = ["https"; "a://b"].
Proof. reflexivity. Qed.

Example split1_none : split1 "://" "db.example.com" = ["db.example.com"].
Proof. reflexivity. Qed.

Lemma cut_http (rest : string) : cut "://" ("http://" +:+ rest) = Some ("http", rest).
Proof. destruct rest; reflexivity. Qed.

Lemma cut_https (rest : string) : cut "://" ("https://" +:+ rest) = Some ("https", rest).
Proof. destruct rest; reflexivity. Qed.

Lemma prefix_app (p s : string) :
  String.prefix p s = true → ∃ rest, s = p +:+ rest.
Proof.
  revert s. induction p as [|c p IH]; intros s; simpl.
  - intros _. by exists s.
  - destruct s as [|d s]; [done|]. simpl. destruct (ascii_dec c d) as [->|]; [|done].
    intros [rest ->]%IH. by exists rest.
Qed.

(** The index of line 106 is in range. *)
Lemma db_host_returns (env : environ) : ∃ h, db_host env = Returns h.
Proof.
  unfold db_host, startswith, split1.
  set (host := rstrip is_slash (strip (default EmptyString (env !! "DB_HOST")))).
  destruct (String.prefix "http://" host) eqn:Hhttp; simpl.
  - apply prefix_app in Hhttp as [rest ->]. rewrite cut_http. eauto.
  - destruct (String.prefix "https://" host) eqn:Hhttps; [|eauto].
    apply prefix_app in Hhttps as [rest ->]. rewrite cut_https. eauto.
Qed.

Lemma append_nil (b : string) : EmptyString +:+ b = b.
Proof. reflexivity. Qed.

Lemma append_cons (x : ascii) (a b : string) : String x a +:+ b = String x (a +:+ b).
Proof. reflexivity. Qed.

Lemma append_nil_r (a : string) : a +:+ EmptyString = a.
Proof. induction a as [|x a IH]; [done|]. by rewrite append_cons, IH. Qed.

Lemma append_assoc (a b c : string) : (a +:+ b) +:+ c = a +:+ b +:+ c.
Proof.
  induction a as [|x a IH]; [done|]. by rewrite !append_cons, IH.
Qed.

Lemma rstrip_all (f : ascii → bool) (t : string) :
  string_forallb f t = true → rstrip f t = EmptyString.
Proof.
  induction t as [|c t IH]; simpl; [done|].
  intros [Hc Ht]%andb_true_iff. by rewrite IH, Hc.
Qed.

Lemma rstrip_app_all (f : ascii → bool) (s t : string) :
  string_forallb f t = true → rstrip f (s +:+ t) = rstrip f s.
Proof.
  intros Ht. induction s as [|c s IH].
  - rewrite append_nil. by apply rstrip_all.
  - rewrite append_cons. simpl. by rewrite IH.
Qed.

Lemma rstrip_keep (f : ascii → bool) (s : string) (c : ascii) :
  string_last s = Some c → f c = false → rstrip f s = s.
Proof.
  intros Hlast Hc. induction s as [|c0 s IH]; [done|].
  destruct s as [|c1 s].
  - simpl in *. injection Hlast as ->. by rewrite Hc.
  - specialize (IH Hlast). simpl in *. by rewrite IH.
Qed.

Lemma lstrip_app_all (f : ascii → bool) (s t : string) :
  string_forallb f s = true → lstrip f (s +:+ t) = lstrip f t.
Proof.
  induction s as [|c s IH]; [done|]. rewrite append_cons. simpl.
  intros [Hc Hs]%andb_true_iff. rewrite Hc. by apply IH.
Qed.

Lemma string_last_app (s t : string) :
  t ≠ EmptyString → string_last (s +:+ t) = string_last t.
Proof.
  intros Ht. induction s as [|c s IH]; [done|]. rewrite append_cons. simpl.
  destruct (s +:+ t) eqn:Hst; [|done].
  destruct s; [by rewrite append_nil in Hst | by rewrite append_cons in Hst].
Qed.

Lemma slashes_all (n : nat) : string_forallb is_slash (slashes n) = true.
Proof. induction n as [|n IH]; simpl; [done|]. by rewrite IH. Qed.

Lemma string_last_slashes (s : string) (n : nat) (c : ascii) :
  string_last s = Some c →
  ∃ c', string_last (s +:+ slashes n) = Some c' ∧ (c' = c ∨ c' = "/"%char).
Proof.
  intros Hs. destruct n as [|n].
  - exists c. split; [|by left]. simpl. by rewrite append_nil_r.
  - exists "/"%char. split; [|by right].
    rewrite string_last_app by done.
    clear. induction n as [|n IH]; [done|].
    change (slashes (S (S n))) with (String "/" (slashes (S n))).
    simpl in *. exact IH.
Qed.

Lemma db_host_plain (env : environ) (h : string) :
  default EmptyString (env !! "DB_HOST") = h → plain_host h →
  db_host env = Returns h.
Proof.
  intros Hraw (Hstrip & Hhttp & Hhttps). unfold db_host.
  rewrite Hraw, Hstrip, Hhttp, Hhttps. done.
Qed.


Lemma truthy_Some (o : option string) :
  truthy o = true → ∃ s, o = Some s ∧ s ≠ EmptyString ∧ fmt o = s.
Proof. destruct o as [[|c s]|]; simpl; try done. intros _. by eexists. Qed.




(** X21 ([ensure_database_exists], lines 124-137, and the command line,
    lines 157-166): [init] reads the separate settings even when [DATABASE_URL]
    is set.  With [DATABASE_URL] set and one of [DB_USER], [DB_PASSWORD],
    [DB_NAME] or the host missing, [init] exits with status 1 before it
    asks anything of the server, whereas [drop] drops the tables at
    [DATABASE_URL] and the crawler connects to [DATABASE_URL]. *)
Theorem init_ignores_database_url (server : db_manager.admin_call → result unit)
    (env : environ) (url : string) :
  env !! "DATABASE_URL" = Some url → url ≠ EmptyString →
  truthy (env !! "DB_USER") = false ∨ truthy (env !! "DB_PASSWORD") = false ∨
    truthy (env !! "DB_NAME") = false ∨ db_host env = Returns EmptyString →
  db_manager.main server db_manager.init env = (Exits 1 db_manager.usage, []) ∧
  db_manager.main server db_manager.drop env =
    (match server (db_manager.DropAll url) with
     | Ok _ => Returns ()
     | Raise e => Raises e
     end, [db_manager.DropAll url]) ∧
  crawler.get_database_url env = Returns url.
Proof.
  intros Hurl Hne Hmissing.
  assert (Htruthy : truthy (env !! "DATABASE_URL") = true).
  { rewrite Hurl. by destruct url. }
  split_and!.
  - unfold db_manager.main, db_manager.ensure_database_exists.
    destruct (db_host_returns env) as [h Hh]. rewrite Hh.
    assert (all_ [env !! "DB_USER"; env !! "DB_PASSWORD"; Some h; env !! "DB_NAME"]
            = false) as ->; [|done].
    simpl. destruct Hmissing as [->|[->|[->|Hempty]]]; simpl;
      rewrite ?andb_false_r; try done.
    rewrite Hh in Hempty. injection Hempty as ->. simpl. by rewrite !andb_false_r.
  - unfold db_manager.main, db_manager.get_database_url. rewrite Htruthy, Hurl.
    simpl. by destruct (server _).
  - unfold crawler.get_database_url. by rewrite Htruthy, Hurl.
Qed.

(** X22 ([ensure_database_exists] and the command line, lines 124-166): what
    [init] creates, and where.  When [init] returns it has asked the server
    for exactly two things, in this order: to create the database [DB_NAME]
    if it does not exist, over the synchronous driver, and to create the
    tables.  With [DATABASE_URL] unset both go to the same user, password,
    host and port, and the tables go into the database just created; with
    [DATABASE_URL] set the tables go to [DATABASE_URL], whatever the separate
    settings say. *)
Theorem init_targets (server : db_manager.admin_call → result unit)
    (env : environ) (log : list db_manager.admin_call) :
  db_manager.main server db_manager.init env = (Returns (), log) →
  ∃ coords db,
    env !! "DB_NAME" = Some db ∧ db ≠ EmptyString ∧
    log =
      [db_manager.CreateDatabase
         ("mysql+mysqlconnector://" +:+ coords +:+ "/")
         ("CREATE DATABASE IF NOT EXISTS `" +:+ db +:+ "` "
          +:+ "CHARACTER SET utf8mb4 COLLATE utf8mb4_unicode_ci");
       db_manager.CreateAll
         (if truthy (env !! "DATABASE_URL") then fmt (env !! "DATABASE_URL")
          else "mysql+asyncmy://" +:+ coords +:+ "/" +:+ db)].
Proof.
  unfold db_manager.main, db_manager.ensure_database_exists,
    db_manager.get_database_url.
  destruct (db_host_returns env) as [h Hh]. rewrite Hh.
  destruct (all_ _) eqn:Hall; [|done]. simpl negb. cbv iota.
  simpl in Hall.
  apply andb_true_iff in Hall as [Huser Hall].
  apply andb_true_iff in Hall as [Hpwd Hall].
  apply andb_true_iff in Hall as [Hhost Hall].
  apply andb_true_iff in Hall as [Hdb _].
  destruct (truthy_Some _ Hdb) as (db & Hdb' & Hne & Hfmt).
  match goal with |- context [server ?c] => destruct (server c) as [[]|e'] end;
    [|done].
  intros Hmain.
  exists (fmt (env !! "DB_USER") +:+ ":" +:+ fmt (env !! "DB_PASSWORD") +:+ "@"
          +:+ h +:+ ":" +:+ db_port env), db.
  split; [done|]. split; [done|]. revert Hmain.
  destruct (truthy (env !! "DATABASE_URL"));
    (destruct (server _) as [[]|e'']; [|done]); intros [= <-];
    rewrite Hfmt, !append_assoc; reflexivity.
Qed.

(** ** Further runs on concrete webs and settings *)

Lemma keys_ok_concrete (σ : store) :
  bool_decide (NoDup (map URL.id (urls σ))) = true →
  forallb (λ k, k <? next_url_id σ) (map URL.id (urls σ)) = true →
  snapshots σ = [] → links σ = [] →
  keys_ok σ.
Proof.
  intros Hnd Hfresh Hs Hl. constructor; rewrite ?Hs, ?Hl; simpl;
    try (by constructor); try (by intros ? []%elem_of_nil).
  - by apply bool_decide_eq_true in Hnd.
  - intros k Hk. rewrite forallb_forall in Hfresh.
    apply list_elem_of_In, Hfresh in Hk. lia.
Defined.

Lemma graph_ok_empty (σ : store) : links σ = [] → graph_ok σ.
Proof. intros Hl. constructor; rewrite Hl; by intros ? []%elem_of_nil. Defined.

Lemma seed_resets_existing_witness :
  let s := State two_pages [] [] 0 in
  staged s = [] ∧
  lookup_url home (urls (db s)) = Some (URL.mk 1 home internal pending None) ∧
  ∃ s', seed home s = (Ok (), s') ∧ length (urls (db s')) = 2%nat.
Proof.
  intros s. split; [reflexivity|]. split; [reflexivity|].
  destruct (seed_resets_existing home s _ eq_refl eq_refl)
    as (s' & Hrun & _ & _ & Hlen & _).
  exists s'. split; [exact Hrun | exact Hlen].
Defined.






Lemma two_pages_keys : keys_ok two_pages.
Proof. apply keys_ok_concrete; reflexivity. Defined.

Lemma two_externals_keys : keys_ok two_externals.
Proof. apply keys_ok_concrete; reflexivity. Defined.

Lemma schema_keys_preserved_witness :
  keys_ok two_pages ∧
  keys_ok (db (shared (run_schedule race_web home desktop 7 alternate
                         (start_pool 2 two_pages)))).
Proof.
  split; [exact two_pages_keys|].
  exact (schema_keys_preserved race_web home desktop 7 2 two_pages alternate
           two_pages_keys).
Defined.


Lemma settled_rows_untouched_witness :
  let r0 := URL.mk 1 home internal done (Some 0) in
  keys_ok (db at_other) ∧ r0 ∈ urls (db at_other) ∧ URL.status r0 ≠ pending ∧
  r0 ∈ frontier (run_schedule demo_web home desktop 7 alternate
                   (start_pool 2 (db at_other))).
Proof.
  intros r0.
  assert (Hk : keys_ok (db at_other)) by (apply keys_ok_concrete; reflexivity).
  assert (Hin : r0 ∈ urls (db at_other)) by (by left).
  split; [exact Hk|]. split; [exact Hin|]. split; [discriminate|].
  apply (settled_rows_untouched demo_web home desktop 7 2 (db at_other) alternate r0
           Hk Hin).
  discriminate.
Defined.

Lemma done_and_error_are_final_witness :
  let r := URL.mk 1 "http://x.test/" external done (Some 0) in
  let g1 := run_schedule demo_web home desktop 7 (turns 3) (start_pool 2 two_externals) in
  let g2 := run_schedule demo_web home desktop 7 (turns 3 ++ alternate)
              (start_pool 2 two_externals) in
  keys_ok two_externals ∧ r ∈ frontier g1 ∧ URL.status r = done ∧ r ∈ frontier g2.
Proof.
  intros r g1 g2.
  assert (Hin : r ∈ frontier g1).
  { apply list_elem_of_In. vm_compute. left. reflexivity. }
  split; [exact two_externals_keys|]. split; [exact Hin|]. split; [reflexivity|].
  apply (done_and_error_are_final demo_web home desktop 7 2 two_externals
           (turns 3) alternate r two_externals_keys Hin).
  by left.
Defined.

Lemma demo_web_closed : closed_web demo_web known_links.
Proof.
  intros u hs [= <-] h Hh. apply list_elem_of_In in Hh. apply list_elem_of_In.
  simpl in *. tauto.
Defined.


Lemma empty_store_keys : keys_ok empty_store.
Proof. apply keys_ok_concrete; reflexivity. Defined.






Lemma full_env_plain : plain_host (default EmptyString (full_env !! "DB_HOST")).
Proof. vm_compute. repeat split. Defined.




Lemma init_ignores_database_url_witness :
  url_only_env !! "DATABASE_URL" = Some "mysql+asyncmy://u:p@h:3306/d" ∧
  truthy (url_only_env !! "DB_USER") = false ∧
  db_manager.main quiet_server db_manager.init url_only_env
    = (Exits 1 db_manager.usage, []) ∧
  db_manager.main quiet_server db_manager.drop url_only_env
    = (Returns (), [db_manager.DropAll "mysql+asyncmy://u:p@h:3306/d"]).
Proof.
  split; [reflexivity|]. split; [reflexivity|].
  destruct (init_ignores_database_url quiet_server url_only_env
              "mysql+asyncmy://u:p@h:3306/d" eq_refl ltac:(discriminate)
              (or_introl eq_refl))
    as (Hinit & Hdrop & _).
  split; [exact Hinit | exact Hdrop].
Defined.

Lemma init_targets_witness :
  ∃ log,
    db_manager.main quiet_server db_manager.init full_env = (Returns (), log) ∧
    ∃ coords db,
      log =
        [db_manager.CreateDatabase
           ("mysql+mysqlconnector://" +:+ coords +:+ "/")
           ("CREATE DATABASE IF NOT EXISTS `" +:+ db +:+ "` "
            +:+ "CHARACTER SET utf8mb4 COLLATE utf8mb4_unicode_ci");
         db_manager.CreateAll
           (if truthy (full_env !! "DATABASE_URL")
            then fmt (full_env !! "DATABASE_URL")
            else "mysql+asyncmy://" +:+ coords +:+ "/" +:+ db)].
Proof.
  assert (Hmain : db_manager.main quiet_server db_manager.init full_env
                  = (Returns (), (db_manager.main quiet_server db_manager.init
                                    full_env).2)).
  { assert (Hfst : (db_manager.main quiet_server db_manager.init full_env).1
                   = Returns ()) by (vm_compute; reflexivity).
    destruct (db_manager.main _ _ _) as [r l]. simpl in Hfst. by subst r. }
  eexists. split; [exact Hmain|].
  destruct (init_targets quiet_server full_env _ Hmain) as (coords & db & _ & _ & Hlog).
  exists coords, db. exact Hlog.
Defined.
